(** * Money Planner: the financial simulation engine

    A shallow embedding of [src/utils/calculations.ts],
    [src/utils/investmentCalculations.ts] and
    [src/utils/purchaseCalculations.ts], with the plan and allocation
    checks of [src/utils/validators.ts] and the allocation rule of
    [src/hooks/useFinancialCalculator.ts].

    Number model.  A JavaScript [number] that the engine computes with is
    modelled as an exact rational ([Q]): the rounding of binary64
    arithmetic and overflow are outside the model, and so is a division
    by zero, where JavaScript gives an infinity or NaN and [Q] gives 0
    (a loan over 0 months, a target of 0 in the progress percentage).
    Where the source itself writes [Infinity] (the period solver's
    "never", the sweep's initial maximum and its infeasible rows) the
    value has type [number], which adds the two infinities and NaN to
    the rationals.  Period counts, loop bounds and exponents the source
    only uses as whole numbers are integers ([Z]).  Rationals are
    compared with [==] ([Qeq]), as [1#2] and [2#4] are the same number.

    Limits of the number model.  Exact arithmetic settles every tie and
    every quotient exactly, where binary64 can fall on either side: the
    zero-rate branch of the period solver takes [Math.ceil] of a rounded
    quotient, which can be one more than the exact ceiling (and one less
    or more than the count of the month-by-month loop); a sum built by
    repeated addition need not be the product; and a comparison at an
    exact tie, such as the feasibility test [productPrice * dp / 100 <=
    currentSavings], can go the other way.  For this reason a property
    that sets two different computations against each other is stated
    only where both run the same arithmetic (the compounding branch,
    whose loop the solver, the trajectory and the target date share), as
    an identity of the formulas, or on a value the source rounds before
    it reports it; and a property that reads a loan payment is stated
    for terms of at least one month.

    Loops.  A [for] loop over a fixed range is a recursion on the number
    of iterations left.  The [while] loop of the period solver and the
    [for] loop with [break] of the trajectory take fuel, and lemmas
    [period_while_enough] and [simulation_for_enough] show that the fuel
    they are given never runs out before the loop's own condition ends
    it. *)

From Stdlib Require Import QArith Qround Qabs Qpower Qfield.
From Stdlib Require Import ZArith List Bool Lia Lqa.
Import ListNotations.

Local Open Scope Q_scope.

(** ** JavaScript numeric primitives *)

Module JS.

(** [a < b], [a <= b] and [a === b] on finite numbers, as booleans. *)
Definition ltb (a b : Q) : bool := negb (Qle_bool b a).
Definition leb (a b : Q) : bool := Qle_bool a b.
Definition eqb (a b : Q) : bool := Qeq_bool a b.

(** [Math.round]: the nearest integer, halves towards +Infinity. *)
Definition Math_round (x : Q) : Q := inject_Z (Qfloor (x + (1 # 2))).

(** [Math.ceil] and [Math.floor]. *)
Definition Math_ceil (x : Q) : Q := inject_Z (Qceiling x).
Definition Math_floor (x : Q) : Q := inject_Z (Qfloor x).

Definition Math_max (a b : Q) : Q := if ltb a b then b else a.
Definition Math_min (a b : Q) : Q := if ltb b a then b else a.
Definition Math_abs (x : Q) : Q := Qabs x.

(** [Math.pow] at a whole exponent. *)
Definition Math_pow (x : Q) (n : Z) : Q := Qpower x n.

(** [Number(x.toFixed(2))]: the nearest multiple of 1/100; [toFixed] works
    on the magnitude and picks the larger candidate on a tie. *)
Definition toFixed2 (x : Q) : Q :=
  if ltb x 0
  then - (inject_Z (Qfloor ((- x) * 100 + (1 # 2))) / 100)
  else inject_Z (Qfloor (x * 100 + (1 # 2))) / 100.

(** A [number] that may be non-finite. *)
Inductive number : Type :=
| Fin (q : Q)
| PosInfinity
| NegInfinity
| NaN.

(** Equality of numbers as values ([NaN] is only related to itself here;
    this is identity of results, not the [===] operator). *)
Definition number_eq (a b : number) : Prop :=
  match a, b with
  | Fin x, Fin y => x == y
  | PosInfinity, PosInfinity => True
  | NegInfinity, NegInfinity => True
  | NaN, NaN => True
  | _, _ => False
  end.

(** The comparison operators; every comparison with NaN is false. *)
Definition number_ltb (a b : number) : bool :=
  match a, b with
  | NaN, _ | _, NaN => false
  | Fin x, Fin y => ltb x y
  | NegInfinity, NegInfinity => false
  | NegInfinity, _ => true
  | _, PosInfinity => match a with PosInfinity => false | _ => true end
  | _, _ => false
  end.

Definition number_gtb (a b : number) : bool := number_ltb b a.

Definition number_leb (a b : number) : bool :=
  match a, b with
  | NaN, _ | _, NaN => false
  | Fin x, Fin y => leb x y
  | NegInfinity, _ => true
  | _, PosInfinity => true
  | _, _ => false
  end.

Definition number_geb (a b : number) : bool := number_leb b a.

(** [Math.min(a, b)]. *)
Definition number_min (a b : number) : number :=
  match a, b with
  | NaN, _ | _, NaN => NaN
  | _, _ => if number_ltb b a then b else a
  end.

(** [a * b]: an infinity times zero is NaN. *)
Definition number_mul (a b : number) : number :=
  let inf_times (positive : bool) (y : Q) :=
    if ltb 0 y then (if positive then PosInfinity else NegInfinity)
    else if ltb y 0 then (if positive then NegInfinity else PosInfinity)
    else NaN in
  match a, b with
  | NaN, _ | _, NaN => NaN
  | Fin x, Fin y => Fin (x * y)
  | PosInfinity, Fin y | Fin y, PosInfinity => inf_times true y
  | NegInfinity, Fin y | Fin y, NegInfinity => inf_times false y
  | PosInfinity, PosInfinity | NegInfinity, NegInfinity => PosInfinity
  | PosInfinity, NegInfinity | NegInfinity, PosInfinity => NegInfinity
  end.

(** [a - b]: the difference of two equal infinities is NaN. *)
Definition number_sub (a b : number) : number :=
  match a, b with
  | NaN, _ | _, NaN => NaN
  | Fin x, Fin y => Fin (x - y)
  | PosInfinity, PosInfinity | NegInfinity, NegInfinity => NaN
  | PosInfinity, _ | _, NegInfinity => PosInfinity
  | NegInfinity, _ | _, PosInfinity => NegInfinity
  end.

(** [Math.round] leaves the non-finite values as they are. *)
Definition number_round (a : number) : number :=
  match a with
  | Fin x => Fin (Math_round x)
  | other => other
  end.

End JS.

Import JS.

(** ** src/utils/investmentCalculations.ts *)

Module InvestmentCalculations.

(** The [while] loop of the period solver,
    [while (currentValue < targetAmount && months < 1200)], with the loop
    variables [months] and [currentValue] as arguments.  [fuel] bounds the
    number of iterations; 1200 is enough from [months = 0]
    (lemma [period_while_fuel] below). *)
Fixpoint period_while (fuel : nat) (targetAmount monthlyReturn monthlyInvestment : Q)
    (months : Z) (currentValue : Q) : Z :=
  match fuel with
  | O => months
  | S fuel' =>
      if ltb currentValue targetAmount && (months <? 1200)%Z
      then period_while fuel' targetAmount monthlyReturn monthlyInvestment
             (months + 1)%Z
             (currentValue * (1 + monthlyReturn) + monthlyInvestment)
      else months
  end.

Definition calculateInvestmentPeriod
    (currentAmount targetAmount monthlyInvestment annualReturn : Q) : number :=
  if leb targetAmount currentAmount then Fin 0
  else if leb monthlyInvestment 0 then PosInfinity
  else
    let monthlyReturn := annualReturn / 12 in
    let remainingAmount := targetAmount - currentAmount in
    if eqb monthlyReturn 0
    then Fin (Math_ceil (remainingAmount / monthlyInvestment))
    else Fin (inject_Z (period_while 1200 targetAmount monthlyReturn
                          monthlyInvestment 0 currentAmount)).

Record MonthlyInvestmentProjection : Type := {
  mip_month : Z;
  mip_monthlyInvestment : Q;
  mip_cumulativeInvestment : Q;
  mip_monthlyReturn : Q;
  mip_cumulativeReturns : Q;
  mip_totalValue : Q;
  mip_progress : Q
}.

Record InvestmentScenario : Type := {
  annualReturn : Q;
  projectedMonths : number;
  totalValue : Q;
  totalReturns : Q
}.

Record InvestmentScenarios : Type := {
  conservative : InvestmentScenario;
  expected : InvestmentScenario;
  optimistic : InvestmentScenario
}.

(** The replay loop [for (let i = 0; i < projectedMonths; i++)] of the
    scenarios: [n] applications of the recurrence. *)
Fixpoint replay (n : nat) (monthlyReturn monthlyInvestment value : Q) : Q :=
  match n with
  | O => value
  | S n' => replay n' monthlyReturn monthlyInvestment
              (value * (1 + monthlyReturn) + monthlyInvestment)
  end.

(** How many [i = 0, 1, 2, ...] satisfy [i < m]. *)
Definition iterations_below (m : Q) : nat := Z.to_nat (Qceiling m).

(** The body of [scenarios.forEach]: it fills in [totalValue] and
    [totalReturns] of one scenario object. *)
Definition fill_scenario (currentAmount targetAmount monthlyInvestment : Q)
    (scenario : InvestmentScenario) : InvestmentScenario :=
  if number_ltb (projectedMonths scenario) (Fin 1200)
  then
    match projectedMonths scenario with
    | Fin months =>
        let monthlyReturn := annualReturn scenario / 12 in
        let value := replay (iterations_below months) monthlyReturn
                       monthlyInvestment currentAmount in
        {| annualReturn := annualReturn scenario;
           projectedMonths := projectedMonths scenario;
           totalValue := Math_round value;
           totalReturns :=
             Math_round (value - currentAmount - monthlyInvestment * months) |}
    | _ =>
        (* -Infinity < 1200 is the only other way into this branch, and
           the solver never returns -Infinity
           ([calculateInvestmentPeriod_range]).  The loop body would not
           run, and [totalReturns] would not be finite. *)
        {| annualReturn := annualReturn scenario;
           projectedMonths := projectedMonths scenario;
           totalValue := Math_round currentAmount;
           totalReturns := 0 |}
    end
  else
    {| annualReturn := annualReturn scenario;
       projectedMonths := projectedMonths scenario;
       totalValue := targetAmount;
       totalReturns := 0 |}.

Definition calculateInvestmentScenarios
    (currentAmount targetAmount monthlyInvestment expectedReturn : Q)
    : InvestmentScenarios :=
  let volatility := 15 # 100 in
  let conservativeReturn := Math_max (1 # 100) (expectedReturn - volatility) in
  let optimisticReturn := expectedReturn + volatility in
  let conservative :=
    {| annualReturn := conservativeReturn;
       projectedMonths := calculateInvestmentPeriod currentAmount targetAmount
                            monthlyInvestment conservativeReturn;
       totalValue := 0; totalReturns := 0 |} in
  let expected :=
    {| annualReturn := expectedReturn;
       projectedMonths := calculateInvestmentPeriod currentAmount targetAmount
                            monthlyInvestment expectedReturn;
       totalValue := 0; totalReturns := 0 |} in
  let optimistic :=
    {| annualReturn := optimisticReturn;
       projectedMonths := calculateInvestmentPeriod currentAmount targetAmount
                            monthlyInvestment optimisticReturn;
       totalValue := 0; totalReturns := 0 |} in
  let fill := fill_scenario currentAmount targetAmount monthlyInvestment in
  {| conservative := fill conservative;
     expected := fill expected;
     optimistic := fill optimistic |}.

(** The loop variables of the trajectory loop. *)
Record Running : Type := {
  cumulativeInvestment : Q;
  cumulativeReturns : Q;
  running_totalValue : Q
}.

(** The trajectory loop
    [for (let month = 1; month <= bound; month++) { ...; if (totalValue >= targetAmount) break }].
    It returns the points pushed and the loop variables at exit. *)
Fixpoint simulation_for (fuel : nat) (bound : number) (month : Z)
    (targetAmount monthlyReturn monthlyInvestment : Q) (st : Running)
    : list MonthlyInvestmentProjection * Running :=
  match fuel with
  | O => ([], st)
  | S fuel' =>
      if number_leb (Fin (inject_Z month)) bound then
        let monthlyReturn_amount := running_totalValue st * monthlyReturn in
        let totalValue' :=
          running_totalValue st * (1 + monthlyReturn) + monthlyInvestment in
        let cumulativeInvestment' := cumulativeInvestment st + monthlyInvestment in
        let cumulativeReturns' := cumulativeReturns st + monthlyReturn_amount in
        let progress := Math_min ((totalValue' / targetAmount) * 100) 100 in
        let point :=
          {| mip_month := month;
             mip_monthlyInvestment := monthlyInvestment;
             mip_cumulativeInvestment := Math_round cumulativeInvestment';
             mip_monthlyReturn := Math_round monthlyReturn_amount;
             mip_cumulativeReturns := Math_round cumulativeReturns';
             mip_totalValue := Math_round totalValue';
             mip_progress := Math_round (progress * 100) / 100 |} in
        let st' :=
          {| cumulativeInvestment := cumulativeInvestment';
             cumulativeReturns := cumulativeReturns';
             running_totalValue := totalValue' |} in
        if leb targetAmount totalValue' then ([point], st')
        else
          let (points, final) :=
            simulation_for fuel' bound (month + 1)%Z targetAmount monthlyReturn
              monthlyInvestment st' in
          (point :: points, final)
      else ([], st)
  end.

(** The number of months [1, 2, ...] that satisfy [month <= bound]: what the
    [for] loop can run at most.  A bound of +Infinity does not occur (the
    bound is a [Math.min] with 600). *)
Definition months_upto (bound : number) : nat :=
  match bound with
  | Fin b => Z.to_nat (Qfloor b)
  | _ => O
  end.

Record InvestmentSimulation : Type := {
  sim_currentAmount : Q;
  sim_targetAmount : Q;
  sim_monthlyInvestment : Q;
  sim_annualReturn : Q;
  sim_projectedMonths : number;
  sim_totalInvested : number;
  sim_totalReturns : number;
  sim_monthlyProjections : list MonthlyInvestmentProjection;
  sim_scenarios : InvestmentScenarios
}.

(** [calculateInvestmentSimulation]; the [goalId] it copies through and the
    completion date it takes from the clock are left out. *)
Definition calculateInvestmentSimulation
    (currentAmount targetAmount monthlyInvestment annualReturn : Q)
    : InvestmentSimulation :=
  let monthlyReturn := annualReturn / 12 in
  let projectedMonths :=
    calculateInvestmentPeriod currentAmount targetAmount monthlyInvestment
      annualReturn in
  let bound := number_min projectedMonths (Fin 600) in
  let (monthlyProjections, final) :=
    simulation_for (months_upto bound) bound 1 targetAmount monthlyReturn
      monthlyInvestment
      {| cumulativeInvestment := 0; cumulativeReturns := 0;
         running_totalValue := currentAmount |} in
  let scenarios :=
    calculateInvestmentScenarios currentAmount targetAmount monthlyInvestment
      annualReturn in
  let totalInvested := number_mul projectedMonths (Fin monthlyInvestment) in
  (* monthlyProjections[length - 1]?.totalValue || totalValue *)
  let finalValue :=
    match last (map Some monthlyProjections) None with
    | Some point =>
        if eqb (mip_totalValue point) 0 then running_totalValue final
        else mip_totalValue point
    | None => running_totalValue final
    end in
  let totalReturns :=
    number_sub (number_sub (Fin finalValue) (Fin currentAmount)) totalInvested in
  {| sim_currentAmount := currentAmount;
     sim_targetAmount := targetAmount;
     sim_monthlyInvestment := monthlyInvestment;
     sim_annualReturn := annualReturn;
     sim_projectedMonths := projectedMonths;
     sim_totalInvested := number_round totalInvested;
     sim_totalReturns := number_round totalReturns;
     sim_monthlyProjections := monthlyProjections;
     sim_scenarios := scenarios |}.

Definition calculateRequiredMonthlyInvestment
    (currentAmount targetAmount : Q) (years : Z) (annualReturn : Q) : Q :=
  if (years <=? 0)%Z then 0
  else
    let monthlyReturn := annualReturn / 12 in
    let totalMonths := (years * 12)%Z in
    let futureValueOfCurrent :=
      currentAmount * Math_pow (1 + monthlyReturn) totalMonths in
    let requiredFromInvestment := targetAmount - futureValueOfCurrent in
    if leb requiredFromInvestment 0 then 0
    else if eqb monthlyReturn 0
    then requiredFromInvestment / inject_Z totalMonths
    else
      requiredFromInvestment * monthlyReturn
      / (Math_pow (1 + monthlyReturn) totalMonths - 1).

Definition calculateFutureValue
    (currentAmount monthlyInvestment annualReturn : Q) (years : Z) : Q :=
  let monthlyReturn := annualReturn / 12 in
  let totalMonths := (years * 12)%Z in
  let futureValueOfCurrent :=
    currentAmount * Math_pow (1 + monthlyReturn) totalMonths in
  let futureValueOfInvestments :=
    if eqb monthlyReturn 0 then monthlyInvestment * inject_Z totalMonths
    else
      monthlyInvestment * (Math_pow (1 + monthlyReturn) totalMonths - 1)
      / monthlyReturn in
  futureValueOfCurrent + futureValueOfInvestments.

Definition calculatePortfolioReturn (stocks bonds cash others : Q) : Q :=
  let stockReturn := 8 # 100 in
  let bondReturn := 3 # 100 in
  let cashReturn := 1 # 1000 in
  let otherReturn := 5 # 100 in
  (stocks / 100) * stockReturn
  + (bonds / 100) * bondReturn
  + (cash / 100) * cashReturn
  + (others / 100) * otherReturn.

End InvestmentCalculations.

(** ** src/utils/calculations.ts *)

Module Calculations.

Definition calculateMonthlyPayment (principal rate : Q) (years : Z) : Q :=
  let monthlyRate := rate / 12 in
  let totalPayments := (years * 12)%Z in
  if eqb rate 0 then principal / inject_Z totalPayments
  else
    principal * (monthlyRate * Math_pow (1 + monthlyRate) totalPayments)
    / (Math_pow (1 + monthlyRate) totalPayments - 1).

(** A row of [paymentSchedule]. *)
Record Payment : Type := {
  pay_month : Z;
  pay_payment : Q;
  pay_principal : Q;
  pay_interest : Q;
  pay_remainingBalance : Q
}.

(** The schedule loop [for (let month = 1; month <= totalPayments; month++)]:
    [count] is the number of months still to run, [month] the current one.
    It returns the rows pushed and the final [totalInterest]. *)
Fixpoint schedule_for (count : nat) (month : Z) (monthlyPayment monthlyRate : Q)
    (remainingBalance totalInterest : Q) : list Payment * Q :=
  match count with
  | O => ([], totalInterest)
  | S count' =>
      let interestPayment := remainingBalance * monthlyRate in
      let principalPayment := monthlyPayment - interestPayment in
      let remainingBalance' := remainingBalance - principalPayment in
      let totalInterest' := totalInterest + interestPayment in
      let row :=
        {| pay_month := month;
           pay_payment := toFixed2 monthlyPayment;
           pay_principal := toFixed2 principalPayment;
           pay_interest := toFixed2 interestPayment;
           pay_remainingBalance := toFixed2 (Math_max 0 remainingBalance') |} in
      let (rows, total) :=
        schedule_for count' (month + 1)%Z monthlyPayment monthlyRate
          remainingBalance' totalInterest' in
      (row :: rows, total)
  end.

Record LoanCalculationResult : Type := {
  lcr_monthlyPayment : Q;
  lcr_totalPayment : Q;
  lcr_totalInterest : Q;
  lcr_paymentSchedule : list Payment
}.

Definition calculateLoanDetails (principal rate : Q) (years : Z)
    : LoanCalculationResult :=
  let monthlyPayment := calculateMonthlyPayment principal rate years in
  let monthlyRate := rate / 12 in
  let totalPayments := (years * 12)%Z in
  let (paymentSchedule, totalInterest) :=
    schedule_for (Z.to_nat totalPayments) 1 monthlyPayment monthlyRate
      principal 0 in
  {| lcr_monthlyPayment := toFixed2 monthlyPayment;
     lcr_totalPayment := toFixed2 (monthlyPayment * inject_Z totalPayments);
     lcr_totalInterest := toFixed2 totalInterest;
     lcr_paymentSchedule := paymentSchedule |}.

(** The number of months [calculateTargetDate] adds to today's date: the
    same loop as the period solver, without its guard on the contribution. *)
Definition calculateTargetDate_months
    (targetAmount currentAmount monthlyPayment rate : Q) : Z :=
  if leb targetAmount currentAmount then 0%Z
  else
    let monthlyRate := rate / 12 in
    InvestmentCalculations.period_while 1200 targetAmount monthlyRate
      monthlyPayment 0 currentAmount.

Definition compoundInterest (principal rate : Q) (periods : Z) : Q :=
  principal * Math_pow (1 + rate) periods.

Definition futureValueAnnuity (payment rate : Q) (periods : Z) : Q :=
  if eqb rate 0 then payment * inject_Z periods
  else payment * ((Math_pow (1 + rate) periods - 1) / rate).

Definition presentValue (futureValue rate : Q) (periods : Z) : Q :=
  futureValue / Math_pow (1 + rate) periods.

Definition calculateRealValue (nominalValue inflationRate : Q) (years : Z) : Q :=
  nominalValue / Math_pow (1 + inflationRate) years.





Definition calculateRequiredMonthlyPayment
    (targetAmount currentAmount rate : Q) (years : Z) : Q :=
  let futureValueOfCurrent := compoundInterest currentAmount rate years in
  let requiredFromSavings := targetAmount - futureValueOfCurrent in
  if leb requiredFromSavings 0 then 0
  else
    let monthlyRate := rate / 12 in
    let totalMonths := (years * 12)%Z in
    if eqb rate 0 then requiredFromSavings / inject_Z totalMonths
    else
      requiredFromSavings * monthlyRate
      / (Math_pow (1 + monthlyRate) totalMonths - 1).

Record ScenarioValues : Type := {
  sv_optimistic : Q;
  sv_expected : Q;
  sv_pessimistic : Q
}.

Definition simulateInvestmentScenarios
    (principal monthlyPayment expectedReturn volatility : Q) (years : Z)
    : ScenarioValues :=
  let optimisticReturn := expectedReturn + volatility in
  let optimisticValue :=
    compoundInterest principal optimisticReturn years
    + futureValueAnnuity monthlyPayment (optimisticReturn / 12)
        (years * 12) in
  let pessimisticReturn := Math_max 0 (expectedReturn - volatility) in
  let pessimisticValue :=
    compoundInterest principal pessimisticReturn years
    + futureValueAnnuity monthlyPayment (pessimisticReturn / 12)
        (years * 12) in
  let expectedValue :=
    compoundInterest principal expectedReturn years
    + futureValueAnnuity monthlyPayment (expectedReturn / 12) (years * 12) in
  {| sv_optimistic := toFixed2 optimisticValue;
     sv_expected := toFixed2 expectedValue;
     sv_pessimistic := toFixed2 pessimisticValue |}.

End Calculations.

(** ** src/utils/purchaseCalculations.ts *)

Module PurchaseCalculations.

(** The level payment.  At [months = 0] the source divides by zero
    (the payment is an infinity, or NaN for a principal of 0); the model
    is for terms of at least one month, and the properties of the payment
    carry that hypothesis. *)
Definition calculateMonthlyLoanPayment (principal annualRate : Q) (months : Z)
    : Q :=
  if eqb annualRate 0 then principal / inject_Z months
  else
    let monthlyRate := annualRate / 12 in
    let factor := Math_pow (1 + monthlyRate) months in
    principal * (monthlyRate * factor) / (factor - 1).

(** [loanBalance] and [loanPayment] are only present on the points of a
    loan scenario. *)
Record MonthlyOpportunityProjection : Type := {
  mop_month : Z;
  mop_investmentContribution : Q;
  mop_investmentValue : Q;
  mop_netWorth : Q;
  mop_loanBalance : option Q;
  mop_loanPayment : option Q
}.

Record OpportunityAnalysis : Type := {
  oa_totalInvested : Q;
  oa_investmentReturns : Q;
  oa_finalValue : Q;
  oa_monthlyProjections : list MonthlyOpportunityProjection
}.

(** The loop variables of [calculateOpportunityAnalysis]. *)
Record Growth : Type := {
  g_totalInvested : Q;
  g_investmentValue : Q;
  g_cumulativeMonthlyInvestment : Q
}.

(** [for (let month = 1; month <= months; month++)]: [count] months still
    to run, the current one being [month]. *)
Fixpoint opportunity_for (count : nat) (month : Z)
    (initialAmount monthlyInvestment monthlyReturn : Q) (st : Growth)
    : list MonthlyOpportunityProjection * Growth :=
  match count with
  | O => ([], st)
  | S count' =>
      let investmentValue' :=
        g_investmentValue st * (1 + monthlyReturn) + monthlyInvestment in
      let cumulative' := g_cumulativeMonthlyInvestment st + monthlyInvestment in
      let totalInvested' := initialAmount + cumulative' in
      let point :=
        {| mop_month := month;
           mop_investmentContribution := monthlyInvestment;
           mop_investmentValue := Math_round investmentValue';
           mop_netWorth := Math_round investmentValue';
           mop_loanBalance := None;
           mop_loanPayment := None |} in
      let (points, final) :=
        opportunity_for count' (month + 1)%Z initialAmount monthlyInvestment
          monthlyReturn
          {| g_totalInvested := totalInvested';
             g_investmentValue := investmentValue';
             g_cumulativeMonthlyInvestment := cumulative' |} in
      (point :: points, final)
  end.

Definition calculateOpportunityAnalysis
    (initialAmount monthlyInvestment annualReturn : Q) (months : Z)
    : OpportunityAnalysis :=
  let monthlyReturn := annualReturn / 12 in
  let (monthlyProjections, final) :=
    opportunity_for (Z.to_nat months) 1 initialAmount monthlyInvestment
      monthlyReturn
      {| g_totalInvested := initialAmount;
         g_investmentValue := initialAmount;
         g_cumulativeMonthlyInvestment := 0 |} in
  let finalValue := Math_round (g_investmentValue final) in
  let investmentReturns := finalValue - g_totalInvested final in
  {| oa_totalInvested := Math_round (g_totalInvested final);
     oa_investmentReturns := Math_round investmentReturns;
     oa_finalValue := finalValue;
     oa_monthlyProjections := monthlyProjections |}.

Inductive PaymentMethod : Type := lump_sum | loan.

Record LumpSumScenario : Type := {
  lump_paymentMethod : PaymentMethod;
  lump_initialPayment : Q;
  lump_remainingSavings : Q;
  lump_investmentReturn : Q;
  lump_projectedYears : Q;
  lump_monthlyInvestment : Q;
  lump_finalAssets : Q;
  lump_totalCost : Q;
  lump_opportunity : OpportunityAnalysis
}.

(** [Math.round(projectedYears * 12)] as a month count. *)
Definition analysis_months (projectedYears : Q) : Z :=
  Qfloor (projectedYears * 12 + (1 # 2)).

Definition calculateLumpSumScenario
    (productPrice currentSavings investmentReturn projectedYears
     monthlyInvestment : Q) : LumpSumScenario :=
  let remainingSavings := Math_max 0 (currentSavings - productPrice) in
  let months := analysis_months projectedYears in
  let opportunity :=
    calculateOpportunityAnalysis remainingSavings monthlyInvestment
      investmentReturn months in
  {| lump_paymentMethod := lump_sum;
     lump_initialPayment := productPrice;
     lump_remainingSavings := remainingSavings;
     lump_investmentReturn := investmentReturn;
     lump_projectedYears := projectedYears;
     lump_monthlyInvestment := monthlyInvestment;
     lump_finalAssets := oa_finalValue opportunity;
     lump_totalCost := productPrice;
     lump_opportunity := opportunity |}.

Record LoanScenario : Type := {
  loan_paymentMethod : PaymentMethod;
  loan_downPayment : Q;
  loan_loanAmount : Q;
  loan_interestRate : Q;
  loan_loanTermMonths : Z;
  loan_monthlyPayment : Q;
  loan_totalInterest : Q;
  loan_totalCost : Q;
  loan_remainingSavings : Q;
  loan_investmentReturn : Q;
  loan_monthlyInvestment : Q;
  loan_finalAssets : Q;
  loan_opportunity : OpportunityAnalysis
}.

(** The second loop of [calculateLoanScenario], which overlays the loan
    balance on [opportunity.monthlyProjections[month - 1]].  Reading a
    field of a missing element throws; that is [None]. *)
Fixpoint enhance_for (count : nat) (month : Z)
    (projections : list MonthlyOpportunityProjection)
    (loanInterestRate : Q) (loanTermMonths : Z) (monthlyPayment : Q)
    (loanBalance0 : Q) : option (list MonthlyOpportunityProjection) :=
  match count with
  | O => Some []
  | S count' =>
      match nth_error projections (Z.to_nat (month - 1)) with
      | None => None
      | Some originalProjection =>
          let within := (month <=? loanTermMonths)%Z in
          let loanBalance' :=
            if within then
              let interestPayment := loanBalance0 * (loanInterestRate / 12) in
              let principalPayment := monthlyPayment - interestPayment in
              Math_max 0 (loanBalance0 - principalPayment)
            else loanBalance0 in
          let point :=
            {| mop_month := mop_month originalProjection;
               mop_investmentContribution := mop_investmentContribution originalProjection;
               mop_investmentValue := mop_investmentValue originalProjection;
               mop_loanBalance :=
                 Some (if within then Math_round loanBalance' else 0);
               mop_loanPayment :=
                 Some (if within then Math_round monthlyPayment else 0);
               mop_netWorth :=
                 Math_round (mop_investmentValue originalProjection
                             - (if within then loanBalance' else 0)) |} in
          match enhance_for count' (month + 1)%Z projections loanInterestRate
                  loanTermMonths monthlyPayment loanBalance' with
          | None => None
          | Some points => Some (point :: points)
          end
      end
  end.

(** The amounts [calculateLoanScenario] computes before it rounds them
    for the result. *)
Definition loan_costs (productPrice downPaymentPercentage loanInterestRate : Q)
    (loanTermMonths : Z) : Q * Q * Q * Q * Q :=
  let downPayment := productPrice * (downPaymentPercentage / 100) in
  let loanAmount := productPrice - downPayment in
  let monthlyPayment :=
    calculateMonthlyLoanPayment loanAmount loanInterestRate loanTermMonths in
  let totalInterest := monthlyPayment * inject_Z loanTermMonths - loanAmount in
  let totalCost := productPrice + totalInterest in
  (downPayment, loanAmount, monthlyPayment, totalInterest, totalCost).

(** [None] stands for a thrown exception. *)
Definition calculateLoanScenario
    (productPrice currentSavings downPaymentPercentage loanInterestRate : Q)
    (loanTermMonths : Z)
    (investmentReturn projectedYears additionalMonthlyInvestment : Q)
    : option LoanScenario :=
  let '(downPayment, loanAmount, monthlyPayment, totalInterest, totalCost) :=
    loan_costs productPrice downPaymentPercentage loanInterestRate
      loanTermMonths in
  let remainingSavings := Math_max 0 (currentSavings - downPayment) in
  let months := analysis_months projectedYears in
  let netMonthlyInvestment :=
    Math_max 0 (additionalMonthlyInvestment - monthlyPayment) in
  let opportunity :=
    calculateOpportunityAnalysis remainingSavings netMonthlyInvestment
      investmentReturn months in
  match enhance_for (Z.to_nat months) 1 (oa_monthlyProjections opportunity)
          loanInterestRate loanTermMonths monthlyPayment loanAmount with
  | None => None
  | Some enhancedProjections =>
      Some
        {| loan_paymentMethod := loan;
           loan_downPayment := Math_round downPayment;
           loan_loanAmount := Math_round loanAmount;
           loan_interestRate := loanInterestRate;
           loan_loanTermMonths := loanTermMonths;
           loan_monthlyPayment := Math_round monthlyPayment;
           loan_totalInterest := Math_round totalInterest;
           loan_totalCost := Math_round totalCost;
           loan_remainingSavings := Math_round remainingSavings;
           loan_investmentReturn := investmentReturn;
           loan_monthlyInvestment := netMonthlyInvestment;
           loan_finalAssets := oa_finalValue opportunity;
           loan_opportunity :=
             {| oa_totalInvested := oa_totalInvested opportunity;
                oa_investmentReturns := oa_investmentReturns opportunity;
                oa_finalValue := oa_finalValue opportunity;
                oa_monthlyProjections := enhancedProjections |} |}
  end.

Record PurchaseSimulation : Type := {
  ps_productPrice : Q;
  ps_currentSavings : Q;
  ps_lumpSumScenario : LumpSumScenario;
  ps_loanScenario : LoanScenario;
  ps_recommendation : PaymentMethod;
  ps_totalDifference : Q
}.

Record LoanTerms : Type := {
  downPaymentPercentage : Q;
  interestRate : Q;
  termMonths : Z
}.

(** [calculatePurchaseSimulation]; [goalId] and [productName], which it
    copies through, are left out. *)
Definition calculatePurchaseSimulation
    (productPrice currentSavings : Q) (loanTerms : LoanTerms)
    (investmentReturn projectedYears monthlyInvestmentCapacity : Q)
    : option PurchaseSimulation :=
  let lumpSumScenario :=
    calculateLumpSumScenario productPrice currentSavings investmentReturn
      projectedYears monthlyInvestmentCapacity in
  match calculateLoanScenario productPrice currentSavings
          (downPaymentPercentage loanTerms) (interestRate loanTerms)
          (termMonths loanTerms) investmentReturn projectedYears
          monthlyInvestmentCapacity with
  | None => None
  | Some loanScenario =>
      let lumpSumNetWorth := lump_finalAssets lumpSumScenario in
      let loanNetWorth :=
        loan_finalAssets loanScenario
        - (loan_totalCost loanScenario - productPrice) in
      let totalDifference := lumpSumNetWorth - loanNetWorth in
      let recommendation := if ltb 0 totalDifference then lump_sum else loan in
      Some
        {| ps_productPrice := productPrice;
           ps_currentSavings := currentSavings;
           ps_lumpSumScenario := lumpSumScenario;
           ps_loanScenario := loanScenario;
           ps_recommendation := recommendation;
           ps_totalDifference := Math_round (Math_abs totalDifference) |}
  end.

Definition calculateROI (initialInvestment finalAssets totalCost : Q) : Q :=
  if leb totalCost 0 then 0
  else ((finalAssets - totalCost) / totalCost) * 100.

(** [try { ... } catch (error) { return { roi: -Infinity, scenario: null } }].
    At a term of 0 months the source's payment is a division by zero, so
    its total cost and its ROI are NaN, which no comparison with [maxROI]
    accepts; the model does not cover that input, and the properties of
    the sweep that read the ROI are stated for terms of at least one
    month. *)
Definition calculateROIForDownPayment
    (productPrice currentSavings downPaymentPercentage loanInterestRate : Q)
    (loanTermMonths : Z)
    (investmentReturn projectedYears monthlyInvestmentCapacity : Q)
    : number * option LoanScenario :=
  match calculateLoanScenario productPrice currentSavings
          downPaymentPercentage loanInterestRate loanTermMonths
          investmentReturn projectedYears monthlyInvestmentCapacity with
  | Some loanScenario =>
      let roi :=
        calculateROI currentSavings (loan_finalAssets loanScenario)
          (loan_totalCost loanScenario) in
      (Fin roi, Some loanScenario)
  | None => (NegInfinity, None)
  end.

(** An entry of [roiAnalysis]. *)
Record RoiEntry : Type := {
  roi_downPayment : Z;
  roi_roi : number;
  roi_finalAssets : Q;
  roi_totalCost : Q;
  roi_monthlyPayment : Q;
  roi_feasible : bool
}.

(** [scenario?.field || 0]. *)
Definition field_or_zero (scenario : option LoanScenario)
    (field : LoanScenario -> Q) : Q :=
  match scenario with
  | Some s => if eqb (field s) 0 then 0 else field s
  | None => 0
  end.

(** The sweep [for (let dp = minDownPayment; dp <= maxDownPayment; dp += 1)]
    over whole percentages: [count] values of [dp] still to visit, with the
    running [maxROI] and [optimalDownPayment].  It returns the entries
    pushed and the final [(maxROI, optimalDownPayment)]. *)
Fixpoint sweep_for (count : nat) (dp : Z)
    (productPrice currentSavings loanInterestRate : Q) (loanTermMonths : Z)
    (investmentReturn projectedYears monthlyInvestmentCapacity : Q)
    (maxROI : number) (optimalDownPayment : Z)
    : list RoiEntry * (number * Z) :=
  match count with
  | O => ([], (maxROI, optimalDownPayment))
  | S count' =>
      let requiredDownPayment := productPrice * (inject_Z dp / 100) in
      let feasible := leb requiredDownPayment currentSavings in
      let continue := fun entry maxROI' optimal' =>
        let (entries, final) :=
          sweep_for count' (dp + 1)%Z productPrice currentSavings
            loanInterestRate loanTermMonths investmentReturn projectedYears
            monthlyInvestmentCapacity maxROI' optimal' in
        (entry :: entries, final) in
      if feasible then
        let (roi, scenario) :=
          calculateROIForDownPayment productPrice currentSavings (inject_Z dp)
            loanInterestRate loanTermMonths investmentReturn projectedYears
            monthlyInvestmentCapacity in
        let entry :=
          {| roi_downPayment := dp;
             roi_roi := roi;
             roi_finalAssets := field_or_zero scenario loan_finalAssets;
             roi_totalCost := field_or_zero scenario loan_totalCost;
             roi_monthlyPayment := field_or_zero scenario loan_monthlyPayment;
             roi_feasible := true |} in
        if number_gtb roi maxROI then continue entry roi dp
        else continue entry maxROI optimalDownPayment
      else
        continue
          {| roi_downPayment := dp;
             roi_roi := NegInfinity;
             roi_finalAssets := 0;
             roi_totalCost := 0;
             roi_monthlyPayment := 0;
             roi_feasible := false |}
          maxROI optimalDownPayment
  end.

Record Optimum : Type := {
  optimalDownPayment : Z;
  maxROI : number;
  roiAnalysis : list RoiEntry
}.

Definition findOptimalDownPaymentForROI
    (productPrice currentSavings loanInterestRate : Q) (loanTermMonths : Z)
    (investmentReturn projectedYears monthlyInvestmentCapacity : Q)
    (minDownPayment maxDownPayment : Z) : Optimum :=
  let '(entries, (best, optimal)) :=
    sweep_for (Z.to_nat (maxDownPayment - minDownPayment + 1)) minDownPayment
      productPrice currentSavings loanInterestRate loanTermMonths
      investmentReturn projectedYears monthlyInvestmentCapacity
      NegInfinity minDownPayment in
  {| optimalDownPayment := optimal;
     maxROI := best;
     roiAnalysis := entries |}.



Record SuggestedTerms : Type := {
  st_interestRate : number;
  st_termMonths : Z;
  st_downPaymentPercentage : Q;
  st_monthlyPayment : number
}.

(** The search [for (let months = 12; months <= 360; months += 12)] for
    the shortest term within the budget: [count] terms still to try,
    [optimalTerm] the value the variable holds if none fits. *)
Fixpoint term_search (count : nat) (months : Z)
    (productPrice monthlyBudget bestRate : Q) (optimalTerm : Z) : Z :=
  match count with
  | O => optimalTerm
  | S count' =>
      let payment :=
        calculateMonthlyLoanPayment (productPrice * (8 # 10)) bestRate months in
      if leb payment (monthlyBudget * (8 # 10)) then months
      else
        term_search count' (months + 12)%Z productPrice monthlyBudget bestRate
          optimalTerm
  end.

(** [suggestOptimalLoanTerms].  With no rate at all [Math.min()] is
    [Infinity]: every payment is then NaN ([Infinity / Infinity]), no
    comparison succeeds and the term stays at 12. *)
Definition suggestOptimalLoanTerms (productPrice monthlyBudget : Q)
    (availableRates : list Q) : SuggestedTerms :=
  match availableRates with
  | [] =>
      {| st_interestRate := PosInfinity;
         st_termMonths := 12;
         st_downPaymentPercentage := 20;
         st_monthlyPayment := NaN |}
  | first :: others =>
      let bestRate := fold_left Math_min others first in
      let optimalTerm :=
        term_search 30 12 productPrice monthlyBudget bestRate 12 in
      let downPaymentPercentage := 20 in
      let loanAmount := productPrice * (1 - downPaymentPercentage / 100) in
      let monthlyPayment :=
        calculateMonthlyLoanPayment loanAmount bestRate optimalTerm in
      {| st_interestRate := Fin bestRate;
         st_termMonths := optimalTerm;
         st_downPaymentPercentage := downPaymentPercentage;
         st_monthlyPayment := Fin (Math_round monthlyPayment) |}
  end.

End PurchaseCalculations.

(** ** src/utils/validators.ts *)

Module Validators.



Record PortfolioAllocation : Type := {
  stocks : Q;
  bonds : Q;
  cash : Q;
  others : Q
}.

(** [validatePortfolioAllocation]: [true] stands for the error message,
    [false] for [null]. *)
Definition validatePortfolioAllocation (allocation : PortfolioAllocation)
    : bool :=
  let total :=
    stocks allocation + bonds allocation + cash allocation
    + others allocation in
  ltb (1 # 100) (Math_abs (total - 100)).

End Validators.

(** ** src/hooks/useFinancialCalculator.ts *)

Module Hooks.




End Hooks.

(** * Vocabulary of the properties *)

Module Spec.

Import InvestmentCalculations.

(** What a scenario band reports, by its solved period count: at or over
    the 1200-month ceiling (or "never") the bare target and no returns;
    below it the recurrence replayed for that many months. *)
Definition band_reports (currentAmount targetAmount monthlyInvestment : Q)
    (band : InvestmentScenario) : Prop :=
  projectedMonths band
  = calculateInvestmentPeriod currentAmount targetAmount monthlyInvestment
      (annualReturn band)
  /\ match projectedMonths band with
     | Fin months =>
         if ltb months 1200 then
           exists k : nat,
             months = inject_Z (Z.of_nat k)
             /\ let value :=
                  replay k (annualReturn band / 12) monthlyInvestment
                    currentAmount in
                totalValue band = Math_round value
                /\ totalReturns band
                   = Math_round (value - currentAmount
                                 - monthlyInvestment * months)
         else totalValue band = targetAmount /\ totalReturns band = 0
     | PosInfinity => totalValue band = targetAmount /\ totalReturns band = 0
     | _ => False
     end.

(** The running maximum of the sweep, read off the entries: a feasible
    entry replaces the best so far when its ROI is strictly above it. *)
Definition keep_best (best : number * Z)
    (entry : PurchaseCalculations.RoiEntry) : number * Z :=
  if PurchaseCalculations.roi_feasible entry then
    if number_gtb (PurchaseCalculations.roi_roi entry) (fst best)
    then (PurchaseCalculations.roi_roi entry,
          PurchaseCalculations.roi_downPayment entry)
    else best
  else best.

(** A feasible entry of the sweep carries a finite ROI. *)
Definition finite_when_feasible (entry : PurchaseCalculations.RoiEntry)
    : Prop :=
  PurchaseCalculations.roi_feasible entry = true ->
  exists q, PurchaseCalculations.roi_roi entry = Fin q.

(** The outstanding balance after [k] payments of the schedule loop:
    each month pays the interest on the balance and repays the rest of
    the level payment. *)
Fixpoint balance_after (k : nat) (monthlyPayment monthlyRate balance : Q) : Q :=
  match k with
  | O => balance
  | S k' =>
      balance_after k' monthlyPayment monthlyRate
        (balance - (monthlyPayment - balance * monthlyRate))
  end.

(** What the sweep records for the percentage [dp]: the zero row when
    the down payment is out of reach of the savings, and otherwise the
    figures of the loan scenario at that percentage. *)
Definition sweep_row (productPrice currentSavings loanInterestRate : Q)
    (loanTermMonths : Z)
    (investmentReturn projectedYears monthlyInvestmentCapacity : Q)
    (dp : Z) (entry : PurchaseCalculations.RoiEntry) : Prop :=
  if leb (productPrice * (inject_Z dp / 100)) currentSavings then
    exists scenario,
      PurchaseCalculations.calculateLoanScenario productPrice currentSavings
        (inject_Z dp) loanInterestRate loanTermMonths investmentReturn
        projectedYears monthlyInvestmentCapacity = Some scenario
      /\ PurchaseCalculations.roi_downPayment entry = dp
      /\ PurchaseCalculations.roi_roi entry
         = Fin (PurchaseCalculations.calculateROI currentSavings
                  (PurchaseCalculations.loan_finalAssets scenario)
                  (PurchaseCalculations.loan_totalCost scenario))
      /\ PurchaseCalculations.roi_finalAssets entry
         == PurchaseCalculations.loan_finalAssets scenario
      /\ PurchaseCalculations.roi_totalCost entry
         == PurchaseCalculations.loan_totalCost scenario
      /\ PurchaseCalculations.roi_monthlyPayment entry
         == PurchaseCalculations.loan_monthlyPayment scenario
      /\ PurchaseCalculations.roi_feasible entry = true
  else
    entry
    = {| PurchaseCalculations.roi_downPayment := dp;
         PurchaseCalculations.roi_roi := NegInfinity;
         PurchaseCalculations.roi_finalAssets := 0;
         PurchaseCalculations.roi_totalCost := 0;
         PurchaseCalculations.roi_monthlyPayment := 0;
         PurchaseCalculations.roi_feasible := false |}.

(** The balance the overlay loop of the loan scenario holds after [k]
    payments: as [balance_after], with each new balance cut off at zero. *)
Fixpoint owed_after (k : nat) (monthlyPayment annualRate balance : Q) : Q :=
  match k with
  | O => balance
  | S k' =>
      owed_after k' monthlyPayment annualRate
        (Math_max 0
           (balance - (monthlyPayment - balance * (annualRate / 12))))
  end.

End Spec.

(** * Properties *)

Import InvestmentCalculations Calculations PurchaseCalculations Spec.

(** ** The comparison primitives *)

Section Comparisons.

Variables a b : Q.

Lemma ltb_lt : ltb a b = true <-> a < b.
Proof.
  unfold ltb. rewrite negb_true_iff, <- not_true_iff_false, Qle_bool_iff.
  split; [apply Qnot_le_lt | apply Qlt_not_le].
Qed.

Lemma ltb_ge : ltb a b = false <-> b <= a.
Proof.
  unfold ltb. rewrite negb_false_iff. apply Qle_bool_iff.
Qed.

Lemma leb_le : leb a b = true <-> a <= b.
Proof. apply Qle_bool_iff. Qed.

Lemma leb_gt : leb a b = false <-> b < a.
Proof.
  unfold leb. rewrite <- not_true_iff_false, Qle_bool_iff.
  split; [apply Qnot_le_lt | apply Qlt_not_le].
Qed.

Lemma eqb_eq : eqb a b = true <-> a == b.
Proof. apply Qeq_bool_iff. Qed.

Lemma eqb_neq : eqb a b = false <-> ~ a == b.
Proof.
  unfold eqb. rewrite <- not_true_iff_false, Qeq_bool_iff. tauto.
Qed.

End Comparisons.

(** Case analysis on a comparison of the source, leaving the order fact
    in the context. *)
Ltac case_ltb x y :=
  let H := fresh "Hlt" in
  destruct (ltb x y) eqn:H;
  [apply ltb_lt in H | apply ltb_ge in H].

Ltac case_leb x y :=
  let H := fresh "Hle" in
  destruct (leb x y) eqn:H;
  [apply leb_le in H | apply leb_gt in H].

Ltac case_eqb x y :=
  let H := fresh "Heq" in
  destruct (eqb x y) eqn:H;
  [apply eqb_eq in H | apply eqb_neq in H].

(** The monthly rate [annualRate / 12]. *)
Lemma monthly_rate (r : Q) : r / 12 == r * (1 # 12).
Proof. reflexivity. Qed.

Lemma Math_max_spec (a b : Q) :
  (a < b /\ Math_max a b = b) \/ (b <= a /\ Math_max a b = a).
Proof.
  unfold Math_max. case_ltb a b; [left | right]; split; auto.
Qed.

Lemma Math_max_l (a b : Q) : a <= Math_max a b.
Proof. destruct (Math_max_spec a b) as [[H ->] | [H ->]]; lra. Qed.

Lemma Math_max_r (a b : Q) : b <= Math_max a b.
Proof. destruct (Math_max_spec a b) as [[H ->] | [H ->]]; lra. Qed.

Lemma Math_max_mono (a b b' : Q) : b <= b' -> Math_max a b <= Math_max a b'.
Proof.
  intros H.
  destruct (Math_max_spec a b) as [[H1 ->] | [H1 ->]];
    destruct (Math_max_spec a b') as [[H2 ->] | [H2 ->]]; lra.
Qed.

(** [Math.round] and [toFixed] are monotone and fix what is already
    rounded. *)
Lemma Math_round_mono (x y : Q) : x <= y -> Math_round x <= Math_round y.
Proof.
  intros H. unfold Math_round. rewrite <- Zle_Qle.
  apply Qfloor_resp_le. lra.
Qed.

Lemma Math_round_Z (z : Z) : Math_round (inject_Z z) = inject_Z z.
Proof.
  unfold Math_round. f_equal.
  assert (H1 : (z <= Qfloor (inject_Z z + (1 # 2)))%Z).
  { rewrite <- (Qfloor_Z z) at 1. apply Qfloor_resp_le. lra. }
  assert (H2 : (Qfloor (inject_Z z + (1 # 2)) < z + 1)%Z).
  { rewrite Zlt_Qlt, inject_Z_plus. change (inject_Z 1) with 1.
    pose proof (Qfloor_le (inject_Z z + (1 # 2))). lra. }
  lia.
Qed.

Lemma Math_round_compat (x y : Q) : x == y -> Math_round x = Math_round y.
Proof. intros H. unfold Math_round. now rewrite H. Qed.

(** ** The model on small inputs *)

Example period_at_zero_rate :
  calculateInvestmentPeriod 0 12000 100 0 = Fin 120.
Proof. vm_compute. reflexivity. Qed.

Example period_already_met :
  calculateInvestmentPeriod 500 500 100 (5 # 100) = Fin 0.
Proof. vm_compute. reflexivity. Qed.

Example period_compounding :
  calculateInvestmentPeriod 500000 5000000 50000 (5 # 100) = Fin 74.
Proof. vm_compute. reflexivity. Qed.

(** A price of 1000 with 15 saved, financed at 6% over 2 months with 600
    a month to invest: 1% down costs 1007 in all and beats 0% down; 2%
    and 3% are not affordable. *)
Example sweep_of_four :
  let result :=
    findOptimalDownPaymentForROI 1000 15 (6 # 100) 2 (5 # 100) (2 # 12) 600
      0 3 in
  optimalDownPayment result = 1%Z
  /\ number_eq (maxROI result) (Fin (- (79900 # 1007)))
  /\ map (fun entry => (roi_feasible entry, roi_totalCost entry))
       (roiAnalysis result)
     = [(true, 1008); (true, 1007); (false, 0); (false, 0)].
Proof. vm_compute. repeat split. Qed.

Example rounding_halves_up :
  Math_round (5 # 2) = 3
  /\ Math_round (- (5 # 2)) = - 2
  /\ toFixed2 (1 # 8) == 13 # 100.
Proof. vm_compute. repeat split. Qed.

(** ** The period solver *)

Section PeriodSolver.

Variables targetAmount monthlyInvestment : Q.

Lemma period_while_S (fuel : nat) (monthlyReturn : Q) (months : Z)
    (currentValue : Q) :
  period_while (S fuel) targetAmount monthlyReturn monthlyInvestment months
    currentValue
  = if ltb currentValue targetAmount && (months <? 1200)%Z
    then period_while fuel targetAmount monthlyReturn monthlyInvestment
           (months + 1)%Z
           (currentValue * (1 + monthlyReturn) + monthlyInvestment)
    else months.
Proof. reflexivity. Qed.

(** The loop never needs more fuel than the months left below the
    ceiling: one more unit does not change its result. *)
Lemma period_while_fuel (fuel : nat) :
  forall (monthlyReturn : Q) (months : Z) (currentValue : Q),
    (1200 - months <= Z.of_nat fuel)%Z ->
    period_while (S fuel) targetAmount monthlyReturn monthlyInvestment
      months currentValue
    = period_while fuel targetAmount monthlyReturn monthlyInvestment
        months currentValue.
Proof.
  induction fuel as [| fuel IH]; intros r months v Hfuel.
  - rewrite period_while_S. replace (months <? 1200)%Z with false.
    + now rewrite andb_false_r.
    + symmetry. apply Z.ltb_ge. lia.
  - rewrite (period_while_S (S fuel) r months v), (period_while_S fuel r months v).
    destruct (ltb v targetAmount && (months <? 1200)%Z); [| reflexivity].
    apply IH. lia.
Qed.

(** So the 1200 units the solver passes are as good as any larger
    amount: the ceiling comes from the loop guard, not from the fuel. *)
Lemma period_while_enough (extra : nat) (monthlyReturn currentValue : Q) :
  period_while (extra + 1200) targetAmount monthlyReturn monthlyInvestment
    0 currentValue
  = period_while 1200 targetAmount monthlyReturn monthlyInvestment
      0 currentValue.
Proof.
  induction extra as [| extra IH]; [reflexivity |].
  rewrite <- IH. change (S extra + 1200)%nat with (S (extra + 1200)).
  apply period_while_fuel. lia.
Qed.

Lemma period_while_lower (fuel : nat) :
  forall (monthlyReturn : Q) (months : Z) (currentValue : Q),
    (months <= period_while fuel targetAmount monthlyReturn monthlyInvestment
                 months currentValue)%Z.
Proof.
  induction fuel as [| fuel IH]; intros r months v.
  - apply Z.le_refl.
  - rewrite period_while_S.
    destruct (ltb v targetAmount && (months <? 1200)%Z); [| lia].
    specialize (IH r (months + 1)%Z (v * (1 + r) + monthlyInvestment)). lia.
Qed.

Lemma period_while_upper (fuel : nat) :
  forall (monthlyReturn : Q) (months : Z) (currentValue : Q),
    (months <= 1200)%Z ->
    (period_while fuel targetAmount monthlyReturn monthlyInvestment
       months currentValue <= 1200)%Z.
Proof.
  induction fuel as [| fuel IH]; intros r months v Hm.
  - exact Hm.
  - rewrite period_while_S.
    destruct (ltb v targetAmount && (months <? 1200)%Z) eqn:Hc; [| lia].
    apply andb_true_iff in Hc. destruct Hc as [_ Hc]. apply Z.ltb_lt in Hc.
    apply IH. lia.
Qed.

(** A higher rate on a balance that is not negative reaches the target
    no later. *)
Lemma period_while_mono (fuel : nat) :
  forall (r1 r2 : Q) (months : Z) (v1 v2 : Q),
    0 <= 1 + r1 -> r1 <= r2 -> 0 <= monthlyInvestment ->
    v1 <= v2 -> 0 <= v2 ->
    (period_while fuel targetAmount r2 monthlyInvestment months v2
     <= period_while fuel targetAmount r1 monthlyInvestment months v1)%Z.
Proof.
  induction fuel as [| fuel IH]; intros r1 r2 months v1 v2 Hr1 Hr Hm Hv Hv2.
  - apply Z.le_refl.
  - rewrite !period_while_S.
    case_ltb v2 targetAmount.
    + assert (Hlt1 : ltb v1 targetAmount = true) by (apply ltb_lt; lra).
      rewrite Hlt1. rewrite !andb_true_l.
      destruct (months <? 1200)%Z; [| lia].
      assert (Hstep : v1 * (1 + r1) <= v2 * (1 + r2)).
      { apply Qle_trans with (v2 * (1 + r1)).
        - apply Qmult_le_compat_r; assumption.
        - rewrite !(Qmult_comm v2). apply Qmult_le_compat_r; lra. }
      apply IH; try assumption; try lra.
      assert (0 <= v2 * (1 + r2)) by (apply Qmult_le_0_compat; lra).
      lra.
    + rewrite andb_false_l.
      destruct (ltb v1 targetAmount && (months <? 1200)%Z); [| lia].
      apply Z.le_trans with (months + 1)%Z; [lia | apply period_while_lower].
Qed.

End PeriodSolver.

(** What the solver can return: 0 or more whole months, or +Infinity. *)
Lemma calculateInvestmentPeriod_range
    (currentAmount targetAmount monthlyInvestment annualReturn : Q) :
  calculateInvestmentPeriod currentAmount targetAmount monthlyInvestment
    annualReturn = PosInfinity
  \/ exists k : nat,
       calculateInvestmentPeriod currentAmount targetAmount monthlyInvestment
         annualReturn = Fin (inject_Z (Z.of_nat k)).
Proof.
  unfold calculateInvestmentPeriod.
  case_leb targetAmount currentAmount; [right; now exists 0%nat |].
  case_leb monthlyInvestment 0; [now left | right].
  destruct (eqb (annualReturn / 12) 0).
  - exists (Z.to_nat (Qceiling ((targetAmount - currentAmount) / monthlyInvestment))).
    unfold Math_ceil. rewrite Z2Nat.id; [reflexivity |].
    assert (H : 0 <= (targetAmount - currentAmount) / monthlyInvestment).
    { apply Qle_shift_div_l; lra. }
    change 0%Z with (Qceiling 0). now apply Qceiling_resp_le.
  - exists (Z.to_nat (period_while 1200 targetAmount (annualReturn / 12)
                        monthlyInvestment 0 currentAmount)).
    rewrite Z2Nat.id; [reflexivity | apply period_while_lower].
Qed.

(** The sibling loop of [calculateTargetDate] has no guard on the
    contribution: without one it runs to the 1200-month ceiling when the
    balance cannot grow, and stops early when interest alone reaches the
    target. *)
Example calculateTargetDate_ceiling :
  calculateTargetDate_months 100 0 0 (5 # 100) = 1200%Z.
Proof. vm_compute. reflexivity. Qed.

Example calculateTargetDate_interest_only :
  calculateTargetDate_months 101 100 0 (12 # 100) = 1%Z.
Proof. vm_compute. reflexivity. Qed.

(** C1, as the code has it.  When [currentAmount < targetAmount] and
    [monthlyInvestment <= 0], [calculateInvestmentPeriod] returns
    [Infinity], the unbounded marker, for every rate; the marker is not
    below the 1200-month ceiling, so a caller's [months < 1200] test
    fails on it as it does on the ceiling. *)
Theorem calculateInvestmentPeriod_never
    (currentAmount targetAmount monthlyInvestment annualReturn : Q) :
  currentAmount < targetAmount ->
  monthlyInvestment <= 0 ->
  calculateInvestmentPeriod currentAmount targetAmount monthlyInvestment
    annualReturn = PosInfinity
  /\ number_ltb PosInfinity (Fin 1200) = false
  /\ number_geb PosInfinity (Fin 1200) = true.
Proof.
  intros Hlt Hle. unfold calculateInvestmentPeriod.
  apply leb_gt in Hlt. apply leb_le in Hle. rewrite Hlt, Hle.
  repeat split.
Qed.

Lemma calculateInvestmentPeriod_never_witness :
  calculateInvestmentPeriod 0 100 0 (5 # 100) = PosInfinity
  /\ number_ltb PosInfinity (Fin 1200) = false
  /\ number_geb PosInfinity (Fin 1200) = true.
Proof.
  apply (calculateInvestmentPeriod_never 0 100 0 (5 # 100));
    [reflexivity | apply Qle_refl].
Defined.

(** C1 as stated fails: with nothing saved, a target of 100 and no
    contribution the solver does not return the finite ceiling 1200. *)
Lemma calculateInvestmentPeriod_not_ceiling :
  0 < 100 /\ 0 <= 0
  /\ ~ number_eq (calculateInvestmentPeriod 0 100 0 (5 # 100)) (Fin 1200).
Proof.
  split; [reflexivity |]. split; [apply Qle_refl |].
  vm_compute. tauto.
Qed.

(** ** The scenario bands *)

Lemma fill_scenario_keeps (currentAmount targetAmount monthlyInvestment : Q)
    (scenario : InvestmentScenario) :
  annualReturn (fill_scenario currentAmount targetAmount monthlyInvestment scenario)
  = annualReturn scenario
  /\ projectedMonths
       (fill_scenario currentAmount targetAmount monthlyInvestment scenario)
     = projectedMonths scenario.
Proof.
  unfold fill_scenario.
  destruct (number_ltb (projectedMonths scenario) (Fin 1200));
    [destruct (projectedMonths scenario) |]; split; reflexivity.
Qed.

(** The three bands, with the rate each was solved at. *)
Lemma scenarios_bands (currentAmount targetAmount monthlyInvestment expectedReturn : Q) :
  let s := calculateInvestmentScenarios currentAmount targetAmount
             monthlyInvestment expectedReturn in
  let fill r :=
    fill_scenario currentAmount targetAmount monthlyInvestment
      {| annualReturn := r;
         projectedMonths := calculateInvestmentPeriod currentAmount
                              targetAmount monthlyInvestment r;
         totalValue := 0; totalReturns := 0 |} in
  conservative s = fill (Math_max (1 # 100) (expectedReturn - (15 # 100)))
  /\ expected s = fill expectedReturn
  /\ optimistic s = fill (expectedReturn + (15 # 100)).
Proof. repeat split. Qed.

(** The solver is antitone in the annual rate, from a balance that is not
    negative and for rates from the 1% floor up. *)
Lemma calculateInvestmentPeriod_mono
    (currentAmount targetAmount monthlyInvestment r1 r2 : Q) :
  0 <= currentAmount -> 1 # 100 <= r1 -> r1 <= r2 ->
  number_geb
    (calculateInvestmentPeriod currentAmount targetAmount monthlyInvestment r1)
    (calculateInvestmentPeriod currentAmount targetAmount monthlyInvestment r2)
  = true.
Proof.
  intros Hc Hr1 Hr. unfold calculateInvestmentPeriod.
  case_leb targetAmount currentAmount; [reflexivity |].
  case_leb monthlyInvestment 0; [reflexivity |].
  pose proof (monthly_rate r1) as E1. pose proof (monthly_rate r2) as E2.
  assert (H1 : eqb (r1 / 12) 0 = false) by (apply eqb_neq; lra).
  assert (H2 : eqb (r2 / 12) 0 = false) by (apply eqb_neq; lra).
  rewrite H1, H2. unfold number_geb, number_leb.
  apply leb_le. rewrite <- Zle_Qle.
  apply period_while_mono; lra.
Qed.

(** C2, as the code has it.  For every [expectedReturn] from the 1% floor
    up and every [currentAmount] that is not negative (and every target
    and contribution), the bands satisfy conservativeReturn <=
    expectedReturn <= optimisticReturn and conservative.projectedMonths
    >= expected.projectedMonths >= optimistic.projectedMonths. *)
Theorem scenario_banding
    (currentAmount targetAmount monthlyInvestment expectedReturn : Q) :
  1 # 100 <= expectedReturn ->
  0 <= currentAmount ->
  let s := calculateInvestmentScenarios currentAmount targetAmount
             monthlyInvestment expectedReturn in
  annualReturn (conservative s) <= annualReturn (expected s)
  /\ annualReturn (expected s) <= annualReturn (optimistic s)
  /\ number_geb (projectedMonths (conservative s))
       (projectedMonths (expected s)) = true
  /\ number_geb (projectedMonths (expected s))
       (projectedMonths (optimistic s)) = true.
Proof.
  intros He Hc s.
  destruct (scenarios_bands currentAmount targetAmount monthlyInvestment
              expectedReturn) as (Hcons & Hexp & Hopt).
  fold s in Hcons, Hexp, Hopt. rewrite Hcons, Hexp, Hopt.
  repeat match goal with
         | |- context [fill_scenario ?c ?t ?m ?x] =>
             let K1 := fresh "K" in
             let K2 := fresh "K" in
             destruct (fill_scenario_keeps c t m x) as [K1 K2];
             rewrite ?K1, ?K2; clear K1 K2
         end.
  cbn [annualReturn projectedMonths].
  destruct (Math_max_spec (1 # 100) (expectedReturn - (15 # 100)))
    as [[Hm ->] | [Hm ->]].
  - repeat split; try lra;
      apply calculateInvestmentPeriod_mono; lra.
  - repeat split; try lra;
      apply calculateInvestmentPeriod_mono; lra.
Qed.

Lemma scenario_banding_witness :
  let s := calculateInvestmentScenarios 0 1000 100 (5 # 100) in
  annualReturn (conservative s) <= annualReturn (expected s)
  /\ annualReturn (expected s) <= annualReturn (optimistic s)
  /\ number_geb (projectedMonths (conservative s))
       (projectedMonths (expected s)) = true
  /\ number_geb (projectedMonths (expected s))
       (projectedMonths (optimistic s)) = true.
Proof.
  apply (scenario_banding 0 1000 100 (5 # 100)).
  - vm_compute. discriminate.
  - apply Qle_refl.
Defined.

(** C2 as stated fails in two ways.  Below the floor: at an expected
    return of 0% the conservative band is solved at 1%, above the
    expected rate, and reaches a target of 12000 from 100 a month in 115
    months, before the expected band's 120.  On a negative balance: from
    -1000 towards 10 with 30 a month at 12%, a higher rate grows the
    debt faster, and the bands take 35, 42 and 63 months. *)
Lemma scenario_banding_fails :
  (let s := calculateInvestmentScenarios 0 12000 100 0 in
   ~ annualReturn (conservative s) <= annualReturn (expected s)
   /\ projectedMonths (conservative s) = Fin 115
   /\ projectedMonths (expected s) = Fin 120
   /\ number_geb (projectedMonths (conservative s))
        (projectedMonths (expected s)) = false)
  /\ (let s := calculateInvestmentScenarios (-1000) 10 30 (12 # 100) in
      projectedMonths (conservative s) = Fin 35
      /\ projectedMonths (expected s) = Fin 42
      /\ projectedMonths (optimistic s) = Fin 63
      /\ number_geb (projectedMonths (conservative s))
           (projectedMonths (expected s)) = false
      /\ number_geb (projectedMonths (expected s))
           (projectedMonths (optimistic s)) = false).
Proof.
  split.
  - vm_compute. repeat split; try reflexivity. intros H. now apply H.
  - vm_compute. repeat split; reflexivity.
Qed.

Lemma fill_scenario_reports
    (currentAmount targetAmount monthlyInvestment rate : Q) :
  band_reports currentAmount targetAmount monthlyInvestment
    (fill_scenario currentAmount targetAmount monthlyInvestment
       {| annualReturn := rate;
          projectedMonths := calculateInvestmentPeriod currentAmount
                               targetAmount monthlyInvestment rate;
          totalValue := 0; totalReturns := 0 |}).
Proof.
  unfold band_reports.
  match goal with
  | |- context [fill_scenario ?c ?t ?m ?x] =>
      destruct (fill_scenario_keeps c t m x) as [K1 K2]
  end.
  rewrite K1, K2. cbn [annualReturn projectedMonths].
  split; [reflexivity |].
  unfold fill_scenario. cbn [annualReturn projectedMonths].
  destruct (calculateInvestmentPeriod_range currentAmount targetAmount
              monthlyInvestment rate) as [-> | [k ->]].
  - cbn. split; reflexivity.
  - cbn [number_ltb].
    destruct (ltb (inject_Z (Z.of_nat k)) 1200);
      cbn [totalValue totalReturns]; [| split; reflexivity].
    exists k. split; [reflexivity |].
    unfold iterations_below. rewrite Qceiling_Z, Nat2Z.id.
    split; reflexivity.
Qed.

(** C9, as the code has it.  Every band whose solved period count
    reaches the 1200-period ceiling, "never" included, reports the bare
    [targetAmount] and [totalReturns] 0; a band solved below the ceiling
    reports [totalValue = Math.round(value)], where [value] replays the
    recurrence for [projectedMonths] steps, and [totalReturns =
    Math.round(value - currentAmount - monthlyInvestment *
    projectedMonths)]: the difference is taken on the unrounded value
    and then rounded. *)
Theorem scenario_band_values
    (currentAmount targetAmount monthlyInvestment expectedReturn : Q) :
  let s := calculateInvestmentScenarios currentAmount targetAmount
             monthlyInvestment expectedReturn in
  band_reports currentAmount targetAmount monthlyInvestment (conservative s)
  /\ band_reports currentAmount targetAmount monthlyInvestment (expected s)
  /\ band_reports currentAmount targetAmount monthlyInvestment (optimistic s).
Proof.
  intros s.
  destruct (scenarios_bands currentAmount targetAmount monthlyInvestment
              expectedReturn) as (Hcons & Hexp & Hopt).
  fold s in Hcons, Hexp, Hopt. rewrite Hcons, Hexp, Hopt.
  repeat split; apply fill_scenario_reports.
Qed.

(** C9 as stated fails on amounts that are not whole: from 0.5 towards 2
    with 1 a month at 12%, the expected band is solved in 2 months and
    replays to 2.52005; it reports [totalValue] 3 and [totalReturns] 0,
    which is neither [totalValue - 0.5 - 1 * 2] nor the unrounded
    difference. *)
Lemma scenario_returns_rounded :
  let band := expected (calculateInvestmentScenarios (1 # 2) 2 1 (12 # 100)) in
  projectedMonths band = Fin 2
  /\ totalValue band == 3
  /\ totalReturns band == 0
  /\ ~ totalReturns band == totalValue band - (1 # 2) - 1 * 2
  /\ ~ totalReturns band
       == replay 2 ((12 # 100) / 12) 1 (1 # 2) - (1 # 2) - 1 * 2.
Proof.
  vm_compute. repeat split; discriminate.
Qed.

(** ** Rounding and whole amounts *)

Lemma Qfloor_unique (x : Q) (z : Z) :
  inject_Z z <= x -> x < inject_Z (z + 1) -> Qfloor x = z.
Proof.
  intros Hlow Hhigh.
  assert (H1 : (z <= Qfloor x)%Z).
  { rewrite <- (Qfloor_Z z). now apply Qfloor_resp_le. }
  assert (H2 : (Qfloor x < z + 1)%Z).
  { rewrite Zlt_Qlt. eapply Qle_lt_trans; [apply Qfloor_le | exact Hhigh]. }
  lia.
Qed.

Lemma Math_round_minus_Z (x : Q) (z : Z) :
  Math_round (x - inject_Z z) == Math_round x - inject_Z z.
Proof.
  unfold Math_round.
  assert (E : Qfloor (x - inject_Z z + (1 # 2))
              = (Qfloor (x + (1 # 2)) - z)%Z).
  { pose proof (Qfloor_le (x + (1 # 2))) as Hlow.
    pose proof (Qlt_floor (x + (1 # 2))) as Hhigh.
    apply Qfloor_unique.
    - unfold Z.sub. rewrite inject_Z_plus, inject_Z_opp. lra.
    - replace (Qfloor (x + (1 # 2)) - z + 1)%Z
        with (Qfloor (x + (1 # 2)) + 1 + - z)%Z by lia.
      rewrite (inject_Z_plus _ (- z)), inject_Z_opp. lra. }
  rewrite E. unfold Z.sub. rewrite inject_Z_plus, inject_Z_opp. ring.
Qed.

(** On whole amounts the rounded returns of a band below the ceiling are
    the reported value less what was put in. *)
Lemma band_returns_whole_amounts
    (currentAmount targetAmount monthlyInvestment : Q)
    (band : InvestmentScenario) (wholeCurrent wholeMonthly : Z) (months : Q) :
  band_reports currentAmount targetAmount monthlyInvestment band ->
  currentAmount == inject_Z wholeCurrent ->
  monthlyInvestment == inject_Z wholeMonthly ->
  projectedMonths band = Fin months ->
  months < 1200 ->
  totalReturns band
  == totalValue band - currentAmount - monthlyInvestment * months.
Proof.
  intros [_ Hreports] Hc Hm Hpm Hbelow.
  rewrite Hpm in Hreports.
  apply ltb_lt in Hbelow. rewrite Hbelow in Hreports.
  destruct Hreports as (k & Hk & Hvalue & Hreturns).
  rewrite Hreturns, Hvalue.
  set (value := replay k (annualReturn band / 12) monthlyInvestment
                  currentAmount).
  assert (E : value - currentAmount - monthlyInvestment * months
              == value - inject_Z (wholeCurrent + wholeMonthly * Z.of_nat k)).
  { rewrite inject_Z_plus, inject_Z_mult, Hk, Hc, Hm. ring. }
  rewrite (Math_round_compat _ _ E), Math_round_minus_Z.
  rewrite inject_Z_plus, inject_Z_mult, Hk, Hc, Hm. ring.
Qed.

(** ** The monthly trajectory *)

Section Trajectory.

Variables (bound : number) (targetAmount monthlyReturn monthlyInvestment : Q).

Let step (value : Q) : Q := value * (1 + monthlyReturn) + monthlyInvestment.

Lemma replay_S (n : nat) (value : Q) :
  replay (S n) monthlyReturn monthlyInvestment value
  = replay n monthlyReturn monthlyInvestment (step value).
Proof. reflexivity. Qed.

Lemma simulation_for_S (fuel : nat) (month : Z) (st : Running) :
  simulation_for (S fuel) bound month targetAmount monthlyReturn
    monthlyInvestment st
  = if number_leb (Fin (inject_Z month)) bound then
      let monthlyReturn_amount := running_totalValue st * monthlyReturn in
      let totalValue' := step (running_totalValue st) in
      let cumulativeInvestment' := cumulativeInvestment st + monthlyInvestment in
      let cumulativeReturns' := cumulativeReturns st + monthlyReturn_amount in
      let progress := Math_min ((totalValue' / targetAmount) * 100) 100 in
      let point :=
        {| mip_month := month;
           mip_monthlyInvestment := monthlyInvestment;
           mip_cumulativeInvestment := Math_round cumulativeInvestment';
           mip_monthlyReturn := Math_round monthlyReturn_amount;
           mip_cumulativeReturns := Math_round cumulativeReturns';
           mip_totalValue := Math_round totalValue';
           mip_progress := Math_round (progress * 100) / 100 |} in
      let st' :=
        {| cumulativeInvestment := cumulativeInvestment';
           cumulativeReturns := cumulativeReturns';
           running_totalValue := totalValue' |} in
      if leb targetAmount totalValue' then ([point], st')
      else
        let (points, final) :=
          simulation_for fuel bound (month + 1)%Z targetAmount monthlyReturn
            monthlyInvestment st' in
        (point :: points, final)
    else ([], st).
Proof. reflexivity. Qed.

(** The shape of what the loop emits from a state with running total
    [v]: point [j] is month [month + j] and carries the rounded total
    after [j + 1] steps; every point but the last is below the target;
    and the loop ends on the first total at or over the target, on the
    bound, or on the last unit of fuel. *)
Lemma simulation_for_shape (fuel : nat) :
  forall (month : Z) (st : Running) points final,
    simulation_for fuel bound month targetAmount monthlyReturn
      monthlyInvestment st = (points, final) ->
    let value k :=
      replay k monthlyReturn monthlyInvestment (running_totalValue st) in
    (length points <= fuel)%nat
    /\ running_totalValue final = value (length points)
    /\ (forall j p, nth_error points j = Some p ->
          mip_month p = (month + Z.of_nat j)%Z
          /\ mip_totalValue p = Math_round (value (S j))
          /\ number_leb (Fin (inject_Z (mip_month p))) bound = true)
    /\ (forall j, (S j < length points)%nat -> value (S j) < targetAmount)
    /\ (((0 < length points)%nat /\ targetAmount <= value (length points))
        \/ length points = fuel
        \/ number_leb
             (Fin (inject_Z (month + Z.of_nat (length points)))) bound
           = false).
Proof.
  induction fuel as [| fuel IH]; intros month st points final H value.
  - cbn in H. injection H as <- <-. cbn [length].
    split; [lia |]. split; [reflexivity |]. split; [| split].
    + intros [| j] p Hp; discriminate.
    + intros j Hj. lia.
    + right. now left.
  - rewrite simulation_for_S in H.
    destruct (number_leb (Fin (inject_Z month)) bound) eqn:Hguard.
    + cbv zeta in H.
      case_leb targetAmount (step (running_totalValue st)).
      * injection H as <- <-. cbn [length running_totalValue].
        split; [lia |]. split; [reflexivity |]. split; [| split].
        -- intros [| [| j]] p Hp; try discriminate.
           injection Hp as <-. cbn [mip_month mip_totalValue].
           split; [lia |]. split; [reflexivity | exact Hguard].
        -- intros j Hj. lia.
        -- left. split; [lia | exact Hle].
      * match type of H with
        | context [simulation_for fuel bound ?m _ _ _ ?s] =>
            destruct (simulation_for fuel bound m targetAmount monthlyReturn
                        monthlyInvestment s) as [ps f] eqn:Hrec
        end.
        injection H as <- <-.
        apply IH in Hrec. cbn [running_totalValue] in Hrec.
        destruct Hrec as (Hlen & Hfin & Hpts & Hbelow & Hend).
        cbn [length].
        split; [lia |]. split; [exact Hfin |]. split; [| split].
        -- intros [| j] p Hp.
           ++ injection Hp as <-. cbn [mip_month mip_totalValue].
              split; [lia |]. split; [reflexivity | exact Hguard].
           ++ cbn [nth_error] in Hp. destruct (Hpts j p Hp) as (Hm & Hv & Hb).
              split; [lia |]. split; [exact Hv | exact Hb].
        -- intros [| j] Hj; [exact Hle |].
           apply (Hbelow j). lia.
        -- destruct Hend as [[Hpos Hhit] | [Hfuel | Hout]].
           ++ left. split; [lia | exact Hhit].
           ++ right. left. lia.
           ++ right. right.
              replace (month + Z.of_nat (S (length ps)))%Z
                with (month + 1 + Z.of_nat (length ps))%Z by lia.
              exact Hout.
    + injection H as <- <-. cbn [length].
      split; [lia |]. split; [reflexivity |]. split; [| split].
      * intros [| j] p Hp; discriminate.
      * intros j Hj. lia.
      * right. right. now rewrite Z.add_0_r.
Qed.

End Trajectory.

(** The bound [Math.min(projectedMonths, 600)] admits at most 600 months
    and is never +Infinity. *)
Lemma months_upto_min_600 (projectedMonths : number) :
  (months_upto (number_min projectedMonths (Fin 600)) <= 600)%nat
  /\ number_min projectedMonths (Fin 600) <> PosInfinity.
Proof.
  destruct projectedMonths as [q | | |]; cbn [number_min number_ltb].
  - case_ltb 600 q; cbn [months_upto].
    + split; [| discriminate]. change (Qfloor 600) with 600%Z. lia.
    + split; [| discriminate].
      apply Qfloor_resp_le in Hlt. change (Qfloor 600) with 600%Z in Hlt. lia.
  - cbn [months_upto]. split; [| discriminate].
    change (Qfloor 600) with 600%Z. lia.
  - cbn [months_upto]. split; [lia | discriminate].
  - cbn [months_upto]. split; [lia | discriminate].
Qed.

(** Past the bound the loop does not run, whatever fuel is left. *)
Lemma simulation_for_fuel (bound : number)
    (targetAmount monthlyReturn monthlyInvestment : Q) (fuel : nat) :
  forall (month : Z) (st : Running),
    number_leb (Fin (inject_Z (month + Z.of_nat fuel))) bound = false ->
    simulation_for (S fuel) bound month targetAmount monthlyReturn
      monthlyInvestment st
    = simulation_for fuel bound month targetAmount monthlyReturn
        monthlyInvestment st.
Proof.
  induction fuel as [| fuel IH]; intros month st Hout.
  - rewrite simulation_for_S. rewrite Z.add_0_r in Hout. now rewrite Hout.
  - rewrite (simulation_for_S bound _ _ _ (S fuel) month st),
      (simulation_for_S bound _ _ _ fuel month st).
    destruct (number_leb (Fin (inject_Z month)) bound); [| reflexivity].
    cbv zeta.
    destruct (leb targetAmount _); [reflexivity |].
    rewrite IH; [reflexivity |].
    replace (month + 1 + Z.of_nat fuel)%Z with (month + Z.of_nat (S fuel))%Z
      by lia.
    exact Hout.
Qed.

(** The fuel [months_upto bound] lets the loop run to its bound. *)
Lemma months_upto_enough (bound : number) :
  bound <> PosInfinity ->
  number_leb (Fin (inject_Z (1 + Z.of_nat (months_upto bound)))) bound = false.
Proof.
  intros Hinf. destruct bound as [b | | |]; try reflexivity; [| congruence].
  cbn [number_leb months_upto]. apply leb_gt.
  pose proof (Qlt_floor b) as Hb.
  eapply Qlt_le_trans; [exact Hb |].
  rewrite <- Zle_Qle. lia.
Qed.

Lemma past_bound_later (bound : number) (month later : Z) :
  number_leb (Fin (inject_Z month)) bound = false ->
  (month <= later)%Z ->
  number_leb (Fin (inject_Z later)) bound = false.
Proof.
  intros Hout Hlater. destruct bound as [b | | |]; try reflexivity;
    try discriminate.
  cbn [number_leb] in *. apply leb_gt in Hout. apply leb_gt.
  rewrite Zle_Qle in Hlater. lra.
Qed.

(** So the fuel [months_upto bound] is as good as any larger amount: the
    length of the trajectory comes from the bound and the early exit. *)
Lemma simulation_for_enough (bound : number)
    (targetAmount monthlyReturn monthlyInvestment : Q) (st : Running)
    (extra : nat) :
  bound <> PosInfinity ->
  simulation_for (extra + months_upto bound) bound 1 targetAmount
    monthlyReturn monthlyInvestment st
  = simulation_for (months_upto bound) bound 1 targetAmount monthlyReturn
      monthlyInvestment st.
Proof.
  intros Hinf. induction extra as [| extra IH]; [reflexivity |].
  rewrite <- IH. change (S extra + months_upto bound)%nat
    with (S (extra + months_upto bound)).
  apply simulation_for_fuel.
  apply past_bound_later with (1 + Z.of_nat (months_upto bound))%Z;
    [now apply months_upto_enough | lia].
Qed.

Lemma simulation_projections
    (currentAmount targetAmount monthlyInvestment annualReturn : Q) :
  let sim := calculateInvestmentSimulation currentAmount targetAmount
               monthlyInvestment annualReturn in
  let bound := number_min (sim_projectedMonths sim) (Fin 600) in
  sim_projectedMonths sim
  = calculateInvestmentPeriod currentAmount targetAmount monthlyInvestment
      annualReturn
  /\ sim_monthlyProjections sim
     = fst (simulation_for (months_upto bound) bound 1 targetAmount
              (annualReturn / 12) monthlyInvestment
              {| cumulativeInvestment := 0; cumulativeReturns := 0;
                 running_totalValue := currentAmount |}).
Proof.
  unfold calculateInvestmentSimulation.
  destruct (simulation_for _ _ 1 targetAmount (annualReturn / 12)
              monthlyInvestment _) as [points final] eqn:Hloop.
  cbn [sim_projectedMonths sim_monthlyProjections].
  rewrite Hloop. split; reflexivity.
Qed.

(** The trajectory of [calculateInvestmentSimulation], for all inputs:
    at most 600 points; point [j] is month [j + 1] with the rounded
    running total after [j + 1] steps of the recurrence; every point but
    the last has a running total below the target; and the series ends
    on a total at or over the target or at the month bound
    [Math.min(projectedMonths, 600)]. *)
Lemma trajectory_shape
    (currentAmount targetAmount monthlyInvestment annualReturn : Q) :
  let sim := calculateInvestmentSimulation currentAmount targetAmount
               monthlyInvestment annualReturn in
  let points := sim_monthlyProjections sim in
  let value k := replay k (annualReturn / 12) monthlyInvestment currentAmount in
  (length points <= 600)%nat
  /\ (forall j p, nth_error points j = Some p ->
        mip_month p = Z.of_nat (S j)
        /\ mip_totalValue p = Math_round (value (S j)))
  /\ (forall j, (S j < length points)%nat -> value (S j) < targetAmount)
  /\ (((0 < length points)%nat /\ targetAmount <= value (length points))
      \/ number_leb (Fin (inject_Z (Z.of_nat (S (length points)))))
           (number_min (sim_projectedMonths sim) (Fin 600)) = false).
Proof.
  intros sim points value.
  destruct (simulation_projections currentAmount targetAmount
              monthlyInvestment annualReturn) as [Hpm Hpoints].
  fold sim in Hpm, Hpoints. fold points in Hpoints.
  set (bound := number_min (sim_projectedMonths sim) (Fin 600)) in *.
  destruct (months_upto_min_600 (sim_projectedMonths sim)) as [H600 Hinf].
  fold bound in H600, Hinf.
  destruct (simulation_for (months_upto bound) bound 1 targetAmount
              (annualReturn / 12) monthlyInvestment
              {| cumulativeInvestment := 0; cumulativeReturns := 0;
                 running_totalValue := currentAmount |})
    as [ps final] eqn:Hloop.
  cbn [fst] in Hpoints. subst ps.
  apply simulation_for_shape in Hloop. cbn [running_totalValue] in Hloop.
  destruct Hloop as (Hlen & _ & Hpts & Hbelow & Hend).
  split; [lia |]. split; [| split].
  - intros j p Hp. destruct (Hpts j p Hp) as (Hm & Hv & _).
    split; [lia | exact Hv].
  - exact Hbelow.
  - destruct Hend as [Hhit | [Hfuel | Hout]].
    + now left.
    + right. rewrite Hfuel.
      replace (Z.of_nat (S (months_upto bound)))
        with (1 + Z.of_nat (months_upto bound))%Z by lia.
      now apply months_upto_enough.
    + right.
      replace (Z.of_nat (S (length points)))
        with (1 + Z.of_nat (length points))%Z by lia.
      exact Hout.
Qed.

(** The goal of 5,000,000 from 500,000 with 50,000 a month at 5%: solved
    in 74 months, and the trajectory has exactly the 74 points. *)
Lemma goal_scenario_length :
  let sim := calculateInvestmentSimulation 500000 5000000 50000 (5 # 100) in
  sim_projectedMonths sim = Fin 74
  /\ length (sim_monthlyProjections sim) = 74%nat.
Proof.
  intros sim.
  pose (value k := replay k ((5 # 100) / 12) 50000 500000).
  destruct (simulation_projections 500000 5000000 50000 (5 # 100))
    as [Hpm _].
  fold sim in Hpm.
  assert (Hsolved : calculateInvestmentPeriod 500000 5000000 50000 (5 # 100)
                    = Fin 74) by (vm_compute; reflexivity).
  rewrite Hsolved in Hpm. split; [exact Hpm |].
  destruct (trajectory_shape 500000 5000000 50000 (5 # 100))
    as (_ & _ & Hbelow & Hend).
  fold sim in Hbelow, Hend. fold value in Hbelow, Hend.
  set (points := sim_monthlyProjections sim) in *.
  rewrite Hpm in Hend.
  assert (Hearly : forall k, (1 <= k <= 73)%nat -> value k < 5000000).
  { assert (Hall : forallb (fun k => ltb (value k) 5000000) (seq 1 73) = true)
      by (vm_compute; reflexivity).
    rewrite forallb_forall in Hall.
    intros k Hk. apply ltb_lt, Hall, in_seq. lia. }
  assert (Hat : 5000000 <= value 74%nat).
  { apply leb_le. vm_compute. reflexivity. }
  assert (Hupper : (length points <= 74)%nat).
  { destruct (Nat.le_gt_cases (length points) 74) as [H | H]; [exact H |].
    specialize (Hbelow 73%nat H). apply Qlt_not_le in Hbelow.
    now elim Hbelow. }
  assert (Hlower : (74 <= length points)%nat).
  { destruct (Nat.le_gt_cases 74 (length points)) as [H | H]; [exact H |].
    destruct Hend as [[Hpos Hhit] | Hout].
    - assert (Hlt : value (length points) < 5000000) by (apply Hearly; lia).
      apply Qlt_not_le in Hlt. now elim Hlt.
    - change (number_min (Fin 74) (Fin 600)) with (Fin 74) in Hout.
      cbn [number_leb] in Hout. apply leb_gt in Hout.
      change 74 with (inject_Z 74) in Hout. rewrite <- Zlt_Qlt in Hout. lia. }
  lia.
Qed.

(** C8.  For all inputs the trajectory of [calculateInvestmentSimulation]
    has at most 600 points; its point [j] is month [j + 1] and carries
    the rounded running total after [j + 1] steps; every point before
    the last has a running total below the target, so the series stops
    at the first month whose running total meets or exceeds the target;
    it ends there or at the month bound [Math.min(projectedMonths, 600)].
    For target 5,000,000, current 500,000, 50,000 a month at 5%, the
    reported [projectedMonths] is 74, the point of month 74 has
    [totalValue] 5,003,537, at least the target, and the point of month
    73 has 4,932,983, below it. *)
Theorem trajectory_stops_at_goal :
  (forall currentAmount targetAmount monthlyInvestment annualReturn : Q,
     let sim := calculateInvestmentSimulation currentAmount targetAmount
                  monthlyInvestment annualReturn in
     let points := sim_monthlyProjections sim in
     let value k :=
       replay k (annualReturn / 12) monthlyInvestment currentAmount in
     (length points <= 600)%nat
     /\ (forall j p, nth_error points j = Some p ->
           mip_month p = Z.of_nat (S j)
           /\ mip_totalValue p = Math_round (value (S j)))
     /\ (forall j, (S j < length points)%nat -> value (S j) < targetAmount)
     /\ (((0 < length points)%nat /\ targetAmount <= value (length points))
         \/ number_leb (Fin (inject_Z (Z.of_nat (S (length points)))))
              (number_min (sim_projectedMonths sim) (Fin 600)) = false))
  /\ (let sim :=
        calculateInvestmentSimulation 500000 5000000 50000 (5 # 100) in
      sim_projectedMonths sim = Fin 74
      /\ length (sim_monthlyProjections sim) = 74%nat
      /\ exists before final,
           nth_error (sim_monthlyProjections sim) 72 = Some before
           /\ nth_error (sim_monthlyProjections sim) 73 = Some final
           /\ mip_month final = 74%Z
           /\ mip_totalValue final = 5003537
           /\ 5000000 <= mip_totalValue final
           /\ mip_month before = 73%Z
           /\ mip_totalValue before = 4932983
           /\ mip_totalValue before < 5000000).
Proof.
  split.
  - intros c t m r sim points value.
    exact (trajectory_shape c t m r).
  - intros sim.
    destruct goal_scenario_length as [Hpm Hlen]. fold sim in Hpm, Hlen.
    split; [exact Hpm |]. split; [exact Hlen |].
    destruct (trajectory_shape 500000 5000000 50000 (5 # 100))
      as (_ & Hpts & _ & _).
    fold sim in Hpts.
    destruct (nth_error (sim_monthlyProjections sim) 72) as [before |] eqn:H72;
      [| apply nth_error_None in H72; lia].
    destruct (nth_error (sim_monthlyProjections sim) 73) as [final |] eqn:H73;
      [| apply nth_error_None in H73; lia].
    exists before, final.
    destruct (Hpts _ _ H72) as [Hm72 Hv72].
    destruct (Hpts _ _ H73) as [Hm73 Hv73].
    assert (H74 : Math_round (replay 74%nat ((5 # 100) / 12) 50000 500000)
                  = 5003537) by (vm_compute; reflexivity).
    assert (H73' : Math_round (replay 73%nat ((5 # 100) / 12) 50000 500000)
                   = 4932983) by (vm_compute; reflexivity).
    rewrite H74 in Hv73. rewrite H73' in Hv72.
    rewrite Hv72, Hv73.
    repeat split; try assumption; try reflexivity; try discriminate.
Qed.

(** ** The opportunity analysis *)

Section Opportunity.

Variables initialAmount monthlyInvestment monthlyReturn : Q.

(** The loop emits one point per month, whatever the values are. *)
Lemma opportunity_for_shape (count : nat) :
  forall (month : Z) (st : Growth) points final,
    opportunity_for count month initialAmount monthlyInvestment monthlyReturn st
    = (points, final) ->
    let value k :=
      replay k monthlyReturn monthlyInvestment (g_investmentValue st) in
    length points = count
    /\ g_investmentValue final = value count
    /\ forall j p, nth_error points j = Some p ->
         mop_month p = (month + Z.of_nat j)%Z
         /\ mop_investmentContribution p = monthlyInvestment
         /\ mop_investmentValue p = Math_round (value (S j))
         /\ mop_netWorth p = mop_investmentValue p
         /\ mop_loanBalance p = None
         /\ mop_loanPayment p = None.
Proof.
  induction count as [| count IH]; intros month st points final H value.
  - cbn in H. injection H as <- <-.
    split; [reflexivity |]. split; [reflexivity |].
    intros [| j] p Hp; discriminate.
  - cbn [opportunity_for] in H. cbv zeta in H.
    match type of H with
    | context [opportunity_for count ?m _ _ _ ?s] =>
        destruct (opportunity_for count m initialAmount monthlyInvestment
                    monthlyReturn s) as [ps f] eqn:Hrec
    end.
    injection H as <- <-.
    apply IH in Hrec. cbn [g_investmentValue] in Hrec.
    destruct Hrec as (Hlen & Hfin & Hpts).
    split; [cbn [length]; now rewrite Hlen |]. split; [exact Hfin |].
    intros [| j] p Hp.
    + injection Hp as <-. cbn.
      split; [lia |]. repeat split; reflexivity.
    + cbn [nth_error] in Hp.
      destruct (Hpts j p Hp) as (Hm & Hrest).
      split; [lia | exact Hrest].
Qed.

End Opportunity.

Lemma opportunity_projections
    (initialAmount monthlyInvestment annualReturn : Q) (months : Z) :
  oa_monthlyProjections
    (calculateOpportunityAnalysis initialAmount monthlyInvestment annualReturn
       months)
  = fst (opportunity_for (Z.to_nat months) 1 initialAmount monthlyInvestment
           (annualReturn / 12)
           {| g_totalInvested := initialAmount;
              g_investmentValue := initialAmount;
              g_cumulativeMonthlyInvestment := 0 |}).
Proof.
  unfold calculateOpportunityAnalysis.
  now destruct (opportunity_for _ _ _ _ _ _).
Qed.

(** C10.  For every whole [months >= 0], [calculateOpportunityAnalysis]
    returns exactly [months] points, numbered 1 to [months], with no
    early exit on any value; and each point's [netWorth] equals its
    [investmentValue], the rounded running value. *)
Theorem opportunity_points
    (initialAmount monthlyInvestment annualReturn : Q) (months : Z) :
  (0 <= months)%Z ->
  let analysis :=
    calculateOpportunityAnalysis initialAmount monthlyInvestment annualReturn
      months in
  Z.of_nat (length (oa_monthlyProjections analysis)) = months
  /\ forall j p, nth_error (oa_monthlyProjections analysis) j = Some p ->
       mop_month p = Z.of_nat (S j)
       /\ mop_investmentValue p
          = Math_round (replay (S j) (annualReturn / 12) monthlyInvestment
                          initialAmount)
       /\ mop_netWorth p = mop_investmentValue p.
Proof.
  intros Hmonths analysis. unfold analysis.
  rewrite opportunity_projections.
  destruct (opportunity_for (Z.to_nat months) 1 initialAmount
              monthlyInvestment (annualReturn / 12) _) as [points final]
    eqn:Hloop.
  apply opportunity_for_shape in Hloop. cbn [g_investmentValue] in Hloop.
  destruct Hloop as (Hlen & _ & Hpts). cbn [fst].
  split; [rewrite Hlen; now apply Z2Nat.id |].
  intros j p Hp. destruct (Hpts j p Hp) as (Hm & _ & Hv & Hn & _).
  split; [lia |]. split; assumption.
Qed.

Lemma opportunity_points_witness :
  let analysis := calculateOpportunityAnalysis 1000 100 (6 # 100) 3 in
  Z.of_nat (length (oa_monthlyProjections analysis)) = 3%Z
  /\ forall j p, nth_error (oa_monthlyProjections analysis) j = Some p ->
       mop_month p = Z.of_nat (S j)
       /\ mop_investmentValue p
          = Math_round (replay (S j) ((6 # 100) / 12) 100 1000)
       /\ mop_netWorth p = mop_investmentValue p.
Proof.
  apply (opportunity_points 1000 100 (6 # 100) 3). lia.
Defined.

(** ** The loan scenario never throws *)

Lemma enhance_for_total (projections : list MonthlyOpportunityProjection)
    (loanInterestRate : Q) (loanTermMonths : Z) (monthlyPayment : Q)
    (count : nat) :
  forall (month : Z) (balance : Q),
    (1 <= month)%Z ->
    (Z.to_nat (month - 1) + count <= length projections)%nat ->
    exists points,
      enhance_for count month projections loanInterestRate loanTermMonths
        monthlyPayment balance = Some points
      /\ length points = count.
Proof.
  induction count as [| count IH]; intros month balance Hmonth Hlen.
  - exists []. split; reflexivity.
  - cbn [enhance_for].
    destruct (nth_error projections (Z.to_nat (month - 1))) as [original |]
      eqn:Hnth; [| apply nth_error_None in Hnth; lia].
    cbv zeta.
    match goal with
    | |- context [enhance_for count ?m _ _ _ _ ?b] =>
        destruct (IH m b) as (points & Hpoints & Hcount); [lia | |]
    end.
    + replace (month + 1 - 1)%Z with (month - 1 + 1)%Z by lia.
      rewrite Z2Nat.inj_add by lia. change (Z.to_nat 1) with 1%nat. lia.
    + rewrite Hpoints. eexists. split; [reflexivity |].
      cbn [length]. now rewrite Hcount.
Qed.

(** [calculateLoanScenario] always returns, and these are the fields the
    comparison and the sweep read. *)
Lemma calculateLoanScenario_returns
    (productPrice currentSavings downPaymentPercentage loanInterestRate : Q)
    (loanTermMonths : Z)
    (investmentReturn projectedYears additionalMonthlyInvestment : Q) :
  exists scenario,
    calculateLoanScenario productPrice currentSavings downPaymentPercentage
      loanInterestRate loanTermMonths investmentReturn projectedYears
      additionalMonthlyInvestment = Some scenario
    /\ loan_totalCost scenario
       = Math_round
           (snd (loan_costs productPrice downPaymentPercentage
                   loanInterestRate loanTermMonths)).
Proof.
  unfold calculateLoanScenario.
  destruct (loan_costs productPrice downPaymentPercentage loanInterestRate
              loanTermMonths)
    as [[[[downPayment loanAmount] monthlyPayment] totalInterest] totalCost].
  cbv zeta.
  match goal with
  | |- context [enhance_for ?c 1 ?ps ?r ?t ?p ?b] =>
      destruct (enhance_for_total ps r t p c 1 b) as (points & Hpoints & _)
  end.
  - lia.
  - rewrite opportunity_projections.
    match goal with
    | |- context [opportunity_for ?c ?m ?i ?mi ?mr ?s] =>
        destruct (opportunity_for c m i mi mr s) as [ps final] eqn:Hloop
    end.
    apply opportunity_for_shape in Hloop. destruct Hloop as (Hlen & _).
    cbn [fst]. rewrite Hlen. cbn. lia.
  - rewrite Hpoints. eexists. split; reflexivity.
Qed.

(** ** The recommendation *)

(** C3.  [calculatePurchaseSimulation] recommends [lump_sum] exactly
    when [lumpSum.finalAssets - (loan.finalAssets - (loan.totalCost -
    productPrice))] is above 0, and [loan] when it is zero or negative;
    [totalDifference] is the absolute value of that difference, rounded
    to the nearest unit. *)
Theorem recommendation_rule
    (productPrice currentSavings : Q) (loanTerms : LoanTerms)
    (investmentReturn projectedYears monthlyInvestmentCapacity : Q) :
  exists simulation,
    calculatePurchaseSimulation productPrice currentSavings loanTerms
      investmentReturn projectedYears monthlyInvestmentCapacity
    = Some simulation
    /\ ps_lumpSumScenario simulation
       = calculateLumpSumScenario productPrice currentSavings investmentReturn
           projectedYears monthlyInvestmentCapacity
    /\ Some (ps_loanScenario simulation)
       = calculateLoanScenario productPrice currentSavings
           (downPaymentPercentage loanTerms) (interestRate loanTerms)
           (termMonths loanTerms) investmentReturn projectedYears
           monthlyInvestmentCapacity
    /\ let difference :=
         lump_finalAssets (ps_lumpSumScenario simulation)
         - (loan_finalAssets (ps_loanScenario simulation)
            - (loan_totalCost (ps_loanScenario simulation) - productPrice)) in
       ((0 < difference /\ ps_recommendation simulation = lump_sum)
        \/ (difference <= 0 /\ ps_recommendation simulation = loan))
       /\ ps_totalDifference simulation = Math_round (Qabs difference).
Proof.
  unfold calculatePurchaseSimulation.
  destruct (calculateLoanScenario_returns productPrice currentSavings
              (downPaymentPercentage loanTerms) (interestRate loanTerms)
              (termMonths loanTerms) investmentReturn projectedYears
              monthlyInvestmentCapacity) as (loanScenario & Hloan & _).
  rewrite Hloan. cbv zeta. eexists. split; [reflexivity |].
  cbn [ps_lumpSumScenario ps_loanScenario ps_recommendation
       ps_totalDifference].
  split; [reflexivity |]. split; [reflexivity |]. split; [| reflexivity].
  match goal with
  | |- context [ltb 0 ?d] => case_ltb 0 d
  end.
  - left. split; [exact Hlt | reflexivity].
  - right. split; [exact Hlt | reflexivity].
Qed.

(** ** The level payment and the return on investment *)

(** C7, as the code has it.  At a zero rate
    [calculateMonthlyLoanPayment(principal, 0, n)] is [principal / n] for
    every [n >= 1]; [calculateMonthlyLoanPayment(1200, 0, 12)] is 100;
    [calculateMonthlyLoanPayment(1000, 0.12, 12)] is within 1e-6 of
    88.84878867834166, the value the repository's test compares with;
    [calculateROI(1000, 1000, 1000)] is 0 and
    [calculateROI(1000, 1100, 1000)] is 10. *)
Theorem level_payment_and_roi :
  (forall (principal : Q) (n : Z),
     (1 <= n)%Z ->
     calculateMonthlyLoanPayment principal 0 n == principal / inject_Z n)
  /\ calculateMonthlyLoanPayment 1200 0 12 == 100
  /\ Qabs (calculateMonthlyLoanPayment 1000 (12 # 100) 12
           - (8884878867834166 # 100000000000000)) < 1 # 1000000
  /\ calculateROI 1000 1000 1000 == 0
  /\ calculateROI 1000 1100 1000 == 10.
Proof.
  split; [| split; [| split; [| split]]].
  - intros principal n _. reflexivity.
  - reflexivity.
  - vm_compute. reflexivity.
  - reflexivity.
  - reflexivity.
Qed.

Lemma level_payment_and_roi_witness :
  calculateMonthlyLoanPayment 900 0 6 == 900 / inject_Z 6.
Proof.
  apply (proj1 level_payment_and_roi 900 6%Z). lia.
Defined.

(** C7 as stated fails in one place: the payment on 1000 at 12% over 12
    months is 88.848788..., more than 1e-5 away from 88.8488. *)
Lemma level_payment_not_rounded_constant :
  ~ Qabs (calculateMonthlyLoanPayment 1000 (12 # 100) 12 - (888488 # 10000))
    <= 1 # 1000000.
Proof.
  vm_compute. intros H. now apply H.
Qed.

(** ** Level-payment amortization *)

Section Annuity.

(** The periodic rate and the growth factor per period. *)
Variable r : Q.
Hypothesis r_positive : 0 < r.

Let f : Q := 1 + r.

Lemma factor_pow_S (k : nat) : f ^ Z.of_nat (S k) == f * f ^ Z.of_nat k.
Proof.
  rewrite Nat2Z.inj_succ. unfold Z.succ.
  rewrite Qpower_plus by (unfold f; lra).
  rewrite Qpower_1_r. ring.
Qed.

Lemma factor_pow_ge_1 (k : nat) : 1 <= f ^ Z.of_nat k.
Proof. apply Qpower_1_le; [unfold f; lra | lia]. Qed.

Lemma factor_pow_gt_1 (k : nat) : 1 < f ^ Z.of_nat (S k).
Proof. apply Qpower_1_lt; [unfold f; lra | lia]. Qed.

(** [f^k - 1 <= k * r * f^k]: interest over [k] periods is at most [k]
    times the interest on the final amount. *)
Lemma interest_bound (k : nat) :
  f ^ Z.of_nat k - 1 <= inject_Z (Z.of_nat k) * r * f ^ Z.of_nat k.
Proof.
  induction k as [| k IH].
  - change (f ^ Z.of_nat 0) with 1. change (inject_Z (Z.of_nat 0)) with 0.
    lra.
  - rewrite factor_pow_S.
    rewrite Nat2Z.inj_succ. unfold Z.succ. rewrite inject_Z_plus.
    change (inject_Z 1) with 1.
    pose proof (factor_pow_ge_1 k) as HF.
    set (F := f ^ Z.of_nat k) in *.
    set (K := inject_Z (Z.of_nat k)) in *.
    assert (HK : 0 <= K).
    { unfold K. change 0 with (inject_Z 0). rewrite <- Zle_Qle. lia. }
    assert (H1 : 0 <= r * r * F).
    { apply Qmult_le_0_compat; [apply Qmult_le_0_compat |]; lra. }
    assert (H2 : 0 <= K * (r * r * F)) by (apply Qmult_le_0_compat; lra).
    unfold f. lra.
Qed.

(** The level payment on [principal] over [n >= 1] periods. *)
Let payment (principal : Q) (n : nat) : Q :=
  principal * (r * f ^ Z.of_nat n) / (f ^ Z.of_nat n - 1).

(** Paying it [n] times repays at least the principal. *)
Lemma payments_cover_principal (principal : Q) (k : nat) :
  0 <= principal ->
  principal <= payment principal (S k) * inject_Z (Z.of_nat (S k)).
Proof.
  intros Hp. unfold payment.
  pose proof (factor_pow_gt_1 k) as HF.
  pose proof (interest_bound (S k)) as Hb.
  set (F := f ^ Z.of_nat (S k)) in *.
  set (N := inject_Z (Z.of_nat (S k))) in *.
  assert (E : principal * (r * F) / (F - 1) * N
              == principal * (N * r * F) / (F - 1)) by (field; lra).
  rewrite E. apply Qle_shift_div_l; [lra |].
  rewrite !(Qmult_comm principal). apply Qmult_le_compat_r; assumption.
Qed.

End Annuity.

Lemma whole_months_nonzero (n : Z) : (1 <= n)%Z -> ~ inject_Z n == 0.
Proof.
  intros Hn. rewrite Zle_Qle in Hn. change (inject_Z 1) with 1 in Hn. lra.
Qed.

(** What the loan repays, against what was borrowed. *)
Lemma loan_repays_principal (loanAmount annualRate : Q) (months : Z) :
  0 <= loanAmount -> 0 <= annualRate -> (1 <= months)%Z ->
  loanAmount
  <= calculateMonthlyLoanPayment loanAmount annualRate months
     * inject_Z months.
Proof.
  intros HL Hrate Hn. unfold calculateMonthlyLoanPayment.
  pose proof (whole_months_nonzero months Hn) as HN.
  case_eqb annualRate 0.
  - assert (E : loanAmount / inject_Z months * inject_Z months == loanAmount)
      by (field; exact HN).
    rewrite E. apply Qle_refl.
  - cbv zeta. unfold Math_pow.
    pose proof (monthly_rate annualRate) as Hm.
    assert (Hr : 0 < annualRate / 12) by lra.
    replace months with (Z.of_nat (S (Z.to_nat (months - 1)))) by lia.
    exact (payments_cover_principal (annualRate / 12) Hr loanAmount
             (Z.to_nat (months - 1)) HL).
Qed.

Lemma loan_repays_exactly (loanAmount annualRate : Q) (months : Z) :
  annualRate == 0 -> (1 <= months)%Z ->
  calculateMonthlyLoanPayment loanAmount annualRate months * inject_Z months
  == loanAmount.
Proof.
  intros Hrate Hn. unfold calculateMonthlyLoanPayment.
  apply eqb_eq in Hrate. rewrite Hrate.
  field. now apply whole_months_nonzero.
Qed.

Lemma loan_costs_totalCost
    (productPrice downPaymentPercentage loanInterestRate : Q)
    (loanTermMonths : Z) :
  let loanAmount := productPrice - productPrice * (downPaymentPercentage / 100) in
  snd (loan_costs productPrice downPaymentPercentage loanInterestRate
         loanTermMonths)
  = productPrice
    + (calculateMonthlyLoanPayment loanAmount loanInterestRate loanTermMonths
       * inject_Z loanTermMonths - loanAmount).
Proof. reflexivity. Qed.

(** C6, as the code has it.  For [productPrice > 0], a down payment
    percentage in [0, 100], [loanTermMonths >= 1] and a rate that is not
    negative, the cost [productPrice + totalInterest] that
    [calculateLoanScenario] computes is at least [productPrice], and
    equals it when the rate is 0.  The scenario's [totalCost] field is
    that cost rounded to the nearest unit, so the field satisfies the
    same two relations whenever [productPrice] is a whole number. *)
Theorem loan_total_cost
    (productPrice currentSavings downPaymentPercentage loanInterestRate : Q)
    (loanTermMonths : Z)
    (investmentReturn projectedYears additionalMonthlyInvestment : Q) :
  0 < productPrice ->
  0 <= downPaymentPercentage -> downPaymentPercentage <= 100 ->
  (1 <= loanTermMonths)%Z ->
  0 <= loanInterestRate ->
  let totalCost :=
    snd (loan_costs productPrice downPaymentPercentage loanInterestRate
           loanTermMonths) in
  productPrice <= totalCost
  /\ (loanInterestRate == 0 -> totalCost == productPrice)
  /\ exists scenario,
       calculateLoanScenario productPrice currentSavings
         downPaymentPercentage loanInterestRate loanTermMonths
         investmentReturn projectedYears additionalMonthlyInvestment
       = Some scenario
       /\ loan_totalCost scenario = Math_round totalCost
       /\ forall whole : Z,
            productPrice == inject_Z whole ->
            productPrice <= loan_totalCost scenario
            /\ (loanInterestRate == 0 ->
                loan_totalCost scenario == productPrice).
Proof.
  intros Hprice Hdp0 Hdp100 Hterm Hrate totalCost.
  unfold totalCost. rewrite loan_costs_totalCost. cbv zeta.
  set (loanAmount := productPrice - productPrice * (downPaymentPercentage / 100)).
  assert (HL : 0 <= loanAmount).
  { unfold loanAmount.
    assert (E : productPrice - productPrice * (downPaymentPercentage / 100)
                == productPrice * ((100 - downPaymentPercentage) * (1 # 100)))
      by field.
    rewrite E. apply Qmult_le_0_compat; lra. }
  pose proof (loan_repays_principal loanAmount loanInterestRate loanTermMonths
                HL Hrate Hterm) as Hcover.
  set (repaid := calculateMonthlyLoanPayment loanAmount loanInterestRate
                   loanTermMonths * inject_Z loanTermMonths) in *.
  assert (Hge : productPrice <= productPrice + (repaid - loanAmount)) by lra.
  assert (Heq : loanInterestRate == 0 ->
                productPrice + (repaid - loanAmount) == productPrice).
  { intros H0.
    pose proof (loan_repays_exactly loanAmount loanInterestRate loanTermMonths
                  H0 Hterm) as Hexact.
    fold repaid in Hexact. lra. }
  split; [exact Hge |]. split; [exact Heq |].
  destruct (calculateLoanScenario_returns productPrice currentSavings
              downPaymentPercentage loanInterestRate loanTermMonths
              investmentReturn projectedYears additionalMonthlyInvestment)
    as (scenario & Hsome & Hfield).
  rewrite loan_costs_totalCost in Hfield. cbv zeta in Hfield.
  fold loanAmount in Hfield. fold repaid in Hfield.
  exists scenario. split; [exact Hsome |]. split; [exact Hfield |].
  intros whole Hwhole. rewrite Hfield.
  assert (Hprice_round : Math_round productPrice == productPrice).
  { rewrite (Math_round_compat _ _ Hwhole), Math_round_Z.
    symmetry. exact Hwhole. }
  split.
  - rewrite <- Hprice_round at 1. now apply Math_round_mono.
  - intros H0. rewrite (Math_round_compat _ _ (Heq H0)). exact Hprice_round.
Qed.

Lemma loan_total_cost_witness :
  let totalCost := snd (loan_costs 3000 20 (6 # 100) 24) in
  3000 <= totalCost
  /\ (6 # 100 == 0 -> totalCost == 3000)
  /\ exists scenario,
       calculateLoanScenario 3000 1000 20 (6 # 100) 24 (5 # 100) 2 200
       = Some scenario
       /\ loan_totalCost scenario = Math_round totalCost
       /\ forall whole : Z,
            3000 == inject_Z whole ->
            3000 <= loan_totalCost scenario
            /\ (6 # 100 == 0 -> loan_totalCost scenario == 3000).
Proof.
  apply (loan_total_cost 3000 1000 20 (6 # 100) 24 (5 # 100) 2 200);
    try (vm_compute; discriminate); try reflexivity.
Defined.

(** C6 as stated fails for the [totalCost] the scenario reports when the
    price is not a whole number: a price of 100.4, fully financed over
    one month, reports 100 at a rate of 0, which is not the price, and
    100 at a rate of 0.12%, which is below the price. *)
Lemma loan_total_cost_is_rounded :
  option_map loan_totalCost
    (calculateLoanScenario (1004 # 10) 1000 0 0 1 (5 # 100) 1 50)
  = Some 100
  /\ ~ 100 == 1004 # 10
  /\ option_map loan_totalCost
       (calculateLoanScenario (1004 # 10) 1000 0 (12 # 10000) 1 (5 # 100) 1 50)
     = Some 100
  /\ ~ 1004 # 10 <= 100.
Proof.
  split; [vm_compute; reflexivity |].
  split; [discriminate |].
  split; [vm_compute; reflexivity |].
  intros H. now apply H.
Qed.

(** ** The order on numbers that are not NaN *)









(** ** The optimization sweep *)


Lemma calculateROIForDownPayment_finite
    (productPrice currentSavings downPaymentPercentage loanInterestRate : Q)
    (loanTermMonths : Z)
    (investmentReturn projectedYears monthlyInvestmentCapacity : Q) :
  exists roi scenario,
    calculateROIForDownPayment productPrice currentSavings
      downPaymentPercentage loanInterestRate loanTermMonths investmentReturn
      projectedYears monthlyInvestmentCapacity
    = (Fin roi, Some scenario).
Proof.
  unfold calculateROIForDownPayment.
  destruct (calculateLoanScenario_returns productPrice currentSavings
              downPaymentPercentage loanInterestRate loanTermMonths
              investmentReturn projectedYears monthlyInvestmentCapacity)
    as (scenario & -> & _).
  now eexists; eexists.
Qed.

Section Sweep.

Variables (productPrice currentSavings loanInterestRate : Q)
          (loanTermMonths : Z)
          (investmentReturn projectedYears monthlyInvestmentCapacity : Q).

(** The feasibility test of the sweep at percentage [dp]. *)
Let feasible (dp : Z) : bool :=
  leb (productPrice * (inject_Z dp / 100)) currentSavings.

(** The loop pushes one entry per percentage, in ascending order, and its
    final [(maxROI, optimalDownPayment)] is the running maximum of the
    entries. *)
Lemma sweep_for_entries (count : nat) :
  forall (dp : Z) (best : number) (optimal : Z) entries final,
    sweep_for count dp productPrice currentSavings loanInterestRate
      loanTermMonths investmentReturn projectedYears
      monthlyInvestmentCapacity best optimal = (entries, final) ->
    final = fold_left keep_best entries (best, optimal)
    /\ length entries = count
    /\ forall j entry, nth_error entries j = Some entry ->
         roi_downPayment entry = (dp + Z.of_nat j)%Z
         /\ roi_feasible entry = feasible (dp + Z.of_nat j)
         /\ finite_when_feasible entry.
Proof.
  induction count as [| count IH]; intros dp best optimal entries final H.
  - cbn in H. injection H as <- <-.
    split; [reflexivity |]. split; [reflexivity |].
    intros [| j] entry Hj; discriminate.
  - cbn [sweep_for] in H. cbv zeta beta in H. fold (feasible dp) in H.
    destruct (feasible dp) eqn:Hfeas.
    + destruct (calculateROIForDownPayment_finite productPrice currentSavings
                  (inject_Z dp) loanInterestRate loanTermMonths
                  investmentReturn projectedYears monthlyInvestmentCapacity)
        as (roi & scenario & Hroi).
      rewrite Hroi in H.
      set (entry0 :=
             {| roi_downPayment := dp;
                roi_roi := Fin roi;
                roi_finalAssets := field_or_zero (Some scenario) loan_finalAssets;
                roi_totalCost := field_or_zero (Some scenario) loan_totalCost;
                roi_monthlyPayment :=
                  field_or_zero (Some scenario) loan_monthlyPayment;
                roi_feasible := true |}) in *.
      assert (Hstep : forall best' optimal' rest final',
                 sweep_for count (dp + 1)%Z productPrice currentSavings
                   loanInterestRate loanTermMonths investmentReturn
                   projectedYears monthlyInvestmentCapacity best' optimal'
                 = (rest, final') ->
                 keep_best (best, optimal) entry0 = (best', optimal') ->
                 final' = fold_left keep_best (entry0 :: rest) (best, optimal)
                 /\ length (entry0 :: rest) = S count
                 /\ forall j entry, nth_error (entry0 :: rest) j = Some entry ->
                      roi_downPayment entry = (dp + Z.of_nat j)%Z
                      /\ roi_feasible entry = feasible (dp + Z.of_nat j)
                      /\ finite_when_feasible entry).
      { intros best' optimal' rest final' Hrec Hk.
        apply IH in Hrec. destruct Hrec as (Hfold & Hlen & Hnth).
        cbn [fold_left length]. rewrite Hk.
        split; [exact Hfold |]. split; [now rewrite Hlen |].
        intros [| j] entry Hj.
        - injection Hj as <-. cbn [roi_downPayment roi_feasible].
          rewrite Z.add_0_r. split; [reflexivity |].
          split; [now rewrite Hfeas |].
          intros _. now exists roi.
        - cbn [nth_error] in Hj. destruct (Hnth j entry Hj) as (Hd & Hf & Hq).
          replace (dp + Z.of_nat (S j))%Z with (dp + 1 + Z.of_nat j)%Z by lia.
          now repeat split. }
      destruct (number_gtb (Fin roi) best) eqn:Hgt.
      * destruct (sweep_for count (dp + 1)%Z _ _ _ _ _ _ _ (Fin roi) dp)
          as [rest final'] eqn:Hrec.
        injection H as <- <-.
        apply (Hstep _ _ _ _ Hrec).
        unfold keep_best. cbn [roi_feasible roi_roi roi_downPayment entry0 fst].
        now rewrite Hgt.
      * destruct (sweep_for count (dp + 1)%Z _ _ _ _ _ _ _ best optimal)
          as [rest final'] eqn:Hrec.
        injection H as <- <-.
        apply (Hstep _ _ _ _ Hrec).
        unfold keep_best. cbn [roi_feasible roi_roi roi_downPayment entry0 fst].
        now rewrite Hgt.
    + destruct (sweep_for count (dp + 1)%Z _ _ _ _ _ _ _ best optimal)
        as [rest final'] eqn:Hrec.
      injection H as <- <-.
      apply IH in Hrec. destruct Hrec as (Hfold & Hlen & Hnth).
      cbn [fold_left length].
      split; [exact Hfold |]. split; [now rewrite Hlen |].
      intros [| j] entry Hj.
      * injection Hj as <-. cbn [roi_downPayment roi_feasible].
        rewrite Z.add_0_r. split; [reflexivity |].
        split; [now rewrite Hfeas |].
        intros Hf. discriminate.
      * cbn [nth_error] in Hj. destruct (Hnth j entry Hj) as (Hd & Hf & Hq).
        replace (dp + Z.of_nat (S j))%Z with (dp + 1 + Z.of_nat j)%Z by lia.
        now repeat split.
Qed.

End Sweep.



(** ** The amortization schedule *)

Lemma toFixed2_nonneg_mono (x y : Q) :
  0 <= x -> x <= y -> toFixed2 x <= toFixed2 y.
Proof.
  intros Hx Hxy. unfold toFixed2.
  assert (Hx0 : ltb x 0 = false) by (apply ltb_ge; exact Hx).
  assert (Hy0 : ltb y 0 = false) by (apply ltb_ge; lra).
  rewrite Hx0, Hy0.
  apply Qmult_le_compat_r; [| discriminate].
  rewrite <- Zle_Qle. apply Qfloor_resp_le. lra.
Qed.

Lemma toFixed2_zero (x : Q) : x == 0 -> toFixed2 x == 0.
Proof.
  intros Hx. unfold toFixed2.
  assert (Hx0 : ltb x 0 = false) by (apply ltb_ge; lra).
  rewrite Hx0.
  assert (E : Qfloor (x * 100 + (1 # 2)) = 0%Z).
  { rewrite Hx. reflexivity. }
  rewrite E. reflexivity.
Qed.

Section Schedule.

Variables monthlyPayment monthlyRate : Q.

Lemma balance_after_S (k : nat) :
  forall balance : Q,
    balance_after (S k) monthlyPayment monthlyRate balance
    = balance_after k monthlyPayment monthlyRate balance
      - (monthlyPayment
         - balance_after k monthlyPayment monthlyRate balance * monthlyRate).
Proof.
  induction k as [| k IH]; intros balance; [reflexivity |].
  change (balance_after (S (S k)) monthlyPayment monthlyRate balance)
    with (balance_after (S k) monthlyPayment monthlyRate
            (balance - (monthlyPayment - balance * monthlyRate))).
  rewrite IH. reflexivity.
Qed.

(** One row per month, each with the same reported payment and the
    clamped, rounded balance after that month's payment. *)
Lemma schedule_for_shape (count : nat) :
  forall (month : Z) (balance totalInterest : Q) rows total,
    schedule_for count month monthlyPayment monthlyRate balance totalInterest
    = (rows, total) ->
    length rows = count
    /\ forall j row, nth_error rows j = Some row ->
         pay_month row = (month + Z.of_nat j)%Z
         /\ pay_payment row = toFixed2 monthlyPayment
         /\ pay_remainingBalance row
            = toFixed2
                (Math_max 0
                   (balance_after (S j) monthlyPayment monthlyRate balance)).
Proof.
  induction count as [| count IH]; intros month balance totalInterest rows total H.
  - cbn in H. injection H as <- <-. split; [reflexivity |].
    intros [| j] row Hj; discriminate.
  - cbn [schedule_for] in H. cbv zeta in H.
    match type of H with
    | context [schedule_for count ?m _ _ ?b ?t] =>
        destruct (schedule_for count m monthlyPayment monthlyRate b t)
          as [rest total'] eqn:Hrec
    end.
    injection H as <- <-.
    apply IH in Hrec. destruct Hrec as (Hlen & Hrows).
    split; [cbn [length]; now rewrite Hlen |].
    intros [| j] row Hj.
    + injection Hj as <-. cbn [pay_month pay_payment pay_remainingBalance].
      split; [lia |]. split; reflexivity.
    + cbn [nth_error] in Hj. destruct (Hrows j row Hj) as (Hm & Hp & Hb).
      split; [lia |]. split; [exact Hp | exact Hb].
Qed.

End Schedule.

Section Amortization.

(** A loan of [principal] at the periodic rate [r] over [n + 1] periods,
    repaid with the level payment. *)
Variables (principal r : Q) (n : nat).
Hypothesis principal_positive : 0 < principal.
Hypothesis r_positive : 0 < r.

Let f : Q := 1 + r.
Let F : Q := f ^ Z.of_nat (S n).
Let payment : Q := principal * (r * F) / (F - 1).

Lemma full_factor_gt_1 : 1 < F.
Proof. apply factor_pow_gt_1. exact r_positive. Qed.

(** The balance after [k] payments, in closed form. *)
Lemma balance_closed_form (k : nat) :
  balance_after k payment r principal
  == principal * (F - f ^ Z.of_nat k) / (F - 1).
Proof.
  pose proof full_factor_gt_1 as HF.
  induction k as [| k IH].
  - change (balance_after 0 payment r principal) with principal.
    change (f ^ Z.of_nat 0) with 1. field. lra.
  - rewrite balance_after_S, IH.
    pose proof (factor_pow_S r r_positive k) as HS. cbv zeta in HS.
    fold f in HS. rewrite HS.
    set (g := f ^ Z.of_nat k).
    assert (Hf : f == 1 + r) by reflexivity. rewrite Hf.
    unfold payment. field. lra.
Qed.

Lemma balance_decreases (k : nat) :
  balance_after (S k) payment r principal
  <= balance_after k payment r principal.
Proof.
  pose proof full_factor_gt_1 as HF.
  rewrite !balance_closed_form.
  apply Qmult_le_compat_r; [| apply Qlt_le_weak, Qinv_lt_0_compat; lra].
  rewrite !(Qmult_comm principal).
  apply Qmult_le_compat_r; [| lra].
  assert (Hgrow : f ^ Z.of_nat k <= f ^ Z.of_nat (S k)).
  { apply Qpower_le_compat_l; [lia | unfold f; lra]. }
  lra.
Qed.

Lemma balance_repaid : balance_after (S n) payment r principal == 0.
Proof.
  pose proof full_factor_gt_1 as HF.
  rewrite balance_closed_form. fold F. field. lra.
Qed.

End Amortization.


(** C4.  For [principal > 0], [rate > 0] and a whole number of [years >=
    1], the schedule of [calculateLoanDetails] has [years * 12] rows,
    numbered from 1; every row reports the same payment; the reported
    [remainingBalance] is never negative and never increases from one
    row to the next; and at the final period [years * 12] it is 0. *)
Theorem amortization_schedule (principal rate : Q) (years : Z) :
  0 < principal -> 0 < rate -> (1 <= years)%Z ->
  let details := calculateLoanDetails principal rate years in
  let schedule := lcr_paymentSchedule details in
  Z.of_nat (length schedule) = (years * 12)%Z
  /\ (forall j row, nth_error schedule j = Some row ->
        pay_month row = Z.of_nat (S j)
        /\ pay_payment row = lcr_monthlyPayment details
        /\ 0 <= pay_remainingBalance row)
  /\ (forall j row next,
        nth_error schedule j = Some row ->
        nth_error schedule (S j) = Some next ->
        pay_remainingBalance next <= pay_remainingBalance row)
  /\ exists final,
       nth_error schedule (Z.to_nat (years * 12 - 1)) = Some final
       /\ pay_month final = (years * 12)%Z
       /\ pay_remainingBalance final == 0.
Proof.
  intros Hprincipal Hrate Hyears details schedule.
  pose proof (monthly_rate rate) as Hmonthly.
  assert (Hr : 0 < rate / 12) by lra.
  set (n := Z.to_nat (years * 12 - 1)).
  assert (Hn : (years * 12)%Z = Z.of_nat (S n)) by (unfold n; lia).
  assert (Hpayment :
            calculateMonthlyPayment principal rate years
            = principal * (rate / 12 * (1 + rate / 12) ^ Z.of_nat (S n))
              / ((1 + rate / 12) ^ Z.of_nat (S n) - 1)).
  { unfold calculateMonthlyPayment, Math_pow. cbv zeta.
    assert (H0 : eqb rate 0 = false) by (apply eqb_neq; lra).
    now rewrite H0, Hn. }
  unfold calculateLoanDetails in details.
  destruct (schedule_for (Z.to_nat (years * 12)) 1
              (calculateMonthlyPayment principal rate years) (rate / 12)
              principal 0) as [rows total] eqn:Hloop.
  subst details schedule. cbn [lcr_paymentSchedule lcr_monthlyPayment].
  apply schedule_for_shape in Hloop. destruct Hloop as (Hlen & Hrows).
  rewrite Hpayment in Hrows |- *.
  set (payment := principal * (rate / 12 * (1 + rate / 12) ^ Z.of_nat (S n))
                  / ((1 + rate / 12) ^ Z.of_nat (S n) - 1)) in *.
  split; [rewrite Hlen; lia |]. split; [| split].
  - intros j row Hj. destruct (Hrows j row Hj) as (Hm & Hp & Hb).
    split; [lia |]. split; [exact Hp |].
    rewrite Hb. apply Qle_trans with (toFixed2 0); [discriminate |].
    apply toFixed2_nonneg_mono; [apply Qle_refl | apply Math_max_l].
  - intros j row next Hj Hnext.
    destruct (Hrows j row Hj) as (_ & _ & ->).
    destruct (Hrows (S j) next Hnext) as (_ & _ & ->).
    apply toFixed2_nonneg_mono; [apply Math_max_l |].
    apply Math_max_mono.
    exact (balance_decreases principal (rate / 12) n Hprincipal Hr (S j)).
  - destruct (nth_error rows n) as [final |] eqn:Hfinal;
      [| apply nth_error_None in Hfinal; lia].
    exists final. destruct (Hrows n final Hfinal) as (Hm & _ & Hb).
    split; [reflexivity |]. split; [lia |].
    rewrite Hb. apply toFixed2_zero.
    pose proof (balance_repaid principal (rate / 12) n Hr) as Hzero.
    fold payment in Hzero.
    destruct (Math_max_spec 0 (balance_after (S n) payment (rate / 12)
                                 principal)) as [[Hlt ->] | [Hge ->]];
      [exact Hzero | reflexivity].
Qed.

Lemma amortization_schedule_witness :
  let details := calculateLoanDetails 1000 (12 # 100) 1 in
  let schedule := lcr_paymentSchedule details in
  Z.of_nat (length schedule) = (1 * 12)%Z
  /\ (forall j row, nth_error schedule j = Some row ->
        pay_month row = Z.of_nat (S j)
        /\ pay_payment row = lcr_monthlyPayment details
        /\ 0 <= pay_remainingBalance row)
  /\ (forall j row next,
        nth_error schedule j = Some row ->
        nth_error schedule (S j) = Some next ->
        pay_remainingBalance next <= pay_remainingBalance row)
  /\ exists final,
       nth_error schedule (Z.to_nat (1 * 12 - 1)) = Some final
       /\ pay_month final = (1 * 12)%Z
       /\ pay_remainingBalance final == 0.
Proof.
  apply (amortization_schedule 1000 (12 # 100) 1);
    [reflexivity | reflexivity | lia].
Defined.

(** * Further properties of the engine *)

(** ** The period solver returns the first month at the target *)

Section FirstMonth.

Variables targetAmount monthlyInvestment : Q.

(** The loop stops [k] months on, where no earlier balance reached the
    target, and the balance after [k] months did unless the ceiling cut
    the loop short. *)
Lemma period_while_first (fuel : nat) :
  forall (monthlyReturn : Q) (months : Z) (currentValue : Q),
    (months <= 1200)%Z ->
    (1200 - months <= Z.of_nat fuel)%Z ->
    exists k : nat,
      period_while fuel targetAmount monthlyReturn monthlyInvestment months
        currentValue = (months + Z.of_nat k)%Z
      /\ (months + Z.of_nat k <= 1200)%Z
      /\ (forall j, (j < k)%nat ->
            replay j monthlyReturn monthlyInvestment currentValue
            < targetAmount)
      /\ ((months + Z.of_nat k < 1200)%Z ->
          targetAmount
          <= replay k monthlyReturn monthlyInvestment currentValue).
Proof.
  induction fuel as [| fuel IH]; intros r months v Hmonths Hfuel.
  - exists 0%nat. cbn [period_while].
    split; [lia |]. split; [lia |]. split; [intros j Hj; lia | lia].
  - rewrite period_while_S.
    case_ltb v targetAmount.
    + destruct (months <? 1200)%Z eqn:Hcap; cbn [andb].
      * apply Z.ltb_lt in Hcap.
        destruct (IH r (months + 1)%Z (v * (1 + r) + monthlyInvestment))
          as (k & Hres & Hle & Hbefore & Hat); [lia | lia |].
        exists (S k). rewrite Hres.
        split; [lia |]. split; [lia |]. split.
        -- intros [| j] Hj; [exact Hlt | apply Hbefore; lia].
        -- intros Hk. apply Hat. lia.
      * apply Z.ltb_ge in Hcap. exists 0%nat.
        split; [lia |]. split; [lia |]. split; [intros j Hj; lia | lia].
    + cbn [andb]. exists 0%nat.
      split; [lia |]. split; [lia |]. split; [intros j Hj; lia |].
      intros _. exact Hlt.
Qed.

End FirstMonth.

(** At a zero rate the recurrence is linear. *)
Lemma replay_zero_rate (k : nat) :
  forall monthlyReturn monthlyInvestment value : Q,
    monthlyReturn == 0 ->
    replay k monthlyReturn monthlyInvestment value
    == value + inject_Z (Z.of_nat k) * monthlyInvestment.
Proof.
  induction k as [| k IH]; intros r m v Hr.
  - change (replay 0 r m v) with v. change (inject_Z (Z.of_nat 0)) with 0.
    ring.
  - rewrite replay_S, IH by exact Hr.
    rewrite Nat2Z.inj_succ. unfold Z.succ. rewrite inject_Z_plus.
    change (inject_Z 1) with 1. rewrite Hr. ring.
Qed.

(** The result of the solver for a goal not yet met and a positive
    contribution. *)
Lemma period_first_month
    (currentAmount targetAmount monthlyInvestment annualReturn : Q) :
  currentAmount < targetAmount ->
  0 < monthlyInvestment ->
  exists n : nat,
    calculateInvestmentPeriod currentAmount targetAmount monthlyInvestment
      annualReturn = Fin (inject_Z (Z.of_nat n))
    /\ (1 <= n)%nat
    /\ (forall k, (k < n)%nat ->
          replay k (annualReturn / 12) monthlyInvestment currentAmount
          < targetAmount)
    /\ ((n < 1200)%nat \/ annualReturn / 12 == 0 ->
        targetAmount
        <= replay n (annualReturn / 12) monthlyInvestment currentAmount)
    /\ ((n <= 1200)%nat \/ annualReturn / 12 == 0).
Proof.
  intros Hgoal Hm. unfold calculateInvestmentPeriod.
  apply leb_gt in Hgoal. rewrite Hgoal. apply leb_gt in Hgoal.
  assert (Hm' : leb monthlyInvestment 0 = false) by (apply leb_gt; exact Hm).
  rewrite Hm'. cbv zeta.
  case_eqb (annualReturn / 12) 0.
  - set (x := (targetAmount - currentAmount) / monthlyInvestment).
    assert (Hx : 0 < x) by (apply Qlt_shift_div_l; lra).
    pose proof (Qle_ceiling x) as Hup.
    pose proof (Qceiling_lt x) as Hdown.
    assert (Hpos : (1 <= Qceiling x)%Z).
    { assert (H0 : 0 < inject_Z (Qceiling x)) by lra.
      change 0 with (inject_Z 0) in H0. rewrite <- Zlt_Qlt in H0. lia. }
    exists (Z.to_nat (Qceiling x)).
    unfold Math_ceil. rewrite Z2Nat.id by lia.
    split; [reflexivity |]. split; [lia |].
    assert (Hxm : x * monthlyInvestment == targetAmount - currentAmount).
    { unfold x. field. lra. }
    split; [| split; [| now right]].
    + intros k Hk. rewrite replay_zero_rate by exact Heq.
      assert (Hkx : inject_Z (Z.of_nat k) < x).
      { eapply Qle_lt_trans; [| exact Hdown]. rewrite <- Zle_Qle. lia. }
      assert (inject_Z (Z.of_nat k) * monthlyInvestment
              < x * monthlyInvestment)
        by (apply Qmult_lt_compat_r; assumption).
      lra.
    + intros _. rewrite replay_zero_rate by exact Heq.
      rewrite Z2Nat.id by lia.
      assert (x * monthlyInvestment
              <= inject_Z (Qceiling x) * monthlyInvestment)
        by (apply Qmult_le_compat_r; lra).
      lra.
  - destruct (period_while_first targetAmount monthlyInvestment 1200
                (annualReturn / 12) 0 currentAmount)
      as (k & Hres & Hle & Hbefore & Hat); [lia | lia |].
    rewrite Z.add_0_l in Hres, Hle, Hat.
    exists k. rewrite Hres.
    split; [reflexivity |].
    split; [| split; [exact Hbefore | split]].
    + destruct k as [| k]; [| lia].
      exfalso. assert (H0 : (0 < 1200)%Z) by lia.
      specialize (Hat H0). change (replay 0 _ _ currentAmount)
        with currentAmount in Hat. lra.
    + intros [Hk | Hzero]; [apply Hat; lia | contradiction].
    + left. lia.
Qed.

(** X1.  On the compounding branch (a monthly rate other than 0), for a
    goal not yet met and a positive contribution,
    [calculateInvestmentPeriod] returns the number [n] of turns of its
    loop, between 1 and 1200: the loop's balance is below the target
    before every month up to [n], and at month [n] it is at or over the
    target unless the loop stopped at its 1200-month ceiling. *)
Theorem period_is_first_month
    (currentAmount targetAmount monthlyInvestment annualReturn : Q) :
  currentAmount < targetAmount ->
  0 < monthlyInvestment ->
  ~ annualReturn / 12 == 0 ->
  exists n : nat,
    calculateInvestmentPeriod currentAmount targetAmount monthlyInvestment
      annualReturn = Fin (inject_Z (Z.of_nat n))
    /\ (1 <= n <= 1200)%nat
    /\ (forall k, (k < n)%nat ->
          replay k (annualReturn / 12) monthlyInvestment currentAmount
          < targetAmount)
    /\ ((n < 1200)%nat ->
        targetAmount
        <= replay n (annualReturn / 12) monthlyInvestment currentAmount).
Proof.
  intros Hgoal Hm Hrate.
  destruct (period_first_month currentAmount targetAmount monthlyInvestment
              annualReturn Hgoal Hm) as (n & Hn & H1 & Hbefore & Hat & Hcap).
  exists n. split; [exact Hn |].
  split; [destruct Hcap as [Hcap | Hzero]; [lia | contradiction] |].
  split; [exact Hbefore |].
  intros Hshort. apply Hat. now left.
Qed.

Lemma period_is_first_month_witness :
  exists n : nat,
    calculateInvestmentPeriod 0 1000 300 (12 # 100)
    = Fin (inject_Z (Z.of_nat n))
    /\ (1 <= n <= 1200)%nat
    /\ (forall k, (k < n)%nat -> replay k ((12 # 100) / 12) 300 0 < 1000)
    /\ ((n < 1200)%nat ->
        1000 <= replay n ((12 # 100) / 12) 300 0).
Proof.
  apply (period_is_first_month 0 1000 300 (12 # 100));
    [reflexivity | reflexivity |].
  intros H. vm_compute in H. discriminate H.
Defined.

(** X2.  The solver returns 0 exactly when the goal is already met, and
    [Infinity] exactly when it is not and the contribution is zero or
    negative. *)
Theorem period_zero_and_never
    (currentAmount targetAmount monthlyInvestment annualReturn : Q) :
  let months :=
    calculateInvestmentPeriod currentAmount targetAmount monthlyInvestment
      annualReturn in
  (number_eq months (Fin 0) <-> targetAmount <= currentAmount)
  /\ (months = PosInfinity
      <-> currentAmount < targetAmount /\ monthlyInvestment <= 0).
Proof.
  intros months. subst months.
  destruct (Qlt_le_dec currentAmount targetAmount) as [Hgoal | Hmet].
  - destruct (Qlt_le_dec 0 monthlyInvestment) as [Hm | Hm].
    + destruct (period_first_month currentAmount targetAmount
                  monthlyInvestment annualReturn Hgoal Hm)
        as (n & -> & H1 & _).
      split; split.
      * cbn [number_eq]. intros H0.
        change 0 with (inject_Z 0) in H0. rewrite inject_Z_injective in H0.
        lia.
      * intros H. lra.
      * discriminate.
      * intros [_ H]. lra.
    + unfold calculateInvestmentPeriod.
      apply leb_gt in Hgoal. rewrite Hgoal. apply leb_gt in Hgoal.
      apply leb_le in Hm. rewrite Hm. apply leb_le in Hm.
      split; split.
      * intros [].
      * intros H. lra.
      * intros _. now split.
      * reflexivity.
  - unfold calculateInvestmentPeriod.
    apply leb_le in Hmet. rewrite Hmet. apply leb_le in Hmet.
    split; split.
    + intros _. exact Hmet.
    + intros _. cbn. reflexivity.
    + discriminate.
    + intros [H _]. lra.
Qed.

(** X3.  On the compounding branch (a monthly rate other than 0),
    [calculateTargetDate] adds exactly the number of months
    [calculateInvestmentPeriod] returns for the same goal, contribution
    and rate, whenever that is finite: the two run the same loop. *)
Theorem target_date_follows_period
    (targetAmount currentAmount monthlyPayment rate : Q) (n : nat) :
  ~ rate / 12 == 0 ->
  calculateInvestmentPeriod currentAmount targetAmount monthlyPayment rate
  = Fin (inject_Z (Z.of_nat n)) ->
  calculateTargetDate_months targetAmount currentAmount monthlyPayment rate
  = Z.of_nat n.
Proof.
  intros Hrate Hperiod.
  unfold calculateTargetDate_months.
  unfold calculateInvestmentPeriod in Hperiod.
  destruct (leb targetAmount currentAmount).
  - injection Hperiod as Hperiod.
    change 0%Z with (Z.of_nat 0) in Hperiod. apply Nat2Z.inj in Hperiod.
    now subst n.
  - destruct (leb monthlyPayment 0); [discriminate Hperiod |].
    cbv zeta in Hperiod.
    assert (Hbranch : eqb (rate / 12) 0 = false)
      by (apply eqb_neq; exact Hrate).
    rewrite Hbranch in Hperiod.
    set (months := period_while 1200 targetAmount (rate / 12) monthlyPayment
                     0 currentAmount) in *.
    assert (Hsame : inject_Z months = inject_Z (Z.of_nat n))
      by congruence.
    apply (f_equal Qfloor) in Hsame. now rewrite !Qfloor_Z in Hsame.
Qed.

Lemma target_date_follows_period_witness :
  calculateTargetDate_months 5000000 500000 50000 (5 # 100) = Z.of_nat 74.
Proof.
  apply (target_date_follows_period 5000000 500000 50000 (5 # 100) 74).
  - intros H. vm_compute in H. discriminate H.
  - vm_compute. reflexivity.
Defined.

(** ** The trajectory has as many points as the solver reports months *)

Lemma bound_of_months (n : nat) :
  number_min (Fin (inject_Z (Z.of_nat n))) (Fin 600)
  = Fin (inject_Z (Z.of_nat (Nat.min n 600))).
Proof.
  cbn [number_min number_ltb].
  case_ltb 600 (inject_Z (Z.of_nat n)).
  - change 600 with (inject_Z 600) in Hlt. rewrite <- Zlt_Qlt in Hlt.
    rewrite Nat.min_r by lia. reflexivity.
  - change 600 with (inject_Z 600) in Hlt. rewrite <- Zle_Qle in Hlt.
    rewrite Nat.min_l by lia. reflexivity.
Qed.

(** X4.  On the compounding branch (a monthly rate other than 0), when
    [calculateInvestmentSimulation] reports a finite [projectedMonths] of
    [n], its trajectory has exactly [min(n, 600)] points; if [n] is
    between 1 and 600 the last point is month [n] and its running total
    is at or over the target.  The solver and the trajectory run the
    same recurrence there. *)
Theorem trajectory_length
    (currentAmount targetAmount monthlyInvestment annualReturn : Q) (n : nat) :
  ~ annualReturn / 12 == 0 ->
  let sim := calculateInvestmentSimulation currentAmount targetAmount
               monthlyInvestment annualReturn in
  sim_projectedMonths sim = Fin (inject_Z (Z.of_nat n)) ->
  length (sim_monthlyProjections sim) = Nat.min n 600
  /\ ((1 <= n <= 600)%nat ->
      exists final,
        nth_error (sim_monthlyProjections sim) (n - 1) = Some final
        /\ mip_month final = Z.of_nat n
        /\ mip_totalValue final
           = Math_round (replay n (annualReturn / 12) monthlyInvestment
                           currentAmount)
        /\ targetAmount
           <= replay n (annualReturn / 12) monthlyInvestment currentAmount).
Proof.
  intros _ sim Hreported.
  destruct (simulation_projections currentAmount targetAmount
              monthlyInvestment annualReturn) as [Hpm Hpoints].
  fold sim in Hpm, Hpoints. rewrite Hreported in Hpm.
  rewrite Hreported, bound_of_months in Hpoints.
  set (bound := Fin (inject_Z (Z.of_nat (Nat.min n 600)))) in *.
  assert (Hfuel : months_upto bound = Nat.min n 600).
  { unfold bound. cbn [months_upto]. now rewrite Qfloor_Z, Nat2Z.id. }
  rewrite Hfuel in Hpoints.
  destruct (simulation_for (Nat.min n 600) bound 1 targetAmount
              (annualReturn / 12) monthlyInvestment
              {| cumulativeInvestment := 0; cumulativeReturns := 0;
                 running_totalValue := currentAmount |})
    as [points final] eqn:Hloop.
  cbn [fst] in Hpoints. rewrite Hpoints.
  apply simulation_for_shape in Hloop. cbn [running_totalValue] in Hloop.
  destruct Hloop as (Hlen & _ & Hpts & _ & Hend).
  (* what the solver's result says about the balances *)
  assert (Hsolver :
            n = 0%nat
            \/ ((forall k, (k < n)%nat ->
                   replay k (annualReturn / 12) monthlyInvestment currentAmount
                   < targetAmount)
                /\ ((n < 1200)%nat ->
                    targetAmount
                    <= replay n (annualReturn / 12) monthlyInvestment
                         currentAmount))).
  { destruct (Qlt_le_dec currentAmount targetAmount) as [Hgoal | Hmet].
    - destruct (Qlt_le_dec 0 monthlyInvestment) as [Hm | Hm].
      + right.
        destruct (period_first_month currentAmount targetAmount
                    monthlyInvestment annualReturn Hgoal Hm)
          as (n' & Hn' & _ & Hbefore & Hat & _).
        rewrite <- Hpm in Hn'. injection Hn' as Hn'.
        apply Nat2Z.inj in Hn'. subst n'.
        split; [exact Hbefore | intros H; apply Hat; now left].
      + exfalso. symmetry in Hpm. unfold calculateInvestmentPeriod in Hpm.
        apply leb_gt in Hgoal. rewrite Hgoal in Hpm.
        apply leb_le in Hm. rewrite Hm in Hpm. discriminate.
    - left. symmetry in Hpm. unfold calculateInvestmentPeriod in Hpm.
      apply leb_le in Hmet. rewrite Hmet in Hpm. injection Hpm as Hpm.
      lia. }
  assert (Hlength : length points = Nat.min n 600).
  { destruct Hsolver as [-> | [Hbefore Hat]]; [cbn in Hlen; lia |].
    destruct Hend as [[Hpos Hhit] | [Hfull | Hout]].
    - destruct (Nat.le_gt_cases n (length points)) as [H | H]; [lia |].
      specialize (Hbefore _ H). lra.
    - exact Hfull.
    - unfold bound in Hout. cbn [number_leb] in Hout. apply leb_gt in Hout.
      rewrite <- Zlt_Qlt in Hout. lia. }
  split; [exact Hlength |].
  intros Hn.
  destruct (nth_error points (n - 1)) as [last |] eqn:Hlast;
    [| apply nth_error_None in Hlast; lia].
  exists last. destruct (Hpts _ _ Hlast) as (Hmonth & Hvalue & _).
  replace (S (n - 1)) with n in Hvalue by lia.
  split; [reflexivity |]. split; [lia |]. split; [exact Hvalue |].
  destruct Hsolver as [-> | [_ Hat]]; [lia | apply Hat; lia].
Qed.

Lemma trajectory_length_witness :
  let sim := calculateInvestmentSimulation 500000 5000000 50000 (5 # 100) in
  length (sim_monthlyProjections sim) = Nat.min 74 600
  /\ ((1 <= 74 <= 600)%nat ->
      exists final,
        nth_error (sim_monthlyProjections sim) (74 - 1) = Some final
        /\ mip_month final = Z.of_nat 74
        /\ mip_totalValue final
           = Math_round (replay 74 ((5 # 100) / 12) 50000 500000)
        /\ 5000000 <= replay 74 ((5 # 100) / 12) 50000 500000).
Proof.
  apply (trajectory_length 500000 5000000 50000 (5 # 100) 74).
  - intros H. vm_compute in H. discriminate H.
  - exact (proj1 goal_scenario_length).
Defined.

(** ** Closed forms and the month-by-month recurrence *)

Lemma pow_S (a : Q) (k : nat) : a ^ Z.of_nat (S k) == a * a ^ Z.of_nat k.
Proof.
  rewrite Nat2Z.inj_succ. unfold Z.succ.
  rewrite Qpower_plus' by lia. rewrite Qpower_1_r. ring.
Qed.

Lemma toFixed2_compat (x y : Q) : x == y -> toFixed2 x = toFixed2 y.
Proof.
  intros H. unfold toFixed2.
  assert (Hsign : ltb x 0 = ltb y 0).
  { case_ltb x 0; case_ltb y 0; try reflexivity; lra. }
  rewrite Hsign.
  assert (E1 : Qfloor (- x * 100 + (1 # 2)) = Qfloor (- y * 100 + (1 # 2)))
    by now rewrite H.
  assert (E2 : Qfloor (x * 100 + (1 # 2)) = Qfloor (y * 100 + (1 # 2)))
    by now rewrite H.
  now rewrite E1, E2.
Qed.

(** After [n] months the recurrence holds the compounded start value
    plus the future value of the contributions. *)
Lemma replay_closed_form (n : nat) :
  forall r m v : Q,
    ~ r == 0 ->
    replay n r m v
    == v * (1 + r) ^ Z.of_nat n + m * ((1 + r) ^ Z.of_nat n - 1) / r.
Proof.
  induction n as [| n IH]; intros r m v Hr.
  - change (replay 0 r m v) with v. change ((1 + r) ^ Z.of_nat 0) with 1.
    field. exact Hr.
  - rewrite replay_S, IH by exact Hr. rewrite pow_S.
    set (F := (1 + r) ^ Z.of_nat n). field. exact Hr.
Qed.

Lemma pow_of_one (a : Q) (z : Z) : a == 1 -> a ^ z == 1.
Proof. intros ->. apply Qpower_1. Qed.

Lemma annuity_is_recurrence_aux (payment rate : Q) (n : nat) :
  futureValueAnnuity payment rate (Z.of_nat n) == replay n rate payment 0.
Proof.
  unfold futureValueAnnuity, Math_pow.
  case_eqb rate 0.
  - rewrite replay_zero_rate by exact Heq. ring.
  - rewrite replay_closed_form by exact Heq. field. exact Heq.
Qed.

(** X5.  [futureValueAnnuity(payment, rate, n)] is what the monthly
    recurrence [balance * (1 + rate) + payment] holds after [n] steps
    from an empty balance, for every rate, zero included. *)
Theorem annuity_is_recurrence (payment rate : Q) (n : nat) :
  futureValueAnnuity payment rate (Z.of_nat n) == replay n rate payment 0.
Proof. exact (annuity_is_recurrence_aux payment rate n). Qed.

(** [calculateFutureValue] against the recurrence. *)
Lemma future_value_replay
    (currentAmount monthlyInvestment annualReturn : Q) (n : nat) (years : Z) :
  (years * 12)%Z = Z.of_nat n ->
  calculateFutureValue currentAmount monthlyInvestment annualReturn years
  == replay n (annualReturn / 12) monthlyInvestment currentAmount.
Proof.
  intros Hn. unfold calculateFutureValue, Math_pow. cbv zeta. rewrite Hn.
  set (r := annualReturn / 12).
  case_eqb r 0.
  - rewrite replay_zero_rate by exact Heq.
    rewrite pow_of_one by (rewrite Heq; reflexivity). ring.
  - rewrite replay_closed_form by exact Heq. field. exact Heq.
Qed.

(** X6.  For a whole number of [years >= 0], the closed form
    [calculateFutureValue] evaluates is the balance the monthly
    recurrence [balance * (1 + r) + investment] holds after [12 * years]
    steps from the current amount, at the zero rate too. *)
Theorem future_value_is_recurrence
    (currentAmount monthlyInvestment annualReturn : Q) (years : Z) :
  (0 <= years)%Z ->
  calculateFutureValue currentAmount monthlyInvestment annualReturn years
  == replay (Z.to_nat (years * 12)) (annualReturn / 12) monthlyInvestment
       currentAmount.
Proof.
  intros Hyears.
  assert (Hn : (years * 12)%Z = Z.of_nat (Z.to_nat (years * 12))) by lia.
  exact (future_value_replay currentAmount monthlyInvestment annualReturn
           _ years Hn).
Qed.

Lemma future_value_is_recurrence_witness :
  calculateFutureValue 1000 100 (6 # 100) 2
  == replay (Z.to_nat (2 * 12)) ((6 # 100) / 12) 100 1000.
Proof.
  apply (future_value_is_recurrence 1000 100 (6 # 100) 2). lia.
Defined.

(** ** Whole years in months *)

Lemma whole_years_months (years : Z) :
  (1 <= years)%Z ->
  (years * 12)%Z = Z.of_nat (S (Z.to_nat (years * 12 - 1))).
Proof. lia. Qed.

(** ** Savings primitives of calculations.ts *)

(** X9.  For a whole number of [years >= 1] and a rate that is not
    negative, [calculateRequiredMonthlyPayment] returns 0 when the
    current amount compounds to the target on its own; otherwise it
    returns a positive payment whose annuity tops the compounded amount
    up to exactly the target, so [simulateInvestmentScenarios] with that
    payment reports the target as its expected value. *)
Theorem required_payment_round_trip
    (targetAmount currentAmount rate volatility : Q) (years : Z) :
  (1 <= years)%Z -> 0 <= rate ->
  let payment :=
    calculateRequiredMonthlyPayment targetAmount currentAmount rate years in
  let grown := compoundInterest currentAmount rate years in
  (targetAmount <= grown /\ payment = 0)
  \/ (grown < targetAmount
      /\ 0 < payment
      /\ grown + futureValueAnnuity payment (rate / 12) (years * 12)
         == targetAmount
      /\ sv_expected
           (simulateInvestmentScenarios currentAmount payment rate volatility
              years)
         = toFixed2 targetAmount).
Proof.
  intros Hyears Hrate payment grown.
  pose proof (monthly_rate rate) as Hmr.
  pose proof (whole_years_months years Hyears) as HN.
  unfold payment, calculateRequiredMonthlyPayment. cbv zeta. fold grown.
  assert (HNq : 0 < inject_Z (years * 12)).
  { change 0 with (inject_Z 0). rewrite <- Zlt_Qlt. lia. }
  case_leb (targetAmount - grown) 0.
  - left. split; [lra | reflexivity].
  - right. split; [lra |].
    assert (Hsum : forall p,
               grown + futureValueAnnuity p (rate / 12) (years * 12)
               == targetAmount ->
               sv_expected
                 (simulateInvestmentScenarios currentAmount p rate volatility
                    years)
               = toFixed2 targetAmount).
    { intros p Hp. unfold simulateInvestmentScenarios. cbv zeta.
      cbn [sv_expected]. apply toFixed2_compat. exact Hp. }
    unfold futureValueAnnuity, Math_pow in *.
    set (r := rate / 12) in *.
    set (F := (1 + r) ^ (years * 12)) in *.
    case_eqb rate 0.
    + assert (Hz : eqb r 0 = true) by (apply eqb_eq; lra).
      rewrite Hz in *.
      assert (Hpos : 0 < (targetAmount - grown) / inject_Z (years * 12))
        by (apply Qlt_shift_div_l; lra).
      assert (Htop : grown
                     + (targetAmount - grown) / inject_Z (years * 12)
                       * inject_Z (years * 12) == targetAmount)
        by (field; lra).
      split; [exact Hpos |]. split; [exact Htop | now apply Hsum].
    + assert (Hr : 0 < r) by lra.
      assert (Hz : eqb r 0 = false) by (apply eqb_neq; lra).
      rewrite Hz in *.
      assert (HF : 1 < F).
      { unfold F. rewrite HN. apply Qpower_1_lt; [lra | lia]. }
      assert (Hpos : 0 < (targetAmount - grown) * r / (F - 1)).
      { apply Qlt_shift_div_l; [lra |].
        rewrite Qmult_0_l. apply Qmult_lt_0_compat; lra. }
      assert (Htop : grown
                     + (targetAmount - grown) * r / (F - 1) * ((F - 1) / r)
                     == targetAmount)
        by (field; split; lra).
      split; [exact Hpos |]. split; [exact Htop | now apply Hsum].
Qed.

Lemma required_payment_round_trip_witness :
  let payment := calculateRequiredMonthlyPayment 5000 1000 (6 # 100) 2 in
  let grown := compoundInterest 1000 (6 # 100) 2 in
  (5000 <= grown /\ payment = 0)
  \/ (grown < 5000
      /\ 0 < payment
      /\ grown + futureValueAnnuity payment ((6 # 100) / 12) (2 * 12) == 5000
      /\ sv_expected
           (simulateInvestmentScenarios 1000 payment (6 # 100) (15 # 100) 2)
         = toFixed2 5000).
Proof.
  apply (required_payment_round_trip 5000 1000 (6 # 100) (15 # 100) 2);
    [lia | discriminate].
Defined.

(** X10.  Discounting undoes compounding and compounding undoes
    discounting, for every whole number of periods, whenever [1 + rate]
    is not 0; [calculateRealValue] is the same discounting. *)
Theorem present_value_round_trip (amount rate : Q) (periods : Z) :
  ~ 1 + rate == 0 ->
  presentValue (compoundInterest amount rate periods) rate periods == amount
  /\ compoundInterest (presentValue amount rate periods) rate periods
     == amount
  /\ calculateRealValue (compoundInterest amount rate periods) rate periods
     == amount.
Proof.
  intros Hbase.
  pose proof (Qpower_not_0 (1 + rate) periods Hbase) as Hpow.
  unfold presentValue, compoundInterest, calculateRealValue, Math_pow.
  set (F := (1 + rate) ^ periods) in *.
  repeat split; field; exact Hpow.
Qed.

Lemma present_value_round_trip_witness :
  presentValue (compoundInterest 1000 (5 # 100) 10) (5 # 100) 10 == 1000
  /\ compoundInterest (presentValue 1000 (5 # 100) 10) (5 # 100) 10 == 1000
  /\ calculateRealValue (compoundInterest 1000 (5 # 100) 10) (5 # 100) 10
     == 1000.
Proof.
  apply (present_value_round_trip 1000 (5 # 100) 10). discriminate.
Defined.



(** ** The savings scenarios are ordered *)

Lemma pow_mono_base (n : nat) (a b : Q) :
  0 <= a -> a <= b ->
  0 <= a ^ Z.of_nat n /\ a ^ Z.of_nat n <= b ^ Z.of_nat n.
Proof.
  intros Ha Hab. induction n as [| n [IH0 IH]].
  - change (a ^ Z.of_nat 0) with 1. change (b ^ Z.of_nat 0) with 1.
    split; lra.
  - rewrite !pow_S. split.
    + apply Qmult_le_0_compat; assumption.
    + apply Qle_trans with (a * b ^ Z.of_nat n).
      * rewrite !(Qmult_comm a). apply Qmult_le_compat_r; assumption.
      * apply Qmult_le_compat_r; [assumption | lra].
Qed.

(** A higher rate never leaves a smaller balance, from a balance and a
    contribution that are not negative. *)
Lemma replay_mono_rate (n : nat) :
  forall r1 r2 m v1 v2 : Q,
    0 <= 1 + r1 -> r1 <= r2 -> 0 <= m -> v1 <= v2 -> 0 <= v2 ->
    replay n r1 m v1 <= replay n r2 m v2.
Proof.
  induction n as [| n IH]; intros r1 r2 m v1 v2 Hr1 Hr Hm Hv Hv2;
    [exact Hv |].
  rewrite !replay_S.
  assert (Hstep : v1 * (1 + r1) <= v2 * (1 + r2)).
  { apply Qle_trans with (v2 * (1 + r1)).
    - apply Qmult_le_compat_r; assumption.
    - rewrite !(Qmult_comm v2). apply Qmult_le_compat_r; lra. }
  assert (0 <= v2 * (1 + r2)) by (apply Qmult_le_0_compat; lra).
  apply IH; try assumption; lra.
Qed.

Lemma replay_nonneg (n : nat) :
  forall r m v : Q, 0 <= 1 + r -> 0 <= m -> 0 <= v -> 0 <= replay n r m v.
Proof.
  induction n as [| n IH]; intros r m v Hr Hm Hv; [exact Hv |].
  rewrite replay_S. apply IH; try assumption.
  assert (0 <= v * (1 + r)) by (apply Qmult_le_0_compat; assumption).
  lra.
Qed.

(** The unrounded value of one scenario of [simulateInvestmentScenarios]
    is monotone in its rate. *)
Lemma scenario_value_mono (principal monthlyPayment r1 r2 : Q) (n : nat) :
  0 <= principal -> 0 <= monthlyPayment -> 0 <= r1 -> r1 <= r2 ->
  let value r :=
    compoundInterest principal r (Z.of_nat n)
    + futureValueAnnuity monthlyPayment (r / 12) (Z.of_nat n * 12) in
  0 <= value r1 /\ value r1 <= value r2.
Proof.
  intros Hp Hm Hr1 Hr value. unfold value.
  pose proof (monthly_rate r1) as E1. pose proof (monthly_rate r2) as E2.
  replace (Z.of_nat n * 12)%Z with (Z.of_nat (n * 12)) by lia.
  rewrite !annuity_is_recurrence_aux.
  unfold compoundInterest, Math_pow.
  destruct (pow_mono_base n (1 + r1) (1 + r2)) as [H0 Hle]; [lra | lra |].
  assert (Hc0 : 0 <= principal * (1 + r1) ^ Z.of_nat n)
    by (apply Qmult_le_0_compat; assumption).
  assert (Hc : principal * (1 + r1) ^ Z.of_nat n
               <= principal * (1 + r2) ^ Z.of_nat n).
  { rewrite !(Qmult_comm principal). apply Qmult_le_compat_r; assumption. }
  pose proof (replay_nonneg (n * 12) (r1 / 12) monthlyPayment 0) as Ha0.
  pose proof (replay_mono_rate (n * 12) (r1 / 12) (r2 / 12) monthlyPayment
                0 0) as Ha.
  split.
  - assert (0 <= replay (n * 12) (r1 / 12) monthlyPayment 0)
      by (apply Ha0; lra).
    lra.
  - assert (replay (n * 12) (r1 / 12) monthlyPayment 0
            <= replay (n * 12) (r2 / 12) monthlyPayment 0)
      by (apply Ha; lra).
    lra.
Qed.

(** X12.  For a principal, a monthly payment, an expected return and a
    volatility that are not negative and a whole number of [years >= 0],
    [simulateInvestmentScenarios] reports pessimistic <= expected <=
    optimistic. *)
Theorem savings_scenarios_ordered
    (principal monthlyPayment expectedReturn volatility : Q) (years : Z) :
  0 <= principal -> 0 <= monthlyPayment ->
  0 <= expectedReturn -> 0 <= volatility -> (0 <= years)%Z ->
  let s :=
    simulateInvestmentScenarios principal monthlyPayment expectedReturn
      volatility years in
  sv_pessimistic s <= sv_expected s /\ sv_expected s <= sv_optimistic s.
Proof.
  intros Hp Hm He Hv Hyears s.
  unfold s, simulateInvestmentScenarios. cbv zeta.
  cbn [sv_pessimistic sv_expected sv_optimistic].
  replace years with (Z.of_nat (Z.to_nat years)) by lia.
  set (n := Z.to_nat years).
  assert (Hpess : 0 <= Math_max 0 (expectedReturn - volatility)
                  /\ Math_max 0 (expectedReturn - volatility)
                     <= expectedReturn).
  { destruct (Math_max_spec 0 (expectedReturn - volatility))
      as [[H ->] | [H ->]]; lra. }
  destruct Hpess as [Hpess0 Hpess].
  destruct (scenario_value_mono principal monthlyPayment
              (Math_max 0 (expectedReturn - volatility)) expectedReturn n
              Hp Hm Hpess0 Hpess) as [H1 H2].
  destruct (scenario_value_mono principal monthlyPayment expectedReturn
              (expectedReturn + volatility) n Hp Hm He ltac:(lra))
    as [H3 H4].
  cbv zeta in H1, H2, H3, H4.
  split; apply toFixed2_nonneg_mono; assumption.
Qed.

Lemma savings_scenarios_ordered_witness :
  let s := simulateInvestmentScenarios 1000 100 (5 # 100) (15 # 100) 3 in
  sv_pessimistic s <= sv_expected s /\ sv_expected s <= sv_optimistic s.
Proof.
  apply (savings_scenarios_ordered 1000 100 (5 # 100) (15 # 100) 3);
    discriminate.
Defined.

(** ** Loan payments and the term *)

Lemma payment_falls_with_term
    (principal annualRate : Q) (shorter longer : Z) :
  0 <= principal -> 0 <= annualRate ->
  (1 <= shorter)%Z -> (shorter <= longer)%Z ->
  calculateMonthlyLoanPayment principal annualRate longer
  <= calculateMonthlyLoanPayment principal annualRate shorter.
Proof.
  intros Hp Hrate Hshort Hlong. unfold calculateMonthlyLoanPayment.
  pose proof (monthly_rate annualRate) as Hmr.
  assert (Hs : 0 < inject_Z shorter).
  { change 0 with (inject_Z 0). rewrite <- Zlt_Qlt. lia. }
  assert (Hl : inject_Z shorter <= inject_Z longer)
    by (rewrite <- Zle_Qle; exact Hlong).
  case_eqb annualRate 0.
  - apply Qle_shift_div_r; [lra |].
    assert (E : principal / inject_Z shorter * inject_Z longer
                == principal * inject_Z longer / inject_Z shorter)
      by (field; lra).
    rewrite E. apply Qle_shift_div_l; [exact Hs |].
    rewrite !(Qmult_comm principal). apply Qmult_le_compat_r; assumption.
  - cbv zeta. unfold Math_pow.
    set (r := annualRate / 12) in *.
    assert (Hr : 0 < r) by lra.
    assert (HF : 1 < (1 + r) ^ shorter)
      by (apply Qpower_1_lt; [lra | lia]).
    assert (HFF : (1 + r) ^ shorter <= (1 + r) ^ longer)
      by (apply Qpower_le_compat_l; [exact Hlong | lra]).
    set (F := (1 + r) ^ shorter) in *. set (G := (1 + r) ^ longer) in *.
    apply Qle_shift_div_r; [lra |].
    assert (E : principal * (r * F) / (F - 1) * (G - 1)
                == principal * (r * F) * (G - 1) / (F - 1))
      by (field; lra).
    rewrite E. apply Qle_shift_div_l; [lra |].
    assert (Hpr : 0 <= principal * r) by (apply Qmult_le_0_compat; lra).
    assert (Hkey : principal * r * F <= principal * r * G).
    { rewrite !(Qmult_comm (principal * r)).
      apply Qmult_le_compat_r; assumption. }
    lra.
Qed.

(** X13.  For a principal and a rate that are not negative, a longer
    term never raises the level payment:
    [calculateMonthlyLoanPayment] at [longer] months is at most the
    payment at [shorter] months when [1 <= shorter <= longer]. *)
Theorem longer_term_lower_payment
    (principal annualRate : Q) (shorter longer : Z) :
  0 <= principal -> 0 <= annualRate ->
  (1 <= shorter)%Z -> (shorter <= longer)%Z ->
  calculateMonthlyLoanPayment principal annualRate longer
  <= calculateMonthlyLoanPayment principal annualRate shorter.
Proof. apply payment_falls_with_term. Qed.

Lemma longer_term_lower_payment_witness :
  calculateMonthlyLoanPayment 1000 (12 # 100) 24
  <= calculateMonthlyLoanPayment 1000 (12 # 100) 12.
Proof.
  apply (longer_term_lower_payment 1000 (12 # 100) 12 24);
    try discriminate; lia.
Defined.

(** X14.  With a positive total cost, [calculateROI] is positive exactly
    when the final assets exceed the cost and negative exactly when they
    fall short of it, and it is never below -100 for assets that are not
    negative; the [initialInvestment] argument plays no part. *)
Theorem roi_sign (initialInvestment finalAssets totalCost : Q) :
  0 < totalCost ->
  let roi := calculateROI initialInvestment finalAssets totalCost in
  (0 < roi <-> totalCost < finalAssets)
  /\ (roi < 0 <-> finalAssets < totalCost)
  /\ (0 <= finalAssets -> - (100) <= roi)
  /\ roi == (finalAssets / totalCost - 1) * 100.
Proof.
  intros Hcost roi.
  assert (Hroi : roi == (finalAssets / totalCost - 1) * 100).
  { unfold roi, calculateROI.
    assert (Hg : leb totalCost 0 = false) by (apply leb_gt; exact Hcost).
    rewrite Hg. field. lra. }
  set (q := finalAssets / totalCost) in *.
  assert (Hq : q * totalCost == finalAssets) by (unfold q; field; lra).
  assert (Hup : totalCost < finalAssets <-> 1 < q).
  { split; intros H.
    - unfold q. apply Qlt_shift_div_l; lra.
    - rewrite <- Hq.
      assert (1 * totalCost < q * totalCost)
        by (apply Qmult_lt_compat_r; assumption).
      lra. }
  assert (Hdown : finalAssets < totalCost <-> q < 1).
  { split; intros H.
    - unfold q. apply Qlt_shift_div_r; lra.
    - rewrite <- Hq.
      assert (q * totalCost < 1 * totalCost)
        by (apply Qmult_lt_compat_r; assumption).
      lra. }
  split; [rewrite Hup; split; intros; lra |].
  split; [rewrite Hdown; split; intros; lra |].
  split; [| exact Hroi].
  intros Hassets.
  assert (0 <= q) by (unfold q; apply Qle_shift_div_l; lra).
  lra.
Qed.

Lemma roi_sign_witness :
  let roi := calculateROI 500 1100 1000 in
  (0 < roi <-> 1000 < 1100)
  /\ (roi < 0 <-> 1100 < 1000)
  /\ (0 <= 1100 -> - (100) <= roi)
  /\ roi == (1100 / 1000 - 1) * 100.
Proof.
  apply (roi_sign 500 1100 1000). reflexivity.
Defined.

(** ** The suggested loan terms *)

(** [Math.min(...rates)] is a least element of the list. *)
Lemma fold_Math_min (others : list Q) :
  forall first : Q,
  let best := fold_left Math_min others first in
  In best (first :: others)
  /\ (forall rate, In rate (first :: others) -> best <= rate).
Proof.
  induction others as [| x others IH]; intros first; cbn zeta.
  - split; [left; reflexivity |].
    intros rate [<- | []]. apply Qle_refl.
  - change (fold_left Math_min (x :: others) first)
      with (fold_left Math_min others (Math_min first x)).
    destruct (IH (Math_min first x)) as [Hin Hle].
    assert (Hm : (Math_min first x = first /\ first <= x)
                 \/ (Math_min first x = x /\ x < first)).
    { unfold Math_min. case_ltb x first; [right | left]; split;
        solve [reflexivity | assumption]. }
    split.
    + destruct Hin as [Hin | Hin].
      * rewrite <- Hin.
        destruct Hm as [[Hm _] | [Hm _]]; rewrite Hm.
        -- left. reflexivity.
        -- right. left. reflexivity.
      * right. right. exact Hin.
    + assert (Hfirst :
        fold_left Math_min others (Math_min first x) <= Math_min first x)
        by (apply Hle; left; reflexivity).
      intros rate [<- | [<- | Hrate]].
      * apply Qle_trans with (Math_min first x); [exact Hfirst |].
        destruct Hm as [[Hm _] | [Hm Hlt]]; rewrite Hm; lra.
      * apply Qle_trans with (Math_min first x); [exact Hfirst |].
        destruct Hm as [[Hm Hlt] | [Hm _]]; rewrite Hm; lra.
      * apply Hle. right. exact Hrate.
Qed.

(** The term search returns the first term of the progression
    [months, months + 12, ...] whose payment fits, or the initial value of
    [optimalTerm] when none of the [count] terms fits. *)
Lemma term_search_first (productPrice monthlyBudget bestRate : Q)
    (optimalTerm : Z) (count : nat) :
  forall months : Z,
  let fits := fun term =>
    calculateMonthlyLoanPayment (productPrice * (8 # 10)) bestRate term
    <= monthlyBudget * (8 # 10) in
  let found :=
    term_search count months productPrice monthlyBudget bestRate optimalTerm in
  (exists j : nat,
      (j < count)%nat /\ found = (months + 12 * Z.of_nat j)%Z /\ fits found
      /\ forall i : nat, (i < j)%nat
           -> ~ fits (months + 12 * Z.of_nat i)%Z)
  \/ (found = optimalTerm
      /\ forall i : nat, (i < count)%nat
           -> ~ fits (months + 12 * Z.of_nat i)%Z).
Proof.
  induction count as [| count IH]; intros months fits found.
  - right. split; [reflexivity | intros i Hi; lia].
  - unfold found. cbn [term_search]. cbv zeta.
    case_leb (calculateMonthlyLoanPayment (productPrice * (8 # 10)) bestRate
                months) (monthlyBudget * (8 # 10)).
    + left. exists O. split; [lia |].
      split; [lia |]. split; [exact Hle | intros i Hi; lia].
    + destruct (IH (months + 12)%Z) as [[j [Hj [Hfound [Hfits Hnone]]]] | [Hfound Hnone]].
      * left. exists (S j). split; [lia |].
        split; [rewrite Hfound; lia |]. split; [exact Hfits |].
        intros [| i] Hi.
        -- replace (months + 12 * Z.of_nat 0)%Z with months by lia.
           unfold fits. lra.
        -- replace (months + 12 * Z.of_nat (S i))%Z
             with (months + 12 + 12 * Z.of_nat i)%Z by lia.
           apply Hnone. lia.
      * right. split; [exact Hfound |].
        intros [| i] Hi.
        -- replace (months + 12 * Z.of_nat 0)%Z with months by lia.
           unfold fits. lra.
        -- replace (months + 12 * Z.of_nat (S i))%Z
             with (months + 12 + 12 * Z.of_nat i)%Z by lia.
           apply Hnone. lia.
Qed.



(** ** The rows of the down-payment sweep *)

(** [scenario.field || 0] is the field itself. *)
Lemma field_or_zero_some (scenario : LoanScenario)
    (field : LoanScenario -> Q) :
  field_or_zero (Some scenario) field == field scenario.
Proof.
  unfold field_or_zero. case_eqb (field scenario) 0; [| reflexivity].
  now symmetry.
Qed.

Section SweepRows.

Variables (productPrice currentSavings loanInterestRate : Q)
          (loanTermMonths : Z)
          (investmentReturn projectedYears monthlyInvestmentCapacity : Q).

(** The loop pushes, for each percentage in turn, the row [sweep_row]
    describes; the [catch] branch is never taken. *)
Lemma sweep_for_rows (count : nat) :
  forall (dp : Z) (best : number) (optimal : Z) entries final,
    sweep_for count dp productPrice currentSavings loanInterestRate
      loanTermMonths investmentReturn projectedYears
      monthlyInvestmentCapacity best optimal = (entries, final) ->
    forall j entry, nth_error entries j = Some entry ->
      sweep_row productPrice currentSavings loanInterestRate loanTermMonths
        investmentReturn projectedYears monthlyInvestmentCapacity
        (dp + Z.of_nat j) entry.
Proof.
  induction count as [| count IH]; intros dp best optimal entries final H.
  - cbn in H. injection H as <- <-. intros [| j] entry Hj; discriminate.
  - cbn [sweep_for] in H. cbv zeta beta in H.
    assert (Hlater : forall best' optimal' rest final',
              sweep_for count (dp + 1)%Z productPrice currentSavings
                loanInterestRate loanTermMonths investmentReturn
                projectedYears monthlyInvestmentCapacity best' optimal'
              = (rest, final') ->
              forall j entry, nth_error rest j = Some entry ->
                sweep_row productPrice currentSavings loanInterestRate
                  loanTermMonths investmentReturn projectedYears
                  monthlyInvestmentCapacity (dp + Z.of_nat (S j)) entry).
    { intros best' optimal' rest final' Hrec j entry Hj.
      replace (dp + Z.of_nat (S j))%Z with (dp + 1 + Z.of_nat j)%Z by lia.
      exact (IH _ _ _ _ _ Hrec j entry Hj). }
    destruct (leb (productPrice * (inject_Z dp / 100)) currentSavings)
      eqn:Hfeas.
    + unfold calculateROIForDownPayment in H.
      destruct (calculateLoanScenario_returns productPrice currentSavings
                  (inject_Z dp) loanInterestRate loanTermMonths
                  investmentReturn projectedYears monthlyInvestmentCapacity)
        as (scenario & Hscenario & _).
      rewrite Hscenario in H. cbv zeta in H.
      assert (Hhead :
        sweep_row productPrice currentSavings loanInterestRate
          loanTermMonths investmentReturn projectedYears
          monthlyInvestmentCapacity (dp + Z.of_nat 0)
          {| roi_downPayment := dp;
             roi_roi :=
               Fin (calculateROI currentSavings (loan_finalAssets scenario)
                      (loan_totalCost scenario));
             roi_finalAssets := field_or_zero (Some scenario) loan_finalAssets;
             roi_totalCost := field_or_zero (Some scenario) loan_totalCost;
             roi_monthlyPayment :=
               field_or_zero (Some scenario) loan_monthlyPayment;
             roi_feasible := true |}).
      { replace (dp + Z.of_nat 0)%Z with dp by lia.
        unfold sweep_row. rewrite Hfeas. exists scenario.
        cbn [roi_downPayment roi_roi roi_finalAssets roi_totalCost
             roi_monthlyPayment roi_feasible].
        split; [exact Hscenario |]. split; [reflexivity |].
        split; [reflexivity |].
        split; [apply field_or_zero_some |].
        split; [apply field_or_zero_some |].
        split; [apply field_or_zero_some | reflexivity]. }
      destruct (number_gtb _ best).
      * destruct (sweep_for count (dp + 1)%Z _ _ _ _ _ _ _ _ dp)
          as [rest final'] eqn:Hrec.
        injection H as <- <-. intros [| j] entry Hj.
        -- injection Hj as <-. exact Hhead.
        -- exact (Hlater _ _ _ _ Hrec j entry Hj).
      * destruct (sweep_for count (dp + 1)%Z _ _ _ _ _ _ _ best optimal)
          as [rest final'] eqn:Hrec.
        injection H as <- <-. intros [| j] entry Hj.
        -- injection Hj as <-. exact Hhead.
        -- exact (Hlater _ _ _ _ Hrec j entry Hj).
    + destruct (sweep_for count (dp + 1)%Z _ _ _ _ _ _ _ best optimal)
        as [rest final'] eqn:Hrec.
      injection H as <- <-. intros [| j] entry Hj.
      * injection Hj as <-.
        replace (dp + Z.of_nat 0)%Z with dp by lia.
        unfold sweep_row. rewrite Hfeas. reflexivity.
      * exact (Hlater _ _ _ _ Hrec j entry Hj).
Qed.

End SweepRows.





(** X18.  When the savings do not reach the smallest down payment of the
    range (for a price that is not negative), nothing is feasible: the
    sweep reports [maxROI = -Infinity], leaves [optimalDownPayment] at
    [minDownPayment], and every row of [roiAnalysis] is infeasible with
    ROI [-Infinity] and zero amounts. *)
Theorem sweep_nothing_feasible
    (productPrice currentSavings loanInterestRate : Q) (loanTermMonths : Z)
    (investmentReturn projectedYears monthlyInvestmentCapacity : Q)
    (minDownPayment maxDownPayment : Z) :
  0 <= productPrice ->
  currentSavings < productPrice * (inject_Z minDownPayment / 100) ->
  let result :=
    findOptimalDownPaymentForROI productPrice currentSavings loanInterestRate
      loanTermMonths investmentReturn projectedYears
      monthlyInvestmentCapacity minDownPayment maxDownPayment in
  maxROI result = NegInfinity
  /\ optimalDownPayment result = minDownPayment
  /\ length (roiAnalysis result)
     = Z.to_nat (maxDownPayment - minDownPayment + 1)
  /\ forall entry, In entry (roiAnalysis result) ->
       roi_feasible entry = false
       /\ roi_roi entry = NegInfinity
       /\ roi_finalAssets entry = 0
       /\ roi_totalCost entry = 0
       /\ roi_monthlyPayment entry = 0.
Proof.
  intros Hprice Hshort result.
  unfold findOptimalDownPaymentForROI in result.
  destruct (sweep_for (Z.to_nat (maxDownPayment - minDownPayment + 1))
              minDownPayment productPrice currentSavings loanInterestRate
              loanTermMonths investmentReturn projectedYears
              monthlyInvestmentCapacity NegInfinity minDownPayment)
    as [entries [top optimal]] eqn:Hsweep.
  subst result. cbn [roiAnalysis maxROI optimalDownPayment].
  pose proof (sweep_for_rows _ _ _ _ _ _ _ _ _ _ _ _ _ Hsweep) as Hrows.
  apply sweep_for_entries in Hsweep. destruct Hsweep as (Hfold & Hlen & Hnth).
  assert (Hout : forall j : nat,
            leb (productPrice
                 * (inject_Z (minDownPayment + Z.of_nat j) / 100))
              currentSavings = false).
  { intros j. apply leb_gt.
    apply Qlt_le_trans with (1 := Hshort).
    rewrite !(Qmult_comm productPrice). apply Qmult_le_compat_r; [| exact Hprice].
    assert (Hz : inject_Z minDownPayment
                 <= inject_Z (minDownPayment + Z.of_nat j))
      by (rewrite <- Zle_Qle; lia).
    unfold Qdiv. apply Qmult_le_compat_r; [exact Hz | discriminate]. }
  assert (Hall : forall entry, In entry entries ->
            roi_feasible entry = false
            /\ roi_roi entry = NegInfinity
            /\ roi_finalAssets entry = 0
            /\ roi_totalCost entry = 0
            /\ roi_monthlyPayment entry = 0).
  { intros entry Hin. destruct (In_nth_error _ _ Hin) as [j Hj].
    specialize (Hrows _ _ Hj). unfold sweep_row in Hrows.
    rewrite Hout in Hrows. rewrite Hrows. now repeat split. }
  assert (Hkeep : forall (rows : list RoiEntry) (start : number * Z),
            (forall entry, In entry rows -> roi_feasible entry = false) ->
            fold_left keep_best rows start = start).
  { induction rows as [| row rows IH]; intros start Hrowsf; [reflexivity |].
    cbn [fold_left]. unfold keep_best at 2.
    rewrite (Hrowsf row (or_introl eq_refl)).
    apply IH. intros entry Hin. apply Hrowsf. now right. }
  rewrite Hkeep in Hfold by (intros entry Hin; now apply Hall).
  injection Hfold as -> ->.
  split; [reflexivity |]. split; [reflexivity |]. split; [exact Hlen |].
  exact Hall.
Qed.

Lemma sweep_nothing_feasible_witness :
  let result :=
    findOptimalDownPaymentForROI 1000 50 (5 # 100) 12 (5 # 100) 1 100
      10 40 in
  maxROI result = NegInfinity
  /\ optimalDownPayment result = 10%Z
  /\ length (roiAnalysis result) = Z.to_nat (40 - 10 + 1)
  /\ forall entry, In entry (roiAnalysis result) ->
       roi_feasible entry = false
       /\ roi_roi entry = NegInfinity
       /\ roi_finalAssets entry = 0
       /\ roi_totalCost entry = 0
       /\ roi_monthlyPayment entry = 0.
Proof.
  apply (sweep_nothing_feasible 1000 50 (5 # 100) 12 (5 # 100) 1 100 10 40);
    [discriminate | reflexivity].
Defined.

(** ** The loan balance laid over the investment trajectory *)

Lemma owed_after_S (monthlyPayment annualRate : Q) (k : nat) :
  forall balance : Q,
    owed_after (S k) monthlyPayment annualRate balance
    = Math_max 0
        (owed_after k monthlyPayment annualRate balance
         - (monthlyPayment
            - owed_after k monthlyPayment annualRate balance
              * (annualRate / 12))).
Proof.
  induction k as [| k IH]; intros balance; [reflexivity |].
  change (owed_after (S (S k)) monthlyPayment annualRate balance)
    with (owed_after (S k) monthlyPayment annualRate
            (Math_max 0
               (balance - (monthlyPayment - balance * (annualRate / 12))))).
  rewrite IH. reflexivity.
Qed.

Lemma owed_after_nonneg (monthlyPayment annualRate balance : Q) (k : nat) :
  0 <= owed_after (S k) monthlyPayment annualRate balance.
Proof. rewrite owed_after_S. apply Math_max_l. Qed.

(** While the cut-off at zero does not act, the overlay's balance is the
    balance of the amortization. *)
Lemma owed_is_balance (monthlyPayment annualRate balance : Q) (k : nat) :
  (forall j : nat, (j <= k)%nat ->
     0 <= balance_after j monthlyPayment (annualRate / 12) balance) ->
  owed_after k monthlyPayment annualRate balance
  == balance_after k monthlyPayment (annualRate / 12) balance.
Proof.
  induction k as [| k IH]; intros Hpos; [reflexivity |].
  rewrite owed_after_S, balance_after_S.
  assert (Hk : owed_after k monthlyPayment annualRate balance
               == balance_after k monthlyPayment (annualRate / 12) balance)
    by (apply IH; intros j Hj; apply Hpos; lia).
  pose proof (Hpos (S k) (Nat.le_refl _)) as Hnext.
  rewrite balance_after_S in Hnext.
  set (o := owed_after k monthlyPayment annualRate balance) in *.
  set (b := balance_after k monthlyPayment (annualRate / 12) balance) in *.
  assert (Hstep : o - (monthlyPayment - o * (annualRate / 12))
                  == b - (monthlyPayment - b * (annualRate / 12)))
    by (rewrite Hk; reflexivity).
  destruct (Math_max_spec 0 (o - (monthlyPayment - o * (annualRate / 12))))
    as [[Hlt ->] | [Hge ->]]; [exact Hstep |].
  rewrite Hstep in Hge. lra.
Qed.

Section Overlay.

Variables (projections : list MonthlyOpportunityProjection)
          (loanInterestRate : Q) (loanTermMonths : Z) (monthlyPayment : Q).

(** Each point of the overlay copies the month, the contribution and the
    investment value of the point below it; within the term it shows the
    rounded balance after the payment and the rounded payment, and past
    the term it shows zero for both. *)
Lemma enhance_for_shape (count : nat) :
  forall (month : Z) (balance : Q) points,
    (1 <= month)%Z ->
    enhance_for count month projections loanInterestRate loanTermMonths
      monthlyPayment balance = Some points ->
    length points = count
    /\ forall j p, nth_error points j = Some p ->
         exists original,
           nth_error projections (Z.to_nat (month - 1) + j) = Some original
           /\ mop_month p = mop_month original
           /\ mop_investmentContribution p
              = mop_investmentContribution original
           /\ mop_investmentValue p = mop_investmentValue original
           /\ if (month + Z.of_nat j <=? loanTermMonths)%Z then
                let owed :=
                  owed_after (S j) monthlyPayment loanInterestRate balance in
                mop_loanBalance p = Some (Math_round owed)
                /\ mop_loanPayment p = Some (Math_round monthlyPayment)
                /\ mop_netWorth p
                   = Math_round (mop_investmentValue original - owed)
              else
                mop_loanBalance p = Some 0
                /\ mop_loanPayment p = Some 0
                /\ mop_netWorth p
                   = Math_round (mop_investmentValue original - 0).
Proof.
  induction count as [| count IH]; intros month balance points Hmonth H.
  - cbn in H. injection H as <-. split; [reflexivity |].
    intros [| j] p Hp; discriminate.
  - cbn [enhance_for] in H.
    destruct (nth_error projections (Z.to_nat (month - 1)))
      as [original |] eqn:Horiginal; [| discriminate].
    cbv zeta in H.
    match type of H with
    | context [enhance_for count ?m _ _ _ _ ?b] =>
        destruct (enhance_for count m projections loanInterestRate
                    loanTermMonths monthlyPayment b) as [rest |] eqn:Hrec;
        [| discriminate]
    end.
    injection H as <-.
    apply IH in Hrec; [| lia]. destruct Hrec as (Hlen & Hrest).
    split; [cbn [length]; now rewrite Hlen |].
    intros [| j] p Hp.
    + injection Hp as <-. exists original.
      rewrite Nat.add_0_r. split; [exact Horiginal |].
      cbn [mop_month mop_investmentContribution mop_investmentValue
           mop_loanBalance mop_loanPayment mop_netWorth].
      split; [reflexivity |]. split; [reflexivity |]. split; [reflexivity |].
      replace (month + Z.of_nat 0)%Z with month by lia.
      destruct (month <=? loanTermMonths)%Z; cbv zeta;
        (split; [reflexivity |]); split; reflexivity.
    + cbn [nth_error] in Hp.
      destruct (Hrest j p Hp) as (orig & Horig & Hm & Hc & Hv & Hloan).
      exists orig.
      replace (Z.to_nat (month - 1) + S j)%nat
        with (Z.to_nat (month + 1 - 1) + j)%nat by lia.
      split; [exact Horig |].
      split; [exact Hm |]. split; [exact Hc |]. split; [exact Hv |].
      replace (month + Z.of_nat (S j))%Z
        with (month + 1 + Z.of_nat j)%Z by lia.
      destruct (month + 1 + Z.of_nat j <=? loanTermMonths)%Z eqn:Hin.
      * assert (Hhere : (month <=? loanTermMonths)%Z = true)
          by (apply Z.leb_le; apply Z.leb_le in Hin; lia).
        rewrite Hhere in Hloan. exact Hloan.
      * exact Hloan.
Qed.

End Overlay.

(** The unrounded figures behind a loan scenario and the points of its
    trajectory. *)
Lemma loan_scenario_points
    (productPrice currentSavings downPaymentPercentage loanInterestRate : Q)
    (loanTermMonths : Z)
    (investmentReturn projectedYears additionalMonthlyInvestment : Q) :
  let loanAmount := productPrice - productPrice * (downPaymentPercentage / 100) in
  let payment :=
    calculateMonthlyLoanPayment loanAmount loanInterestRate loanTermMonths in
  let value k :=
    replay k (investmentReturn / 12)
      (Math_max 0 (additionalMonthlyInvestment - payment))
      (Math_max 0
         (currentSavings - productPrice * (downPaymentPercentage / 100))) in
  exists scenario,
    calculateLoanScenario productPrice currentSavings downPaymentPercentage
      loanInterestRate loanTermMonths investmentReturn projectedYears
      additionalMonthlyInvestment = Some scenario
    /\ loan_monthlyPayment scenario = Math_round payment
    /\ loan_monthlyInvestment scenario
       = Math_max 0 (additionalMonthlyInvestment - payment)
    /\ length (oa_monthlyProjections (loan_opportunity scenario))
       = Z.to_nat (analysis_months projectedYears)
    /\ forall j p,
         nth_error (oa_monthlyProjections (loan_opportunity scenario)) j
         = Some p ->
         mop_month p = Z.of_nat (S j)
         /\ mop_investmentValue p = Math_round (value (S j))
         /\ if (Z.of_nat (S j) <=? loanTermMonths)%Z then
              let owed :=
                owed_after (S j) payment loanInterestRate loanAmount in
              mop_loanBalance p = Some (Math_round owed)
              /\ mop_loanPayment p = Some (Math_round payment)
              /\ mop_netWorth p = Math_round (Math_round (value (S j)) - owed)
            else
              mop_loanBalance p = Some 0
              /\ mop_loanPayment p = Some 0
              /\ mop_netWorth p = Math_round (Math_round (value (S j)) - 0).
Proof.
  intros loanAmount payment value.
  unfold calculateLoanScenario, loan_costs. cbv zeta.
  fold loanAmount. fold payment.
  set (remaining :=
         Math_max 0
           (currentSavings - productPrice * (downPaymentPercentage / 100))).
  set (net := Math_max 0 (additionalMonthlyInvestment - payment)).
  set (months := analysis_months projectedYears).
  rewrite opportunity_projections.
  destruct (opportunity_for (Z.to_nat months) 1 remaining net
              (investmentReturn / 12) _) as [base final] eqn:Hloop.
  apply opportunity_for_shape in Hloop. cbn [g_investmentValue] in Hloop.
  destruct Hloop as (Hlen & _ & Hbase). cbn [fst].
  destruct (enhance_for_total base loanInterestRate loanTermMonths payment
              (Z.to_nat months) 1 loanAmount) as (points & Hpoints & _);
    [lia | rewrite Hlen; change (Z.to_nat (1 - 1)) with 0%nat; lia |].
  rewrite Hpoints. eexists. split; [reflexivity |].
  cbn [loan_monthlyPayment loan_monthlyInvestment loan_opportunity
       oa_monthlyProjections].
  split; [reflexivity |]. split; [reflexivity |].
  apply enhance_for_shape in Hpoints; [| lia].
  destruct Hpoints as (Hcount & Hshape).
  split; [exact Hcount |].
  intros j p Hp.
  destruct (Hshape j p Hp) as (original & Horiginal & Hm & _ & Hv & Hloan).
  change (Z.to_nat (1 - 1) + j)%nat with j in Horiginal.
  destruct (Hbase j original Horiginal) as (Hom & _ & Hov & _).
  split; [rewrite Hm, Hom; lia |].
  split; [rewrite Hv, Hov; reflexivity |].
  replace (Z.of_nat (S j)) with (1 + Z.of_nat j)%Z by lia.
  rewrite Hov in Hloan. exact Hloan.
Qed.

(** X19.  For a loan rate that is not negative and a term of at least
    one month, [calculateLoanScenario] returns a trajectory of one point
    per month of the analysis period.  Within the loan term a point shows the
    scenario's monthly payment and a balance that is not negative, and
    its net worth is at most its investment value; past the term the
    balance and the payment shown are 0 and the net worth is the
    investment value. *)
Theorem loan_overlay
    (productPrice currentSavings downPaymentPercentage loanInterestRate : Q)
    (loanTermMonths : Z)
    (investmentReturn projectedYears additionalMonthlyInvestment : Q) :
  0 <= loanInterestRate -> (1 <= loanTermMonths)%Z ->
  exists scenario,
    calculateLoanScenario productPrice currentSavings downPaymentPercentage
      loanInterestRate loanTermMonths investmentReturn projectedYears
      additionalMonthlyInvestment = Some scenario
    /\ length (oa_monthlyProjections (loan_opportunity scenario))
       = Z.to_nat (analysis_months projectedYears)
    /\ forall j p,
         nth_error (oa_monthlyProjections (loan_opportunity scenario)) j
         = Some p ->
         mop_month p = Z.of_nat (S j)
         /\ ((mop_month p <= loanTermMonths)%Z ->
             mop_loanPayment p = Some (loan_monthlyPayment scenario)
             /\ (exists owed, mop_loanBalance p = Some owed /\ 0 <= owed)
             /\ mop_netWorth p <= mop_investmentValue p)
         /\ ((loanTermMonths < mop_month p)%Z ->
             mop_loanPayment p = Some 0
             /\ mop_loanBalance p = Some 0
             /\ mop_netWorth p = mop_investmentValue p).
Proof.
  intros _ _.
  destruct (loan_scenario_points productPrice currentSavings
              downPaymentPercentage loanInterestRate loanTermMonths
              investmentReturn projectedYears additionalMonthlyInvestment)
    as (scenario & Hscenario & Hpay & _ & Hlen & Hpoints).
  exists scenario. split; [exact Hscenario |]. split; [exact Hlen |].
  intros j p Hp. destruct (Hpoints j p Hp) as (Hm & Hv & Hloan).
  split; [exact Hm |]. rewrite Hm.
  assert (Hwhole : forall x d : Q,
            0 <= d -> Math_round (Math_round x - d) <= Math_round x).
  { intros x d Hd.
    change (Math_round x) with (inject_Z (Qfloor (x + (1 # 2)))).
    apply Qle_trans with (Math_round (inject_Z (Qfloor (x + (1 # 2)))));
      [apply Math_round_mono; lra | rewrite Math_round_Z; apply Qle_refl]. }
  split.
  - intros Hin. apply Z.leb_le in Hin. rewrite Hin in Hloan.
    cbv zeta in Hloan. destruct Hloan as (Hb & Hq & Hn).
    split; [rewrite Hq, Hpay; reflexivity |].
    split.
    + eexists. split; [exact Hb |].
      apply Qle_trans with (Math_round 0); [discriminate |].
      apply Math_round_mono, owed_after_nonneg.
    + rewrite Hn, Hv. apply Hwhole, owed_after_nonneg.
  - intros Hout. apply Z.leb_gt in Hout. rewrite Hout in Hloan.
    destruct Hloan as (Hb & Hq & Hn).
    split; [exact Hq |]. split; [exact Hb |].
    rewrite Hn, Hv.
    match goal with
    | |- Math_round (Math_round ?x - 0) = _ =>
        change (Math_round x) with (inject_Z (Qfloor (x + (1 # 2))));
        transitivity (Math_round (inject_Z (Qfloor (x + (1 # 2)))));
        [apply Math_round_compat; lra | apply Math_round_Z]
    end.
Qed.

Lemma loan_overlay_witness :
  exists scenario,
    calculateLoanScenario 1000 300 20 (5 # 100) 12 (5 # 100) 2 100
    = Some scenario
    /\ length (oa_monthlyProjections (loan_opportunity scenario))
       = Z.to_nat (analysis_months 2)
    /\ forall j p,
         nth_error (oa_monthlyProjections (loan_opportunity scenario)) j
         = Some p ->
         mop_month p = Z.of_nat (S j)
         /\ ((mop_month p <= 12)%Z ->
             mop_loanPayment p = Some (loan_monthlyPayment scenario)
             /\ (exists owed, mop_loanBalance p = Some owed /\ 0 <= owed)
             /\ mop_netWorth p <= mop_investmentValue p)
         /\ ((12 < mop_month p)%Z ->
             mop_loanPayment p = Some 0
             /\ mop_loanBalance p = Some 0
             /\ mop_netWorth p = mop_investmentValue p).
Proof.
  apply (loan_overlay 1000 300 20 (5 # 100) 12 (5 # 100) 2 100);
    [discriminate | lia].
Defined.

(** The level payment keeps the balance from going negative before the
    last month and brings it to zero there, at a positive rate and at
    rate zero alike. *)
Lemma level_payment_clears (loanAmount annualRate : Q) (n : nat) :
  0 <= loanAmount -> 0 <= annualRate ->
  let payment :=
    calculateMonthlyLoanPayment loanAmount annualRate (Z.of_nat (S n)) in
  (forall j : nat, (j <= S n)%nat ->
     0 <= balance_after j payment (annualRate / 12) loanAmount)
  /\ balance_after (S n) payment (annualRate / 12) loanAmount == 0.
Proof.
  intros Hamount Hrate payment.
  pose proof (monthly_rate annualRate) as Hmr.
  assert (HN : 0 < inject_Z (Z.of_nat (S n))).
  { change 0 with (inject_Z 0). rewrite <- Zlt_Qlt. lia. }
  unfold calculateMonthlyLoanPayment in payment.
  destruct (eqb annualRate 0) eqn:Hzero.
  - apply eqb_eq in Hzero.
    assert (Hline : forall j : nat,
              balance_after j payment (annualRate / 12) loanAmount
              == loanAmount
                 * ((inject_Z (Z.of_nat (S n)) - inject_Z (Z.of_nat j))
                    / inject_Z (Z.of_nat (S n)))).
    { induction j as [| j IH].
      - change (balance_after 0 payment (annualRate / 12) loanAmount)
          with loanAmount.
        change (inject_Z (Z.of_nat 0)) with 0. field. lra.
      - rewrite balance_after_S, IH.
        replace (Z.of_nat (S j)) with (Z.of_nat j + 1)%Z by lia.
        rewrite inject_Z_plus. change (inject_Z 1) with 1.
        unfold payment.
        set (N := inject_Z (Z.of_nat (S n))) in *.
        set (J := inject_Z (Z.of_nat j)).
        assert (Hr0 : annualRate / 12 == 0) by lra.
        rewrite Hr0. field. lra. }
    split.
    + intros j Hj. rewrite Hline.
      apply Qmult_le_0_compat; [exact Hamount |].
      apply Qle_shift_div_l; [exact HN |].
      assert (inject_Z (Z.of_nat j) <= inject_Z (Z.of_nat (S n)))
        by (rewrite <- Zle_Qle; lia).
      lra.
    + rewrite Hline. field. lra.
  - apply eqb_neq in Hzero.
    assert (Hr : 0 < annualRate / 12) by lra.
    cbv zeta in payment. unfold Math_pow in payment.
    pose proof (balance_closed_form loanAmount (annualRate / 12) n Hr)
      as Hclosed.
    pose proof (factor_pow_gt_1 (annualRate / 12) Hr n) as HF.
    cbv zeta in HF.
    fold payment in Hclosed.
    split.
    + intros j Hj. rewrite Hclosed.
      assert (Hgrow : (1 + annualRate / 12) ^ Z.of_nat j
                      <= (1 + annualRate / 12) ^ Z.of_nat (S n))
        by (apply Qpower_le_compat_l; [lia | lra]).
      apply Qle_shift_div_l; [lra |].
      apply Qle_trans with 0; [lra |].
      apply Qmult_le_0_compat; [exact Hamount | lra].
    + exact (balance_repaid loanAmount (annualRate / 12) n Hr).
Qed.

(** X20.  For a price and a rate that are not negative, a down payment of
    at most 100% and a term of at least one month that ends within the
    analysis period, the trajectory of [calculateLoanScenario] shows the
    loan repaid at the last month of the term: the balance shown there is
    0 and the net worth is the investment value. *)
Theorem loan_cleared_at_term
    (productPrice currentSavings downPaymentPercentage loanInterestRate : Q)
    (loanTermMonths : Z)
    (investmentReturn projectedYears additionalMonthlyInvestment : Q) :
  0 <= productPrice -> downPaymentPercentage <= 100 ->
  0 <= loanInterestRate ->
  (1 <= loanTermMonths <= analysis_months projectedYears)%Z ->
  exists scenario last,
    calculateLoanScenario productPrice currentSavings downPaymentPercentage
      loanInterestRate loanTermMonths investmentReturn projectedYears
      additionalMonthlyInvestment = Some scenario
    /\ nth_error (oa_monthlyProjections (loan_opportunity scenario))
         (Z.to_nat (loanTermMonths - 1)) = Some last
    /\ mop_month last = loanTermMonths
    /\ mop_loanBalance last = Some 0
    /\ mop_netWorth last = mop_investmentValue last.
Proof.
  intros Hprice Hdown Hrate Hterm.
  destruct (loan_scenario_points productPrice currentSavings
              downPaymentPercentage loanInterestRate loanTermMonths
              investmentReturn projectedYears additionalMonthlyInvestment)
    as (scenario & Hscenario & _ & _ & Hlen & Hpoints).
  set (n := Z.to_nat (loanTermMonths - 1)).
  assert (Hn : loanTermMonths = Z.of_nat (S n)) by (unfold n; lia).
  destruct (nth_error (oa_monthlyProjections (loan_opportunity scenario)) n)
    as [last |] eqn:Hlast; [| apply nth_error_None in Hlast; lia].
  exists scenario, last. split; [exact Hscenario |]. split; [exact Hlast |].
  destruct (Hpoints n last Hlast) as (Hm & Hv & Hloan).
  split; [rewrite Hm; now symmetry |].
  assert (Hin : (Z.of_nat (S n) <=? loanTermMonths)%Z = true)
    by (apply Z.leb_le; lia).
  rewrite Hin in Hloan. cbv zeta in Hloan.
  destruct Hloan as (Hb & _ & Hw).
  set (loanAmount :=
         productPrice - productPrice * (downPaymentPercentage / 100)) in *.
  assert (Hamount : 0 <= loanAmount).
  { unfold loanAmount.
    assert (Hpart : productPrice * (downPaymentPercentage / 100)
                    <= productPrice * 1).
    { rewrite !(Qmult_comm productPrice).
      apply Qmult_le_compat_r; [| exact Hprice].
      apply Qle_shift_div_r; [reflexivity | lra]. }
    lra. }
  destruct (level_payment_clears loanAmount loanInterestRate n Hamount Hrate)
    as (Hpos & Hzero).
  rewrite <- Hn in Hpos, Hzero.
  assert (Howed :
            owed_after (S n)
              (calculateMonthlyLoanPayment loanAmount loanInterestRate
                 loanTermMonths) loanInterestRate loanAmount == 0).
  { rewrite owed_is_balance; [exact Hzero | exact Hpos]. }
  split.
  - rewrite Hb. f_equal.
    rewrite (Math_round_compat _ 0 Howed). reflexivity.
  - rewrite Hw, Hv.
    match goal with
    | |- Math_round (Math_round ?x - ?d) = _ =>
        change (Math_round x) with (inject_Z (Qfloor (x + (1 # 2))));
        transitivity (Math_round (inject_Z (Qfloor (x + (1 # 2)))));
        [apply Math_round_compat; rewrite Howed; lra | apply Math_round_Z]
    end.
Qed.

Lemma loan_cleared_at_term_witness :
  exists scenario last,
    calculateLoanScenario 1000 300 20 (5 # 100) 12 (5 # 100) 1 100
    = Some scenario
    /\ nth_error (oa_monthlyProjections (loan_opportunity scenario))
         (Z.to_nat (12 - 1)) = Some last
    /\ mop_month last = 12%Z
    /\ mop_loanBalance last = Some 0
    /\ mop_netWorth last = mop_investmentValue last.
Proof.
  apply (loan_cleared_at_term 1000 300 20 (5 # 100) 12 (5 # 100) 1 100);
    [discriminate | discriminate | discriminate |].
  split; [lia | vm_compute; discriminate].
Defined.

(** ** Totals of the opportunity analysis *)

(** The loop keeps [totalInvested] at the initial amount plus the months'
    contributions. *)
Lemma opportunity_for_invested
    (initialAmount monthlyInvestment monthlyReturn : Q) (count : nat) :
  forall (month : Z) (st : Growth) points final,
    opportunity_for count month initialAmount monthlyInvestment monthlyReturn st
    = (points, final) ->
    g_totalInvested st == initialAmount + g_cumulativeMonthlyInvestment st ->
    g_totalInvested final
    == initialAmount + g_cumulativeMonthlyInvestment st
       + inject_Z (Z.of_nat count) * monthlyInvestment.
Proof.
  induction count as [| count IH]; intros month st points final H Hinv.
  - cbn in H. injection H as <- <-.
    change (inject_Z (Z.of_nat 0)) with 0. lra.
  - cbn [opportunity_for] in H. cbv zeta in H.
    match type of H with
    | context [opportunity_for count ?m _ _ _ ?s] =>
        destruct (opportunity_for count m initialAmount monthlyInvestment
                    monthlyReturn s) as [ps f] eqn:Hrec
    end.
    injection H as <- <-.
    apply IH in Hrec; [| reflexivity].
    cbn [g_cumulativeMonthlyInvestment] in Hrec. rewrite Hrec.
    replace (Z.of_nat (S count)) with (Z.of_nat count + 1)%Z by lia.
    rewrite inject_Z_plus. change (inject_Z 1) with 1. ring.
Qed.

(** The three totals [calculateOpportunityAnalysis] reports. *)
Lemma opportunity_summary
    (initialAmount monthlyInvestment annualReturn : Q) (months : Z) :
  let analysis :=
    calculateOpportunityAnalysis initialAmount monthlyInvestment annualReturn
      months in
  let value :=
    replay (Z.to_nat months) (annualReturn / 12) monthlyInvestment
      initialAmount in
  exists invested : Q,
    invested
    == initialAmount + inject_Z (Z.of_nat (Z.to_nat months)) * monthlyInvestment
    /\ oa_totalInvested analysis = Math_round invested
    /\ oa_finalValue analysis = Math_round value
    /\ oa_investmentReturns analysis
       = Math_round (Math_round value - invested).
Proof.
  intros analysis value. unfold analysis, calculateOpportunityAnalysis.
  cbv zeta.
  destruct (opportunity_for (Z.to_nat months) 1 initialAmount
              monthlyInvestment (annualReturn / 12) _) as [points final]
    eqn:Hloop.
  pose proof (opportunity_for_invested _ _ _ _ _ _ _ _ Hloop) as Hinv.
  cbn [g_totalInvested g_cumulativeMonthlyInvestment] in Hinv.
  apply opportunity_for_shape in Hloop. cbn [g_investmentValue] in Hloop.
  destruct Hloop as (_ & Hvalue & _).
  exists (g_totalInvested final).
  cbn [oa_totalInvested oa_finalValue oa_investmentReturns].
  split; [rewrite Hinv; [ring | ring] |].
  split; [reflexivity |]. rewrite Hvalue. split; reflexivity.
Qed.

(** ** Paying the whole price as the down payment *)

Lemma replay_compat (n : nat) :
  forall r m1 m2 v1 v2 : Q,
    m1 == m2 -> v1 == v2 -> replay n r m1 v1 == replay n r m2 v2.
Proof.
  induction n as [| n IH]; intros r m1 m2 v1 v2 Hm Hv; [exact Hv |].
  rewrite !replay_S. apply IH; [exact Hm |]. now rewrite Hm, Hv.
Qed.

Lemma Math_max_compat (a b b' : Q) : b == b' -> Math_max a b == Math_max a b'.
Proof.
  intros H.
  destruct (Math_max_spec a b) as [[H1 ->] | [H1 ->]];
    destruct (Math_max_spec a b') as [[H2 ->] | [H2 ->]]; lra.
Qed.

(** X22.  A loan with a down payment of 100% borrows nothing: for a whole
    price, a rate that is not negative, a term of at least one month and
    a monthly capacity that is not negative, the loan scenario has
    payment 0, no interest and the final assets of the lump-sum scenario,
    and [calculatePurchaseSimulation] reports a difference of 0 and, the
    comparison being strict, recommends the loan. *)
Theorem full_down_payment_ties
    (productPrice currentSavings : Q) (price : Z)
    (loanInterestRate : Q) (loanTermMonths : Z)
    (investmentReturn projectedYears monthlyInvestmentCapacity : Q) :
  productPrice == inject_Z price ->
  0 <= loanInterestRate -> (1 <= loanTermMonths)%Z ->
  0 <= monthlyInvestmentCapacity ->
  exists simulation,
    calculatePurchaseSimulation productPrice currentSavings
      {| downPaymentPercentage := 100;
         interestRate := loanInterestRate;
         termMonths := loanTermMonths |}
      investmentReturn projectedYears monthlyInvestmentCapacity
    = Some simulation
    /\ loan_monthlyPayment (ps_loanScenario simulation) == 0
    /\ loan_totalInterest (ps_loanScenario simulation) == 0
    /\ loan_totalCost (ps_loanScenario simulation) == productPrice
    /\ loan_finalAssets (ps_loanScenario simulation)
       = lump_finalAssets (ps_lumpSumScenario simulation)
    /\ ps_totalDifference simulation == 0
    /\ ps_recommendation simulation = loan.
Proof.
  intros Hwhole Hrate Hterm Hcapacity.
  unfold calculatePurchaseSimulation.
  cbn [downPaymentPercentage interestRate termMonths].
  unfold calculateLumpSumScenario. cbv zeta. cbn [lump_finalAssets].
  destruct (loan_scenario_points productPrice currentSavings 100
              loanInterestRate loanTermMonths investmentReturn projectedYears
              monthlyInvestmentCapacity)
    as (scenario & Hscenario & Hpay & _).
  pose proof Hscenario as Hfields.
  unfold calculateLoanScenario, loan_costs in Hfields. cbv zeta in Hfields.
  match type of Hfields with
  | match ?e with _ => _ end = _ => destruct e as [enhanced |]; [| discriminate]
  end.
  injection Hfields as Hfields.
  rewrite Hscenario.
  set (loanAmount := productPrice - productPrice * (100 / 100)) in *.
  assert (Hnothing : loanAmount == 0) by (unfold loanAmount; field).
  set (payment :=
         calculateMonthlyLoanPayment loanAmount loanInterestRate
           loanTermMonths) in *.
  assert (Hpayment : payment == 0).
  { unfold payment, calculateMonthlyLoanPayment.
    assert (HN : 0 < inject_Z loanTermMonths).
    { change 0 with (inject_Z 0). rewrite <- Zlt_Qlt. lia. }
    pose proof (monthly_rate loanInterestRate) as Hmr.
    case_eqb loanInterestRate 0.
    - rewrite Hnothing. field. lra.
    - cbv zeta. unfold Math_pow.
      assert (HF : 1 < (1 + loanInterestRate / 12) ^ loanTermMonths)
        by (apply Qpower_1_lt; [lra | lia]).
      rewrite Hnothing. field. lra. }
  assert (Hround0 : forall x, x == 0 -> Math_round x == 0).
  { intros x Hx. rewrite (Math_round_compat x 0 Hx). reflexivity. }
  assert (Hcost : loan_totalCost scenario == productPrice).
  { rewrite <- Hfields. cbn [loan_totalCost].
    assert (E : productPrice
                + (payment * inject_Z loanTermMonths - loanAmount)
                == inject_Z price)
      by (rewrite Hpayment, Hnothing, Hwhole; ring).
    rewrite (Math_round_compat _ _ E), Math_round_Z. now symmetry. }
  assert (Hassets :
            loan_finalAssets scenario
            = oa_finalValue
                (calculateOpportunityAnalysis
                   (Math_max 0 (currentSavings - productPrice))
                   monthlyInvestmentCapacity investmentReturn
                   (analysis_months projectedYears))).
  { rewrite <- Hfields. cbn [loan_finalAssets].
    destruct (opportunity_summary
                (Math_max 0 (currentSavings - productPrice * (100 / 100)))
                (Math_max 0 (monthlyInvestmentCapacity - payment))
                investmentReturn (analysis_months projectedYears))
      as (_ & _ & _ & -> & _).
    destruct (opportunity_summary
                (Math_max 0 (currentSavings - productPrice))
                monthlyInvestmentCapacity investmentReturn
                (analysis_months projectedYears))
      as (_ & _ & _ & -> & _).
    apply Math_round_compat. apply replay_compat.
    - destruct (Math_max_spec 0 (monthlyInvestmentCapacity - payment))
        as [[H1 ->] | [H1 ->]]; lra.
    - apply Math_max_compat. field. }
  eexists. split; [reflexivity |].
  cbn [ps_loanScenario ps_lumpSumScenario ps_totalDifference
       ps_recommendation lump_finalAssets].
  split; [rewrite Hpay; apply Hround0; exact Hpayment |].
  split.
  { rewrite <- Hfields. cbn [loan_totalInterest]. apply Hround0.
    rewrite Hpayment, Hnothing. ring. }
  split; [exact Hcost |]. split; [exact Hassets |].
  rewrite <- Hassets.
  set (assets := loan_finalAssets scenario).
  assert (Hdiff : assets - (assets - (loan_totalCost scenario - productPrice))
                  == 0) by (rewrite Hcost; ring).
  split.
  - unfold Math_abs. apply Hround0. rewrite Hdiff. reflexivity.
  - assert (Hno : ltb 0 (assets
                         - (assets - (loan_totalCost scenario - productPrice)))
                  = false) by (apply ltb_ge; lra).
    now rewrite Hno.
Qed.

Lemma full_down_payment_ties_witness :
  exists simulation,
    calculatePurchaseSimulation 1000 1500
      {| downPaymentPercentage := 100;
         interestRate := 5 # 100;
         termMonths := 12 |}
      (5 # 100) 1 100
    = Some simulation
    /\ loan_monthlyPayment (ps_loanScenario simulation) == 0
    /\ loan_totalInterest (ps_loanScenario simulation) == 0
    /\ loan_totalCost (ps_loanScenario simulation) == 1000
    /\ loan_finalAssets (ps_loanScenario simulation)
       = lump_finalAssets (ps_lumpSumScenario simulation)
    /\ ps_totalDifference simulation == 0
    /\ ps_recommendation simulation = loan.
Proof.
  apply (full_down_payment_ties 1000 1500 1000 (5 # 100) 12 (5 # 100) 1 100);
    try discriminate; try reflexivity; lia.
Defined.

(** ** The plan check *)


(** ** Portfolio allocations *)


(** X26.  For an allocation of shares that are not negative and that
    [validatePortfolioAllocation] accepts, [calculatePortfolioReturn]
    lies between the return of cash and the return of stocks, up to the
    check's tolerance of 0.01 points: between 0.0009999 and 0.080008. *)
Theorem portfolio_return_bounds (allocation : Validators.PortfolioAllocation) :
  Validators.validatePortfolioAllocation allocation = false ->
  0 <= Validators.stocks allocation -> 0 <= Validators.bonds allocation ->
  0 <= Validators.cash allocation -> 0 <= Validators.others allocation ->
  let expected :=
    calculatePortfolioReturn (Validators.stocks allocation)
      (Validators.bonds allocation) (Validators.cash allocation)
      (Validators.others allocation) in
  (1 # 1000) * ((9999 # 100) / 100) <= expected
  /\ expected <= (8 # 100) * ((10001 # 100) / 100).
Proof.
  intros Haccepted Hs Hb Hc Ho expected.
  unfold Validators.validatePortfolioAllocation in Haccepted.
  cbv zeta in Haccepted. apply ltb_ge in Haccepted.
  unfold Math_abs in Haccepted.
  apply Qabs_Qle_condition in Haccepted. destruct Haccepted as [Hlow Hhigh].
  unfold expected, calculatePortfolioReturn. cbv zeta.
  set (s := Validators.stocks allocation) in *.
  set (b := Validators.bonds allocation) in *.
  set (c := Validators.cash allocation) in *.
  set (o := Validators.others allocation) in *.
  assert (Es : s / 100 == s * (1 # 100)) by reflexivity.
  assert (Eb : b / 100 == b * (1 # 100)) by reflexivity.
  assert (Ec : c / 100 == c * (1 # 100)) by reflexivity.
  assert (Eo : o / 100 == o * (1 # 100)) by reflexivity.
  assert (E1 : (9999 # 100) / 100 == 9999 # 10000) by reflexivity.
  assert (E2 : (10001 # 100) / 100 == 10001 # 10000) by reflexivity.
  rewrite Es, Eb, Ec, Eo, E1, E2.
  split; lra.
Qed.

Lemma portfolio_return_bounds_witness :
  let expected := calculatePortfolioReturn 50 30 15 5 in
  (1 # 1000) * ((9999 # 100) / 100) <= expected
  /\ expected <= (8 # 100) * ((10001 # 100) / 100).
Proof.
  apply (portfolio_return_bounds
           {| Validators.stocks := 50; Validators.bonds := 30;
              Validators.cash := 15; Validators.others := 5 |});
    [reflexivity | discriminate | discriminate | discriminate | discriminate].
Defined.

(** ** The budget and the suggested term *)

(** X27.  For a price and rates that are not negative, the term
    [suggestOptimalLoanTerms] proposes keeps the payment on 80% of the
    price within 80% of the budget exactly when the 360-month term does;
    when even 360 months do not fit, the proposal is the 12-month term,
    which does not fit either. *)
Theorem suggested_term_within_budget (productPrice monthlyBudget first : Q)
    (others : list Q) :
  0 <= productPrice ->
  (forall rate, In rate (first :: others) -> 0 <= rate) ->
  let suggestion :=
    suggestOptimalLoanTerms productPrice monthlyBudget (first :: others) in
  exists bestRate : Q,
    st_interestRate suggestion = Fin bestRate
    /\ let fits := fun months =>
         calculateMonthlyLoanPayment (productPrice * (8 # 10)) bestRate months
         <= monthlyBudget * (8 # 10) in
       (fits (st_termMonths suggestion) <-> fits 360%Z)
       /\ (~ fits 360%Z -> st_termMonths suggestion = 12%Z).
Proof.
  intros Hprice Hrates suggestion.
  exists (fold_left Math_min others first).
  split; [reflexivity |]. intros fits.
  destruct (fold_Math_min others first) as [Hin _].
  pose proof (Hrates _ Hin) as Hbest.
  change (st_termMonths suggestion)
    with (term_search 30 12 productPrice monthlyBudget
            (fold_left Math_min others first) 12).
  destruct (term_search_first productPrice monthlyBudget
              (fold_left Math_min others first) 12 30 12)
    as [[j [Hj [Hfound [Hfits _]]]] | [Hfound Hnone]].
  - assert (Hlong : fits 360%Z).
    { unfold fits.
      eapply Qle_trans; [| exact Hfits].
      apply payment_falls_with_term; [| exact Hbest | |]; rewrite ?Hfound.
      - apply Qmult_le_0_compat; [exact Hprice | discriminate].
      - lia.
      - lia. }
    split; [split; intros _; [exact Hlong | exact Hfits] |].
    intros Hno. contradiction.
  - assert (Hno : ~ fits 360%Z) by (apply (Hnone 29%nat); lia).
    assert (Hshort : ~ fits 12%Z) by (apply (Hnone 0%nat); lia).
    rewrite Hfound.
    split; [split; intros H; contradiction |].
    intros _. reflexivity.
Qed.

Lemma suggested_term_within_budget_witness :
  let suggestion :=
    suggestOptimalLoanTerms 1000 100 [5 # 100; 3 # 100] in
  exists bestRate : Q,
    st_interestRate suggestion = Fin bestRate
    /\ let fits := fun months =>
         calculateMonthlyLoanPayment (1000 * (8 # 10)) bestRate months
         <= 100 * (8 # 10) in
       (fits (st_termMonths suggestion) <-> fits 360%Z)
       /\ (~ fits 360%Z -> st_termMonths suggestion = 12%Z).
Proof.
  apply (suggested_term_within_budget 1000 100 (5 # 100) [3 # 100]);
    [discriminate |].
  intros rate [<- | [<- | []]]; discriminate.
Defined.

